(** * SafeTranscript: on-device PII detection and reversible anonymization

    A shallow embedding of the GLiNER pipeline of the repository
    (tokenizer, batch processor, decoder, inference orchestrator) and of the
    anonymization layer built on it, followed by the properties of the
    specification that concern them.

    Conventions.
    - A JavaScript string is the list of its UTF-16 code units ([jsstring]);
      [length], [slice] and [indexOf] count code units, as in the source.
    - JavaScript numbers that hold offsets and counters are [Z]; model scores
      are rationals.
    - A regular expression literal of the source is a value of [Regex.regex],
      executed by a backtracking matcher that follows the priority rules of
      the language (leftmost alternative first, greedy quantifiers).
    - A function of the source that may throw returns a [result]. *)

From Stdlib Require Import Ascii String.
From Stdlib Require Import List ZArith NArith Lia Bool QArith.
From Stdlib Require Import Permutation Sorted DecimalString DecimalN.
Import ListNotations.

Set Implicit Arguments.

(* ===================================================================== *)
(** * Part I. The program                                                 *)
(* ===================================================================== *)

(** ** JavaScript strings *)

Module JS.

Definition jsstring := list N.

(** A string literal of the source (ASCII). *)
Definition str (s : string) : jsstring :=
  map N_of_ascii (list_ascii_of_string s).

Definition jslength (s : jsstring) : Z := Z.of_nat (length s).

Fixpoint eqs (a b : jsstring) : bool :=
  match a, b with
  | [], [] => true
  | x :: a', y :: b' => N.eqb x y && eqs a' b'
  | _, _ => false
  end.

(** Relative index of [slice]: negative values count from the end, the
    result is clamped to [0, len]. *)
Definition clampIndex (len i : Z) : nat :=
  Z.to_nat (if (i <? 0)%Z then Z.max (len + i) 0 else Z.min i len).

(** [s.slice(a, b)] *)
Definition slice (s : jsstring) (a b : Z) : jsstring :=
  let from := clampIndex (jslength s) a in
  let to := clampIndex (jslength s) b in
  firstn (to - from) (skipn from s).

(** [s.slice(a)] *)
Definition sliceFrom (s : jsstring) (a : Z) : jsstring :=
  skipn (clampIndex (jslength s) a) s.

Fixpoint isPrefix (p s : jsstring) : bool :=
  match p, s with
  | [], _ => true
  | c :: p', d :: s' => N.eqb c d && isPrefix p' s'
  | _ :: _, [] => false
  end.

Fixpoint indexOfAux (p s : jsstring) (pos : nat) : Z :=
  if isPrefix p s then Z.of_nat pos
  else match s with
       | [] => (-1)%Z
       | _ :: s' => indexOfAux p s' (S pos)
       end.

(** [s.indexOf(p, from)] *)
Definition indexOf (s p : jsstring) (from : Z) : Z :=
  let k := Z.to_nat (Z.min (Z.max from 0) (jslength s)) in
  indexOfAux p (skipn k s) k.

(** The class [\s]: WhiteSpace and LineTerminator code units. *)
Definition isSpace (c : N) : bool :=
  ((9 <=? c) && (c <=? 13) || (c =? 32) || (c =? 160) || (c =? 5760)
   || (8192 <=? c) && (c <=? 8202) || (c =? 8232) || (c =? 8233)
   || (c =? 8239) || (c =? 8287) || (c =? 12288) || (c =? 65279))%N.

Definition isDigit (c : N) : bool := ((48 <=? c) && (c <=? 57))%N.
Definition isUpper (c : N) : bool := ((65 <=? c) && (c <=? 90))%N.
Definition isLower (c : N) : bool := ((97 <=? c) && (c <=? 122))%N.
Definition isAlpha (c : N) : bool := isUpper c || isLower c.

(** The class [\w]. *)
Definition isWordChar (c : N) : bool :=
  isAlpha c || isDigit c || (c =? 95)%N.

(** [s.split(/\s+/)]: the pieces between the maximal runs of white space.
    [cur] is the piece being read (reversed), [sep] tells that the previous
    code unit belonged to a separator. *)
Fixpoint splitWsAux (s cur : jsstring) (sep : bool) : list jsstring :=
  match s with
  | [] => [rev cur]
  | c :: s' =>
      if isSpace c then
        if sep then splitWsAux s' cur true
        else rev cur :: splitWsAux s' [] true
      else splitWsAux s' (c :: cur) false
  end.

Definition splitWs (s : jsstring) : list jsstring := splitWsAux s [] false.

(** [a.join(' ')] *)
Fixpoint joinSp (l : list jsstring) : jsstring :=
  match l with
  | [] => []
  | [w] => w
  | w :: l' => w ++ 32%N :: joinSp l'
  end.

Fixpoint dropSpaces (s : jsstring) : jsstring :=
  match s with
  | c :: s' => if isSpace c then dropSpaces s' else s
  | [] => []
  end.

(** [s.trim()] *)
Definition trim (s : jsstring) : jsstring :=
  rev (dropSpaces (rev (dropSpaces s))).

(** [a.slice(i, j)] on an array. *)
Definition arraySlice {A} (l : list A) (i j : nat) : list A :=
  firstn (j - i) (skipn i l).

(** Decimal numeral of a non-negative integer, as [String(n)] prints it. *)
Definition decimal (n : Z) : jsstring :=
  str (NilEmpty.string_of_uint (N.to_uint (Z.to_N n))).

End JS.
Export JS.

(** ** Outcomes of functions that may throw or loop *)

(** [Throw] is an exception that reaches the caller; [Diverges] is a loop of
    the source that never ends. *)
Inductive result (A : Type) : Type :=
| Ok (a : A)
| Throw (msg : string)
| Diverges.
Arguments Ok {A} a.
Arguments Throw {A} msg.
Arguments Diverges {A}.

Definition bind {A B} (r : result A) (f : A -> result B) : result B :=
  match r with
  | Ok a => f a
  | Throw e => Throw e
  | Diverges => Diverges
  end.

Notation "x <- c ;; k" := (bind c (fun x => k))
  (at level 61, c at next level, right associativity).

(** ** Services of the JavaScript runtime that stay abstract *)

(** IEEE-754 doubles with the operations the pipeline uses. *)
Class FloatOps := {
  float : Type;
  fofQ : Q -> float;          (* a numeric literal *)
  fneginf : float;            (* -Infinity *)
  fnan : float;               (* NaN, the number read from [undefined] *)
  fadd : float -> float -> float;
  fsub : float -> float -> float;
  fdiv : float -> float -> float;
  fgt : float -> float -> bool;
  fge : float -> float -> bool;
  flt : float -> float -> bool;
  feq : float -> float -> bool;   (* === on numbers *)
  sigmoid : float -> float        (* 1 / (1 + Math.exp(-x)) *)
}.

(** The Unicode tables of the runtime. *)
Class Unicode := {
  normalizeNFKC : jsstring -> jsstring;  (* s.normalize('NFKC') *)
  upperUnit : N -> N;           (* upper case of one code unit, when single *)
  toLowerCase : jsstring -> jsstring     (* s.toLowerCase() *)
}.

(** ** Regular expressions *)

Module Regex.

Inductive regex : Type :=
| Eps
| Chr (p : N -> bool)                         (* a class or a literal *)
| Seq (a b : regex)
| Alt (a b : regex)
| Rep (lo : nat) (hi : option nat) (a : regex) (* greedy a{lo,hi} *)
| WordB                                       (* \b *)
| Group (a : regex).                          (* capturing group 1 *)

(** The matcher state: the code units before the current position (nearest
    first), those after it, and the extent of capture group 1. *)
Record mstate := MState {
  before : list N;
  after : list N;
  cap1 : option (nat * nat)
}.

Definition pos (st : mstate) : nat := length (before st).

Definition headIsWord (l : list N) : bool :=
  match l with
  | c :: _ => isWordChar c
  | [] => false
  end.

Definition atBoundary (st : mstate) : bool :=
  xorb (headIsWord (before st)) (headIsWord (after st)).

Definition belowMax (hi : option nat) (n : nat) : bool :=
  match hi with
  | None => true
  | Some h => (n <? h)%nat
  end.

(** Backtracking matcher in continuation-passing style: [m r st k] is the
    first way, in priority order, of matching [r] at [st] such that the
    continuation [k] accepts what follows. An optional iteration of a
    quantifier that consumes nothing is rejected, as the language requires. *)
Fixpoint m (r : regex) (st : mstate) (k : mstate -> option mstate)
  {struct r} : option mstate :=
  match r with
  | Eps => k st
  | Chr p =>
      match after st with
      | c :: rest =>
          if p c then k (MState (c :: before st) rest (cap1 st)) else None
      | [] => None
      end
  | Seq a b => m a st (fun st' => m b st' k)
  | Alt a b =>
      match m a st k with
      | Some e => Some e
      | None => m b st k
      end
  | Rep lo hi a =>
      (fix rep (fuel n : nat) (st : mstate) {struct fuel} : option mstate :=
         match fuel with
         | O => None
         | S fuel' =>
             if (n <? lo)%nat then
               m a st (fun st' => rep fuel' (S n) st')
             else if belowMax hi n then
               match m a st (fun st' =>
                               if (pos st <? pos st')%nat
                               then rep fuel' (S n) st' else None) with
               | Some e => Some e
               | None => k st
               end
             else k st
         end) (S (lo + length (after st))) O st
  | WordB => if atBoundary st then k st else None
  | Group a =>
      m a st (fun st' => k (MState (before st') (after st')
                                   (Some (pos st, pos st'))))
  end.

(** One match: its extent and the extent of the capture group. *)
Record rmatch := RMatch {
  mstart : nat;
  mend : nat;
  mcap : option (nat * nat)
}.

(** [regex.exec] from the position between [bef] and [aft]: the first
    position at or after it where the pattern matches. *)
Fixpoint execFrom (r : regex) (bef aft : list N) : option (nat * mstate) :=
  match m r (MState bef aft None) Some with
  | Some e => Some (length bef, e)
  | None =>
      match aft with
      | [] => None
      | c :: aft' => execFrom r (c :: bef) aft'
      end
  end.

(** [while ((match = regex.exec(text)) !== null) ...] for a global regex:
    every call resumes at [lastIndex], the end of the previous match. After
    an empty match [lastIndex] does not move and the loop never ends. *)
Fixpoint execLoop (fuel : nat) (r : regex) (bef aft : list N)
  : result (list rmatch) :=
  match fuel with
  | O => Diverges
  | S fuel' =>
      match execFrom r bef aft with
      | None => Ok []
      | Some (start, e) =>
          if (start <? pos e)%nat then
            rest <- execLoop fuel' r (before e) (after e) ;;
            Ok (RMatch start (pos e) (cap1 e) :: rest)
          else Diverges
      end
  end.

Definition execAll (r : regex) (text : jsstring) : result (list rmatch) :=
  execLoop (S (length text)) r [] text.

(** The replacement text of [String.prototype.replace] for a pattern
    without capture groups: [$$], [$&], [$`] and [$'] are expanded, every
    other code unit is copied. *)
Fixpoint getSubstitution (matched pre post repl : jsstring) : jsstring :=
  match repl with
  | [] => []
  | c :: rest =>
      if (c =? 36)%N then
        match rest with
        | d :: rest' =>
            if (d =? 36)%N then 36%N :: getSubstitution matched pre post rest'
            else if (d =? 38)%N then
              matched ++ getSubstitution matched pre post rest'
            else if (d =? 96)%N then
              pre ++ getSubstitution matched pre post rest'
            else if (d =? 39)%N then
              post ++ getSubstitution matched pre post rest'
            else c :: getSubstitution matched pre post rest
        | [] => [c]
        end
      else c :: getSubstitution matched pre post rest
  end.

(** [text.replace(regex, repl)] for a global regex: the matches are found
    from left to right (after an empty match the search resumes one code
    unit further), each is replaced by its substitution. [bef] and [aft]
    split the text at the position where the search resumes. *)
Fixpoint replaceLoop (fuel : nat) (r : regex) (repl : jsstring)
  (bef aft : list N) : jsstring :=
  match fuel with
  | O => aft
  | S fuel' =>
      match execFrom r bef aft with
      | None => aft
      | Some (start, e) =>
          let skipped := firstn (start - length bef) aft in
          let matched := rev (firstn (pos e - start) (before e)) in
          let pre := rev (skipn (pos e - start) (before e)) in
          let sub := getSubstitution matched pre (after e) repl in
          if (start <? pos e)%nat then
            skipped ++ sub ++ replaceLoop fuel' r repl (before e) (after e)
          else
            match after e with
            | [] => skipped ++ sub
            | c :: aft' =>
                skipped ++ sub ++ c ::
                  replaceLoop fuel' r repl (c :: before e) aft'
            end
      end
  end.

Definition replaceAll (r : regex) (text repl : jsstring) : jsstring :=
  replaceLoop (S (length text)) r repl [] text.

(** [text.match(regex)] for a global regex: the search starts at 0 and
    collects every match; after an empty match it resumes one code unit
    further. *)
Fixpoint matchLoop (fuel : nat) (r : regex) (bef aft : list N)
  : list rmatch :=
  match fuel with
  | O => []
  | S fuel' =>
      match execFrom r bef aft with
      | None => []
      | Some (start, e) =>
          let mt := RMatch start (pos e) (cap1 e) in
          if (start <? pos e)%nat then
            mt :: matchLoop fuel' r (before e) (after e)
          else
            match after e with
            | [] => [mt]
            | c :: aft' => mt :: matchLoop fuel' r (c :: before e) aft'
            end
      end
  end.

(** The array of the matched strings, [None] ([null]) without a match. *)
Definition matchGlobal (r : regex) (text : jsstring)
  : option (list jsstring) :=
  match matchLoop (S (length text)) r [] text with
  | [] => None
  | ms => Some (map (fun mt => firstn (mend mt - mstart mt)
                                      (skipn (mstart mt) text)) ms)
  end.

(** *** Pattern combinators *)

Definition plus (a : regex) : regex := Rep 1 None a.
Definition star (a : regex) : regex := Rep 0 None a.
Definition opt (a : regex) : regex := Rep 0 (Some 1%nat) a.
Definition rep (lo hi : nat) (a : regex) : regex := Rep lo (Some hi) a.

Fixpoint seqs (l : list regex) : regex :=
  match l with
  | [] => Eps
  | [a] => a
  | a :: l' => Seq a (seqs l')
  end.

Fixpoint alts (l : list regex) : regex :=
  match l with
  | [] => Chr (fun _ => false)
  | [a] => a
  | a :: l' => Alt a (alts l')
  end.

Definition chr (c : N) : regex := Chr (N.eqb c).

(** A literal, one code unit after the other. *)
Definition lits (s : jsstring) : regex := seqs (map chr s).

Definition asciiUpper (c : N) : N := if isLower c then (c - 32)%N else c.

(** Canonicalize of the [i] flag (without [u]): the upper case of the code
    unit, unless that would turn a non-ASCII unit into an ASCII one. *)
Definition canonicalize `{Unicode} (c : N) : N :=
  if (c <? 128)%N then asciiUpper c
  else let cu := upperUnit c in if (cu <? 128)%N then c else cu.

Definition chrI `{Unicode} (c : N) : regex :=
  Chr (fun d => N.eqb (canonicalize d) (canonicalize c)).

(** A literal under the [i] flag. *)
Definition litsI `{Unicode} (s : jsstring) : regex := seqs (map chrI s).

(** An ASCII class under the [i] flag: only ASCII letters fold onto it. *)
Definition classI (p : N -> bool) : N -> bool :=
  fun c => p c || (if isLower c then p (c - 32)%N else false)
           || (if isUpper c then p (c + 32)%N else false).

End Regex.

(** ** Maps of the runtime ([Map], plain objects) as insertion-ordered
    association lists *)

Section AssocMap.
Context {K V : Type} (keq : K -> K -> bool).

Fixpoint mapGet (mp : list (K * V)) (k : K) : option V :=
  match mp with
  | [] => None
  | (k', v) :: mp' => if keq k k' then Some v else mapGet mp' k
  end.

Definition mapHas (mp : list (K * V)) (k : K) : bool :=
  match mapGet mp k with
  | Some _ => true
  | None => false
  end.

(** [map.set(k, v)]: an existing key keeps its place. *)
Fixpoint mapSet (mp : list (K * V)) (k : K) (v : V) : list (K * V) :=
  match mp with
  | [] => [(k, v)]
  | (k', v') :: mp' =>
      if keq k k' then (k', v) :: mp' else (k', v') :: mapSet mp' k v
  end.

End AssocMap.

(** [a ?? b] *)
Definition orElse {A} (a : option A) (b : A) : A :=
  match a with
  | Some x => x
  | None => b
  end.

Definition orElseOpt {A} (a b : option A) : option A :=
  match a with
  | Some x => Some x
  | None => b
  end.

(** ** The tokenizer (services/gliner/tokenizer.ts) *)

Module Tokenizer.

(** *** tokenizer.json *)

Record AddedToken := { content : jsstring; id : Z }.

Inductive MergeJson :=
| MergeString (s : jsstring)
| MergeArray (parts : list jsstring).

Record PreTokenizerEntry := {
  pt_type : option jsstring;
  pt_add_prefix_space : option bool
}.

Record PreTokenizerJson := {
  pre_type : option jsstring;
  pre_add_prefix_space : option bool;
  pretokenizers : option (list PreTokenizerEntry)
}.

(** [model.vocab] is an array of [piece, score] pairs for a Unigram model
    and an object from token to id otherwise. *)
Inductive ModelJson `{FloatOps} :=
| UnigramModel (vocab : option (list (jsstring * float)))
               (unk_id : option Z)
| OtherModel (vocab : option (list (jsstring * Z)))
             (merges : option (list MergeJson))
             (byte_fallback : bool).

Record TokenizerJson `{FloatOps} := {
  model : option ModelJson;
  added_tokens : option (list AddedToken);
  pre_tokenizer : option PreTokenizerJson
}.

(** *** UTF-8, as [TextEncoder.encode] produces it *)

Definition isHighSurrogate (c : N) : bool := ((55296 <=? c) && (c <=? 56319))%N.
Definition isLowSurrogate (c : N) : bool := ((56320 <=? c) && (c <=? 57343))%N.

Definition utf8OfCodePoint (cp : N) : list N :=
  (if cp <? 128 then [cp]
   else if cp <? 2048 then [192 + (cp / 64) mod 32; 128 + cp mod 64]
   else if cp <? 65536 then
     [224 + (cp / 4096) mod 16; 128 + (cp / 64) mod 64; 128 + cp mod 64]
   else [240 + (cp / 262144) mod 8; 128 + (cp / 4096) mod 64;
         128 + (cp / 64) mod 64; 128 + cp mod 64])%N.

(** A lone surrogate is encoded as U+FFFD. *)
Fixpoint utf8 (s : jsstring) : list N :=
  match s with
  | [] => []
  | c :: rest =>
      if isHighSurrogate c then
        match rest with
        | d :: rest' =>
            if isLowSurrogate d then
              utf8OfCodePoint (65536 + (c - 55296) * 1024 + (d - 56320))%N
                ++ utf8 rest'
            else utf8OfCodePoint 65533 ++ utf8 rest
        | [] => utf8OfCodePoint 65533
        end
      else if isLowSurrogate c then utf8OfCodePoint 65533 ++ utf8 rest
      else utf8OfCodePoint c ++ utf8 rest
  end.

(** [String.fromCodePoint(cp)] *)
Definition fromCodePoint (cp : N) : jsstring :=
  (if cp <? 65536 then [cp]
   else [55296 + (cp - 65536) / 1024; 56320 + (cp - 65536) mod 1024])%N.

(** *** The Unigram (SentencePiece) tokenizer *)

Module Unigram.
Section WithRuntime.
Context `{FloatOps} `{Unicode}.

Record t := {
  vocab : list (jsstring * Z);
  scores : list (jsstring * float);
  addedTokens : list (jsstring * Z);
  byteTokens : list (N * Z);
  unkTokenId : Z;
  clsTokenId : Z;
  sepTokenId : Z;
  maxPieceLength : Z
}.

Definition hexValue (c : N) : option N :=
  (if isDigit c then Some (c - 48)
   else if (65 <=? c) && (c <=? 70) then Some (c - 55)
   else if (97 <=? c) && (c <=? 102) then Some (c - 87)
   else None)%N.

(** [/^<0x([0-9A-Fa-f]{2})>$/.exec(piece)] followed by
    [Number.parseInt(byteMatch[1], 16)]. *)
Definition byteMatch (piece : jsstring) : option N :=
  match piece with
  | [60; 48; 120; h; l; 62]%N =>
      match hexValue h, hexValue l with
      | Some a, Some b => Some (16 * a + b)%N
      | _, _ => None
      end
  | _ => None
  end.

(** One turn of the constructor's loop over [model.vocab]. *)
Definition addPiece (tk : t) (idx : Z) (entry : jsstring * float) : t :=
  let (piece, score) := entry in
  let tk1 :=
    if mapHas eqs (vocab tk) piece then tk
    else {| vocab := mapSet eqs (vocab tk) piece idx;
            scores := mapSet eqs (scores tk) piece score;
            addedTokens := addedTokens tk;
            byteTokens := byteTokens tk;
            unkTokenId := unkTokenId tk;
            clsTokenId := clsTokenId tk;
            sepTokenId := sepTokenId tk;
            maxPieceLength :=
              if (maxPieceLength tk <? jslength piece)%Z
              then jslength piece else maxPieceLength tk |} in
  match byteMatch piece with
  | Some b =>
      {| vocab := vocab tk1; scores := scores tk1;
         addedTokens := addedTokens tk1;
         byteTokens := mapSet N.eqb (byteTokens tk1) b idx;
         unkTokenId := unkTokenId tk1; clsTokenId := clsTokenId tk1;
         sepTokenId := sepTokenId tk1;
         maxPieceLength := maxPieceLength tk1 |}
  | None => tk1
  end.

Fixpoint addPieces (tk : t) (idx : Z) (l : list (jsstring * float)) : t :=
  match l with
  | [] => tk
  | e :: l' => addPieces (addPiece tk idx e) (idx + 1)%Z l'
  end.

Definition addAdded (mp : list (jsstring * Z)) (l : list AddedToken)
  : list (jsstring * Z) :=
  fold_left (fun acc at_ => mapSet eqs acc (content at_) (id at_)) l mp.

(** [new UnigramTokenizer(tokenizerJson)] *)
Definition construct (vocabJson : option (list (jsstring * float)))
  (unk_id : option Z) (added : option (list AddedToken)) : t :=
  let empty := {| vocab := []; scores := []; addedTokens := [];
                  byteTokens := []; unkTokenId := 0; clsTokenId := 0;
                  sepTokenId := 0; maxPieceLength := 0 |} in
  let tk := match vocabJson with
            | Some l => addPieces empty 0 l
            | None => empty
            end in
  let added := match added with
               | Some l => addAdded [] l
               | None => []
               end in
  let get := mapGet eqs in
  {| vocab := vocab tk; scores := scores tk;
     addedTokens := added;
     byteTokens := byteTokens tk;
     unkTokenId :=
       orElse (orElseOpt unk_id
                 (orElseOpt (get added (str "<unk>"))
                            (get (vocab tk) (str "<unk>")))) 0%Z;
     clsTokenId :=
       orElse (orElseOpt (get added (str "[CLS]"))
                 (orElseOpt (get added (str "<s>"))
                            (get (vocab tk) (str "[CLS]")))) 1%Z;
     sepTokenId :=
       orElse (orElseOpt (get added (str "[SEP]"))
                 (orElseOpt (get added (str "</s>"))
                            (get (vocab tk) (str "[SEP]")))) 2%Z;
     maxPieceLength := maxPieceLength tk |}.

Definition getTokenId (tk : t) (token : jsstring) : Z :=
  orElse (orElseOpt (mapGet eqs (addedTokens tk) token)
                    (mapGet eqs (vocab tk) token)) (unkTokenId tk).

(** An entry of the Viterbi table. *)
Record entry := { score : float; prev : Z; eid : option Z }.

(** The table is a JavaScript array: a slot may be empty, and reading a
    property of an empty slot throws. *)
Definition table := list (option entry).

Definition tget (best : table) (i : Z) : result entry :=
  if (i <? 0)%Z then Throw "TypeError: undefined entry"
  else match nth_error best (Z.to_nat i) with
       | Some (Some e) => Ok e
       | _ => Throw "TypeError: undefined entry"
       end.

Fixpoint tsetNat (best : table) (i : nat) (e : entry) : table :=
  match i, best with
  | O, [] => [Some e]
  | O, _ :: rest => Some e :: rest
  | S i', [] => None :: tsetNat [] i' e
  | S i', x :: rest => x :: tsetNat rest i' e
  end.

(** [best[i] = e]; the indices written by the source are never negative. *)
Definition tset (best : table) (i : Z) (e : entry) : table :=
  if (i <? 0)%Z then best else tsetNat best (Z.to_nat i) e.

(** The loop [for (let len = 1; len <= maxLen; len++)] at position [i];
    [todo] counts the turns that remain. *)
Fixpoint pieceLoop (tk : t) (text : jsstring) (i : Z) (maxLen : Z)
  (todo : nat) (len : Z) (best : table) : result table :=
  match todo with
  | O => Ok best
  | S todo' =>
      if (len <=? maxLen)%Z then
        let piece := slice text i (i + len) in
        match mapGet eqs (scores tk) piece with
        | Some sc =>
            bi <- tget best i ;;
            let newScore := fadd (score bi) sc in
            bn <- tget best (i + len) ;;
            let best' :=
              if fgt newScore (score bn) then
                tset best (i + len)
                  {| score := newScore; prev := i;
                     eid := mapGet eqs (vocab tk) piece |}
              else best in
            pieceLoop tk text i maxLen todo' (len + 1) best'
        | None => pieceLoop tk text i maxLen todo' (len + 1) best
        end
      else Ok best
  end.

Definition allDefined {A} (l : list (option A)) : bool :=
  forallb (fun o => match o with Some _ => true | None => false end) l.

(** The body of the loop over the positions [i]. *)
Definition viterbiStep (tk : t) (text : jsstring) (n : Z) (i : Z)
  (best : table) : result table :=
  bi <- tget best i ;;
  if feq (score bi) fneginf && (0 <? i)%Z then Ok best
  else
    let maxLen := Z.min (maxPieceLength tk) (n - i) in
    best1 <- pieceLoop tk text i maxLen (Z.to_nat maxLen) 1 best ;;
    bn <- tget best1 (i + 1) ;;
    if feq (score bn) fneginf then
      let char := slice text i (i + 1) in
      let bytes := utf8 char in
      let byteIds := map (mapGet N.eqb (byteTokens tk)) bytes in
      if allDefined byteIds then
        let charLen := jslength char in
        bi1 <- tget best1 i ;;
        let fallbackScore := fsub (score bi1) (fofQ 100) in
        bc <- tget best1 (i + charLen) ;;
        if fgt fallbackScore (score bc) then
          Ok (tset best1 (i + charLen)
                {| score := fallbackScore; prev := i; eid := Some (-2)%Z |})
        else Ok best1
      else
        bi1 <- tget best1 i ;;
        Ok (tset best1 (i + 1)
              {| score := fsub (score bi1) (fofQ 200); prev := i;
                 eid := Some (unkTokenId tk) |})
    else Ok best1.

Fixpoint viterbiLoop (tk : t) (text : jsstring) (n : Z) (todo : nat)
  (i : Z) (best : table) : result table :=
  match todo with
  | O => Ok best
  | S todo' =>
      best' <- viterbiStep tk text n i best ;;
      viterbiLoop tk text n todo' (i + 1) best'
  end.

(** The backtracking loop [while (pos > 0)]. A token id is [None] when the
    source would store [undefined]. *)
Fixpoint backtrack (fuel : nat) (tk : t) (text : jsstring) (best : table)
  (pos : Z) (tokens : list (option Z)) : result (list (option Z)) :=
  if (0 <? pos)%Z then
    match fuel with
    | O => Diverges
    | S fuel' =>
        e <- tget best pos ;;
        let tokens' :=
          match eid e with
          | Some (-2)%Z =>
              let bytes := utf8 (slice text (prev e) pos) in
              fold_left
                (fun acc b =>
                   Some (orElse (mapGet N.eqb (byteTokens tk) b)
                                (unkTokenId tk)) :: acc)
                bytes tokens
          | other => other :: tokens
          end in
        backtrack fuel' tk text best (prev e) tokens'
    end
  else Ok tokens.

Definition initialTable (tk : t) (n : nat) : table :=
  Some {| score := fofQ 0; prev := 0; eid := Some (-1)%Z |}
  :: repeat (Some {| score := fneginf; prev := 0;
                     eid := Some (unkTokenId tk) |}) n.

Definition viterbi (tk : t) (text : jsstring) : result (list (option Z)) :=
  let n := jslength text in
  if (n =? 0)%Z then Ok []
  else
    best <- viterbiLoop tk text n (length text) 0
              (initialTable tk (length text)) ;;
    backtrack (length text) tk text best n [].

Definition replaceSpaces (s : jsstring) : jsstring :=
  map (fun c => if (c =? 32)%N then 9601%N else c) s.

Definition encodeWord (tk : t) (word : jsstring)
  : result (list (option Z)) :=
  match mapGet eqs (addedTokens tk) word with
  | Some i => Ok [Some i]
  | None =>
      let normalized := normalizeNFKC word in
      viterbi tk (9601%N :: replaceSpaces normalized)
  end.

End WithRuntime.
End Unigram.

(** *** The GPT-2 byte encoder *)

Definition rangeN (lo hi : N) : list N :=
  map (fun i => (lo + N.of_nat i)%N) (seq 0 (N.to_nat (hi + 1 - lo))).

Definition memN (x : N) (l : list N) : bool := existsb (N.eqb x) l.

(** The second loop of [buildByteEncoder]: the bytes that are not printable
    are sent to the code points from 256 on. *)
Fixpoint fillByteEncoder (todo : list N) (bs cs : list N) (n : N)
  : list N * list N :=
  match todo with
  | [] => (bs, cs)
  | b :: todo' =>
      if memN b bs then fillByteEncoder todo' bs cs n
      else fillByteEncoder todo' (bs ++ [b]) (cs ++ [(256 + n)%N]) (n + 1)%N
  end.

Definition buildByteEncoder : list (N * jsstring) :=
  let bs := rangeN 33 126 ++ rangeN 161 172 ++ rangeN 174 255 in
  let (bs', cs') := fillByteEncoder (rangeN 0 255) bs bs 0 in
  fold_left (fun enc bc => mapSet N.eqb enc (fst bc) (fromCodePoint (snd bc)))
            (combine bs' cs') [].

(** *** The BPE tokenizer *)

Module BPE.

Record t := {
  vocab : list (jsstring * Z);
  mergeRanks : list (jsstring * Z);
  addedTokens : list (jsstring * Z);
  byteEncoder : list (N * jsstring);
  unkTokenId : Z;
  clsTokenId : Z;
  sepTokenId : Z;
  isByteLevelBPE : bool;
  addPrefixSpace : bool
}.

Definition setAll (mp : list (jsstring * Z)) (l : list (jsstring * Z))
  : list (jsstring * Z) :=
  fold_left (fun acc kv => mapSet eqs acc (fst kv) (snd kv)) l mp.

Fixpoint joinWith (sep : jsstring) (l : list jsstring) : jsstring :=
  match l with
  | [] => []
  | [w] => w
  | w :: l' => w ++ sep ++ joinWith sep l'
  end.

Fixpoint addMerges (mp : list (jsstring * Z)) (i : Z) (l : list MergeJson)
  : list (jsstring * Z) :=
  match l with
  | [] => mp
  | MergeString s :: l' => addMerges (mapSet eqs mp s i) (i + 1)%Z l'
  | MergeArray parts :: l' =>
      addMerges (mapSet eqs mp (joinWith [32%N] parts) i) (i + 1)%Z l'
  end.

Definition isByteLevelType (o : option jsstring) : bool :=
  match o with
  | Some s => eqs s (str "ByteLevel")
  | None => false
  end.

Definition isTrue (o : option bool) : bool :=
  match o with
  | Some b => b
  | None => false
  end.

(** [new BPETokenizer(tokenizerJson)] *)
Definition construct (vocabJson : option (list (jsstring * Z)))
  (merges : option (list MergeJson)) (byte_fallback : bool)
  (added : option (list AddedToken)) (pre : option PreTokenizerJson) : t :=
  let vocab0 := match vocabJson with
                | Some l => setAll [] l
                | None => []
                end in
  let ranks := match merges with
               | Some l => addMerges [] 0 l
               | None => []
               end in
  let addedList := match added with
                   | Some l => map (fun a => (content a, id a)) l
                   | None => []
                   end in
  let addedMap := setAll [] addedList in
  let vocab1 := setAll vocab0 addedList in
  let subs := match pre with
              | Some p => orElse (pretokenizers p) []
              | None => []
              end in
  let get := mapGet eqs vocab1 in
  {| vocab := vocab1;
     mergeRanks := ranks;
     addedTokens := addedMap;
     byteEncoder := buildByteEncoder;
     unkTokenId := orElse (orElseOpt (get (str "[UNK]")) (get (str "<unk>"))) 0%Z;
     clsTokenId := orElse (orElseOpt (get (str "[CLS]")) (get (str "<s>"))) 1%Z;
     sepTokenId := orElse (orElseOpt (get (str "[SEP]")) (get (str "</s>"))) 2%Z;
     isByteLevelBPE :=
       match pre with
       | Some p => isByteLevelType (pre_type p)
       | None => false
       end
       || existsb (fun p => isByteLevelType (pt_type p)) subs
       || byte_fallback;
     addPrefixSpace :=
       match pre with
       | Some p => isTrue (pre_add_prefix_space p)
       | None => false
       end
       || existsb (fun p => isByteLevelType (pt_type p)
                            && isTrue (pt_add_prefix_space p)) subs |}.

Definition getTokenId (tk : t) (token : jsstring) : Z :=
  orElse (orElseOpt (mapGet eqs (addedTokens tk) token)
                    (mapGet eqs (vocab tk) token)) (unkTokenId tk).

(** [findBestMergePair]: the adjacent pair of lowest rank; [best] is the
    pair and the rank found so far ([None] for the rank Infinity). *)
Fixpoint findBestFrom (tk : t) (symbols : list jsstring)
  (best : option (jsstring * Z)) : option (jsstring * Z) :=
  match symbols with
  | a :: ((b :: _) as rest) =>
      let pair := a ++ 32%N :: b in
      let best' :=
        match mapGet eqs (mergeRanks tk) pair with
        | Some rank =>
            match best with
            | Some (_, bestRank) =>
                if (rank <? bestRank)%Z then Some (pair, rank) else best
            | None => Some (pair, rank)
            end
        | None => best
        end in
      findBestFrom tk rest best'
  | _ => best
  end.

Definition findBestMergePair (tk : t) (symbols : list jsstring)
  : option jsstring :=
  option_map fst (findBestFrom tk symbols None).

(** [s.split(' ')] *)
Fixpoint splitSpaceAux (s cur : jsstring) : list jsstring :=
  match s with
  | [] => [rev cur]
  | c :: s' =>
      if (c =? 32)%N then rev cur :: splitSpaceAux s' []
      else splitSpaceAux s' (c :: cur)
  end.

Definition splitSpace (s : jsstring) : list jsstring := splitSpaceAux s [].

Definition eqOpt (x : jsstring) (o : option jsstring) : bool :=
  match o with
  | Some y => eqs x y
  | None => false
  end.

(** The inner loop of [applyBPE]: one pass that merges the occurrences of
    the pair [(a, b)]; [b] is [None] when the destructuring yields
    [undefined]. *)
Fixpoint mergePass (a : jsstring) (b : option jsstring) (merged : jsstring)
  (symbols : list jsstring) : list jsstring :=
  match symbols with
  | [] => []
  | x :: rest =>
      match rest with
      | y :: rest' =>
          if eqs x a && eqOpt y b then merged :: mergePass a b merged rest'
          else x :: mergePass a b merged rest
      | [] => [x]
      end
  end.

(** The loop [while (bestPair !== null)] of [applyBPE]. *)
Fixpoint bpeLoop (fuel : nat) (tk : t) (symbols : list jsstring)
  (bestPair : option jsstring) : result (list jsstring) :=
  match bestPair with
  | None => Ok symbols
  | Some best =>
      match fuel with
      | O => Diverges
      | S fuel' =>
          let parts := splitSpace best in
          let a := hd [] parts in
          let b := nth_error parts 1 in
          let merged := a ++ orElse b (str "undefined") in
          let symbols' := mergePass a b merged symbols in
          let bestPair' := findBestMergePair tk symbols' in
          if (length symbols' <=? 1)%nat then Ok symbols'
          else bpeLoop fuel' tk symbols' bestPair'
      end
  end.

Definition applyBPE (tk : t) (symbols : list jsstring)
  : result (list jsstring) :=
  if (length symbols <=? 1)%nat then Ok symbols
  else bpeLoop (length symbols) tk symbols (findBestMergePair tk symbols).

Definition idOf (tk : t) (symbol : jsstring) : Z :=
  orElse (mapGet eqs (vocab tk) symbol) (unkTokenId tk).

Definition encodeByteLevelBPE (tk : t) (word : jsstring)
  : result (list Z) :=
  let toEncode := if addPrefixSpace tk then 32%N :: word else word in
  let bytes := utf8 toEncode in
  let symbols :=
    map (fun b => orElse (mapGet N.eqb (byteEncoder tk) b) (fromCodePoint b))
        bytes in
  match symbols with
  | [] => Ok [unkTokenId tk]
  | [s] => Ok [idOf tk s]
  | _ =>
      merged <- applyBPE tk symbols ;;
      Ok (map (idOf tk) merged)
  end.

(** The inner loop [while (start < end)] of the WordPiece fallback: the
    longest piece of the vocabulary that starts at [start], with its end. *)
Fixpoint longestPiece (tk : t) (word : jsstring) (start : Z) (todo : nat)
  (end_ : Z) : option (Z * Z) :=
  match todo with
  | O => None
  | S todo' =>
      if (start <? end_)%Z then
        let piece := slice word start end_ in
        let substr := if (0 <? start)%Z then str "##" ++ piece else piece in
        match mapGet eqs (vocab tk) substr with
        | Some i => Some (i, end_)
        | None => longestPiece tk word start todo' (end_ - 1)
        end
      else None
  end.

(** The outer loop [while (start < word.length)]. *)
Fixpoint wordPieceLoop (fuel : nat) (tk : t) (word : jsstring) (start : Z)
  (tokens : list Z) : result (list Z) :=
  if (start <? jslength word)%Z then
    match fuel with
    | O => Diverges
    | S fuel' =>
        match longestPiece tk word start (length word) (jslength word) with
        | Some (i, end_) => wordPieceLoop fuel' tk word end_ (tokens ++ [i])
        | None =>
            wordPieceLoop fuel' tk word (start + 1) (tokens ++ [unkTokenId tk])
        end
    end
  else Ok tokens.

Definition encodeWordPieceFallback (tk : t) (word : jsstring)
  : result (list Z) :=
  match mapGet eqs (vocab tk) word with
  | Some i => Ok [i]
  | None => wordPieceLoop (length word) tk word 0 []
  end.

Definition encodeWord (tk : t) (word : jsstring) : result (list Z) :=
  match mapGet eqs (addedTokens tk) word with
  | Some i => Ok [i]
  | None =>
      if isByteLevelBPE tk then encodeByteLevelBPE tk word
      else encodeWordPieceFallback tk word
  end.

End BPE.

(** *** The module state and its interface *)

Section WithRuntime.
Context `{FloatOps} `{Unicode}.

Inductive TokenizerBase :=
| UnigramTokenizer (tk : Unigram.t)
| BPETokenizer (tk : BPE.t).

(** The module variable [_tokenizer]. *)
Definition state := option TokenizerBase.

Definition notInitialized : string := "Tokenizer not initialized".

(** [initTokenizer(tokenizerJson)]: the new value of [_tokenizer]. Both
    constructors read [model.vocab] and throw when [model] is missing. *)
Definition initTokenizer (tokenizerJson : TokenizerJson) : result state :=
  match model tokenizerJson with
  | Some (UnigramModel vocabJson unk_id) =>
      Ok (Some (UnigramTokenizer
                  (Unigram.construct vocabJson unk_id
                                     (added_tokens tokenizerJson))))
  | Some (OtherModel vocabJson merges byte_fallback) =>
      Ok (Some (BPETokenizer
                  (BPE.construct vocabJson merges byte_fallback
                                 (added_tokens tokenizerJson)
                                 (pre_tokenizer tokenizerJson))))
  | None => Throw "TypeError: model is undefined"
  end.

Definition encodeWord (st : state) (word : jsstring)
  : result (list (option Z)) :=
  match st with
  | None => Throw notInitialized
  | Some (UnigramTokenizer tk) => Unigram.encodeWord tk word
  | Some (BPETokenizer tk) =>
      ids <- BPE.encodeWord tk word ;; Ok (map Some ids)
  end.

Definition getSpecialTokenId (st : state) (token : jsstring) : result Z :=
  match st with
  | None => Throw notInitialized
  | Some (UnigramTokenizer tk) => Ok (Unigram.getTokenId tk token)
  | Some (BPETokenizer tk) => Ok (BPE.getTokenId tk token)
  end.

Definition getClsTokenId (st : state) : result Z :=
  match st with
  | None => Throw notInitialized
  | Some (UnigramTokenizer tk) => Ok (Unigram.clsTokenId tk)
  | Some (BPETokenizer tk) => Ok (BPE.clsTokenId tk)
  end.

Definition getSepTokenId (st : state) : result Z :=
  match st with
  | None => Throw notInitialized
  | Some (UnigramTokenizer tk) => Ok (Unigram.sepTokenId tk)
  | Some (BPETokenizer tk) => Ok (BPE.sepTokenId tk)
  end.

End WithRuntime.

End Tokenizer.

(** ** Generic array helpers *)

(** [a.sort(cmp)]: the sort of the runtime is stable; [after x y] tells that
    the comparator is positive on [(x, y)], so that [y] goes first. *)
Section Sort.
Context {A : Type} (after : A -> A -> bool).

Fixpoint insertBy (x : A) (l : list A) : list A :=
  match l with
  | [] => [x]
  | y :: l' => if after x y then y :: insertBy x l' else x :: l
  end.

Definition sortBy (l : list A) : list A := fold_right insertBy [] l.

End Sort.

(** Reading [a[i]] when the code goes on to use the value as an object:
    [undefined] throws. *)
Definition nthR {A} (l : list A) (i : Z) : result A :=
  if (i <? 0)%Z then Throw "TypeError: undefined"
  else match nth_error l (Z.to_nat i) with
       | Some x => Ok x
       | None => Throw "TypeError: undefined"
       end.

(** Reading [a[i]] as a value: [None] is [undefined]. *)
Definition nthZ {A} (l : list A) (i : Z) : option A :=
  if (i <? 0)%Z then None else nth_error l (Z.to_nat i).

(** The integers [0, 1, ..., n - 1] of a counting loop. *)
Definition upto (n : Z) : list Z := map Z.of_nat (seq 0 (Z.to_nat n)).

Fixpoint mapR {A B} (f : A -> result B) (l : list A) : result (list B) :=
  match l with
  | [] => Ok []
  | x :: l' => y <- f x ;; ys <- mapR f l' ;; Ok (y :: ys)
  end.

(** ** The batch processor (services/gliner/processor.ts) *)

Module Processor.
Import Regex.

Section WithRuntime.
Context `{FloatOps} `{Unicode}.

Record ProcessorOutput := {
  inputIds : list (list (option Z));
  attentionMask : list (list Z);
  wordsMask : list (list Z);
  textLengths : list (list Z);
  batchTokens : list (list jsstring);
  batchWordsStartIdx : list (list Z);
  batchWordsEndIdx : list (list Z);
  spanIdx : option (list (list (Z * Z)));
  spanMask : option (list (list Z))
}.

(** [/\w+(?:[-_]\w+)*|\S/g] *)
Definition wordRegex : regex :=
  Alt (Seq (plus (Chr isWordChar))
           (star (Seq (Chr (fun c => (c =? 45)%N || (c =? 95)%N))
                      (plus (Chr isWordChar)))))
      (Chr (fun c => negb (isSpace c))).

Definition matchText (text : jsstring) (mt : rmatch) : jsstring :=
  firstn (mend mt - mstart mt) (skipn (mstart mt) text).

(** Split text into words with character offsets. *)
Definition splitWords (text : jsstring) : result (list (jsstring * Z * Z)) :=
  ms <- execAll wordRegex text ;;
  Ok (map (fun mt => (matchText text mt, Z.of_nat (mstart mt),
                      Z.of_nat (mend mt))) ms).

Record TokenSequence := {
  s_inputIds : list (option Z);
  s_attentionMask : list Z;
  s_wordsMask : list Z;
  s_words : list (jsstring * Z * Z);
  s_wordsStartIdx : list Z;
  s_wordsEndIdx : list Z;
  s_tokens : list jsstring
}.

(** The entity prompt: for every label the marker id, then the ids of the
    words of the label. *)
Fixpoint promptIds (tok : Tokenizer.state) (entTokenId : Z)
  (entities : list jsstring) : result (list (option Z)) :=
  match entities with
  | [] => Ok []
  | entity :: rest =>
      ids <- mapR (Tokenizer.encodeWord tok) (splitWs entity) ;;
      more <- promptIds tok entTokenId rest ;;
      Ok (Some entTokenId :: concat ids ++ more)
  end.

(** The mask of the sub-words of one word: the ordinal of the word on the
    first, 0 on the others. *)
Definition wordMask (wordCounter : Z) (ids : list (option Z)) : list Z :=
  match ids with
  | [] => []
  | _ :: rest => wordCounter :: map (fun _ => 0%Z) rest
  end.

Fixpoint wordTokens (tok : Tokenizer.state) (words : list (jsstring * Z * Z))
  (wordCounter : Z) : result (list (option Z) * list Z) :=
  match words with
  | [] => Ok ([], [])
  | (word, _, _) :: rest =>
      ids <- Tokenizer.encodeWord tok word ;;
      more <- wordTokens tok rest (wordCounter + 1) ;;
      Ok (ids ++ fst more, wordMask wordCounter ids ++ snd more)
  end.

(** [CLS] <<ENT>> label1 <<ENT>> label2 ... <<SEP>> word1 word2 ... *)
Definition buildTokenSequence (tok : Tokenizer.state) (text : jsstring)
  (entities : list jsstring) (entToken sepToken : jsstring)
  : result TokenSequence :=
  entTokenId <- Tokenizer.getSpecialTokenId tok entToken ;;
  sepTokenId <- Tokenizer.getSpecialTokenId tok sepToken ;;
  clsTokenId <- Tokenizer.getClsTokenId tok ;;
  prompt <- promptIds tok entTokenId entities ;;
  let promptTokenIds := prompt ++ [Some sepTokenId] in
  words <- splitWords text ;;
  wt <- wordTokens tok words 1 ;;
  Ok {| s_inputIds := Some clsTokenId :: promptTokenIds ++ fst wt;
        s_attentionMask :=
          1%Z :: map (fun _ => 1%Z) promptTokenIds
              ++ map (fun _ => 1%Z) (fst wt);
        s_wordsMask := 0%Z :: map (fun _ => 0%Z) promptTokenIds ++ snd wt;
        s_words := words;
        s_wordsStartIdx := map (fun w => snd (fst w)) words;
        s_wordsEndIdx := map snd words;
        s_tokens := map (fun w => fst (fst w)) words |}.

(** [while (a.length < n) a.push(x)] *)
Definition padTo {A} (n : nat) (x : A) (l : list A) : list A :=
  l ++ repeat x (n - length l).

(** [Math.max(...lens)] as the bound of the padding loops. *)
Definition maxLength {A} (ls : list (list A)) : nat :=
  fold_right Nat.max 0%nat (map (@length A) ls).

(** Prepare a batch of texts for token-level inference. *)
Definition prepareBatch (tok : Tokenizer.state) (texts : list jsstring)
  (entities : list jsstring) (entToken sepToken : jsstring)
  : result ProcessorOutput :=
  seqs <- mapR (fun text =>
                  buildTokenSequence tok text entities entToken sepToken)
               texts ;;
  let allInputIds := map s_inputIds seqs in
  let maxLen := maxLength allInputIds in
  Ok {| inputIds := map (padTo maxLen (Some 0%Z)) allInputIds;
        attentionMask := map (fun s => padTo maxLen 0%Z (s_attentionMask s)) seqs;
        wordsMask := map (fun s => padTo maxLen 0%Z (s_wordsMask s)) seqs;
        textLengths := map (fun s => [Z.of_nat (length (s_words s))]) seqs;
        batchTokens := map s_tokens seqs;
        batchWordsStartIdx := map s_wordsStartIdx seqs;
        batchWordsEndIdx := map s_wordsEndIdx seqs;
        spanIdx := None;
        spanMask := None |}.

(** The candidate spans of one example: for every word [i] and every width
    [w] below [maxWidth] the pair [(i, i + w)], or [(0, 0)] with mask 0 when
    the span leaves the text; one dummy span when there is none. *)
Definition spanAt (numWords i w : Z) : (Z * Z) * Z :=
  let end_ := (i + w)%Z in
  if (end_ <? numWords)%Z then ((i, end_), 1%Z) else ((0%Z, 0%Z), 0%Z).

Definition enumerateSpans (numWords maxWidth : Z) : list ((Z * Z) * Z) :=
  flat_map (fun i => map (spanAt numWords i) (upto maxWidth)) (upto numWords).

Definition candidateSpans (numWords maxWidth : Z) : list ((Z * Z) * Z) :=
  match enumerateSpans numWords maxWidth with
  | [] => [((0%Z, 0%Z), 0%Z)]
  | spans => spans
  end.

(** Prepare a batch of texts for span-level (markerV0) inference. *)
Definition prepareSpanBatch (tok : Tokenizer.state) (texts : list jsstring)
  (entities : list jsstring) (maxWidth : Z) (entToken sepToken : jsstring)
  : result ProcessorOutput :=
  seqs <- mapR (fun text =>
                  buildTokenSequence tok text entities entToken sepToken)
               texts ;;
  let allInputIds := map s_inputIds seqs in
  let allSpans :=
    map (fun s => candidateSpans (Z.of_nat (length (s_words s))) maxWidth)
        seqs in
  let maxLen := maxLength allInputIds in
  let maxSpans := maxLength allSpans in
  let padded := map (padTo maxSpans ((0%Z, 0%Z), 0%Z)) allSpans in
  Ok {| inputIds := map (padTo maxLen (Some 0%Z)) allInputIds;
        attentionMask := map (fun s => padTo maxLen 0%Z (s_attentionMask s)) seqs;
        wordsMask := map (fun s => padTo maxLen 0%Z (s_wordsMask s)) seqs;
        textLengths := map (fun s => [Z.of_nat (length (s_words s))]) seqs;
        batchTokens := map s_tokens seqs;
        batchWordsStartIdx := map s_wordsStartIdx seqs;
        batchWordsEndIdx := map s_wordsEndIdx seqs;
        spanIdx := Some (map (map fst) padded);
        spanMask := Some (map (map snd) padded) |}.

End WithRuntime.
End Processor.

(** ** The decoder (services/gliner/decoder.ts) *)

Module Decoder.
Section WithRuntime.
Context `{FloatOps}.

(** A detected entity; [label] is [None] when the label array has no entry
    at the index of the entity type. *)
Record GLiNEREntity := {
  text : jsstring;
  label : option jsstring;
  start : Z;
  end_ : Z;
  score : float
}.

(** [logits[i]] converted to a number: NaN out of range. *)
Definition logitAt (logits : list float) (i : Z) : float :=
  orElse (nthZ logits i) fnan.

Definition overlaps (c a : GLiNEREntity) : bool :=
  (start c <? end_ a)%Z && (start a <? end_ c)%Z.

(** The acceptance loop of [greedySearch]. *)
Fixpoint acceptLoop (sorted accepted : list GLiNEREntity)
  : list GLiNEREntity :=
  match sorted with
  | [] => accepted
  | candidate :: rest =>
      if existsb (overlaps candidate) accepted then acceptLoop rest accepted
      else acceptLoop rest (accepted ++ [candidate])
  end.

(** Remove overlapping spans, keeping the highest-scoring ones. *)
Definition greedySearch (candidates : list GLiNEREntity)
  : list GLiNEREntity :=
  let sorted :=
    sortBy (fun a b => fgt (fsub (score b) (score a)) (fofQ 0)) candidates in
  let accepted := acceptLoop sorted [] in
  sortBy (fun a b => (0 <? start a - start b)%Z) accepted.

(** *** Span-level decoding *)

Record SpanDecodeOptions := {
  sd_logits : list float;
  sd_batchSize : Z;
  sd_numSpans : Z;
  sd_numEntities : Z;
  sd_entities : list jsstring;
  sd_texts : list jsstring;
  sd_batchWordsStartIdx : list (list Z);
  sd_batchWordsEndIdx : list (list Z);
  sd_spanIdx : list (list (Z * Z));
  sd_spanMask : list (list Z);
  sd_threshold : option float
}.

(** The threshold a decoder applies: the one of the options, else its own
    default. *)
Definition appliedThreshold (dflt : Q) (threshold : option float) : float :=
  orElse threshold (fofQ dflt).

(** The best entity type of a span: the first one with the highest score. *)
Fixpoint bestEntityFrom (logits : list float) (base : Z) (es : list Z)
  (bestScore : float) (bestEntity : Z) : float * Z :=
  match es with
  | [] => (bestScore, bestEntity)
  | e :: es' =>
      let sc := sigmoid (logitAt logits (base + e)) in
      if fgt sc bestScore then bestEntityFrom logits base es' sc e
      else bestEntityFrom logits base es' bestScore bestEntity
  end.

Definition isZero (o : option Z) : bool :=
  match o with
  | Some 0%Z => true
  | _ => false
  end.

(** The candidate, if any, that span number [s] of example [b] yields. *)
Definition spanCandidate (o : SpanDecodeOptions) (threshold : float)
  (b s : Z) : result (list GLiNEREntity) :=
  mask <- nthR (sd_spanMask o) b ;;
  if isZero (nthZ mask s) then Ok []
  else
    idx <- nthR (sd_spanIdx o) b ;;
    sp <- nthR idx s ;;
    let (startWord, endWord) := sp in
    let batchOffset := (b * (sd_numSpans o * sd_numEntities o))%Z in
    let (bestScore, bestEntity) :=
      bestEntityFrom (sd_logits o) (batchOffset + s * sd_numEntities o)%Z
                     (upto (sd_numEntities o)) fneginf (-1)%Z in
    if fgt bestScore threshold && (0 <=? bestEntity)%Z then
      wstarts <- nthR (sd_batchWordsStartIdx o) b ;;
      wends <- nthR (sd_batchWordsEndIdx o) b ;;
      match nthZ wstarts startWord, nthZ wends endWord with
      | Some charStart, Some charEnd =>
          txt <- nthR (sd_texts o) b ;;
          Ok [{| text := slice txt charStart charEnd;
                 label := nthZ (sd_entities o) bestEntity;
                 start := charStart;
                 end_ := charEnd;
                 score := bestScore |}]
      | _, _ => Ok []
      end
    else Ok [].

Definition decodeSpanExample (o : SpanDecodeOptions) (b : Z)
  : result (list GLiNEREntity) :=
  let threshold := appliedThreshold (4 # 10) (sd_threshold o) in
  cands <- mapR (spanCandidate o threshold b) (upto (sd_numSpans o)) ;;
  Ok (greedySearch (concat cands)).

(** Decode span-level model output into entity spans. *)
Definition decodeSpanLevel (o : SpanDecodeOptions)
  : result (list (list GLiNEREntity)) :=
  mapR (decodeSpanExample o) (upto (sd_batchSize o)).

(** *** Token-level decoding *)

Record TokenDecodeOptions := {
  td_logits : list float;
  td_batchSize : Z;
  td_inputLength : Z;
  td_numEntities : Z;
  td_entities : list jsstring;
  td_texts : list jsstring;
  td_batchWordsStartIdx : list (list Z);
  td_batchWordsEndIdx : list (list Z);
  td_batchTokens : list (list jsstring);
  td_wordsMask : list (list Z);
  td_threshold : option float
}.

Record boundary := { b_word : Z; b_entity : Z; b_score : float }.

Definition pairEq (a b : Z * Z) : bool :=
  (fst a =? fst b)%Z && (snd a =? snd b)%Z.

(** [outputPosToTextWord]: the text word of every output position. *)
Definition outputPositions (mask : list Z) : list Z :=
  map (fun v => (v - 1)%Z) (filter (fun v => (0 <? v)%Z) mask).

(** The three tables filled by the scan of the logits. *)
Record scan := {
  starts : list boundary;
  ends : list boundary;
  insideMap : list ((Z * Z) * float)
}.

Definition scanCell (o : TokenDecodeOptions) (threshold : float)
  (batchOffset w textWord : Z) (sc : scan) (e : Z) : scan :=
  let base := (batchOffset + w * (td_numEntities o * 3) + e * 3)%Z in
  let startProb := sigmoid (logitAt (td_logits o) (base + 0)) in
  let endProb := sigmoid (logitAt (td_logits o) (base + 1)) in
  let insideProb := sigmoid (logitAt (td_logits o) (base + 2)) in
  {| starts := if fge startProb threshold
               then starts sc ++ [{| b_word := textWord; b_entity := e;
                                     b_score := startProb |}]
               else starts sc;
     ends := if fge endProb threshold
             then ends sc ++ [{| b_word := textWord; b_entity := e;
                                 b_score := endProb |}]
             else ends sc;
     insideMap := mapSet pairEq (insideMap sc) (textWord, e) insideProb |}.

Definition scanPosition (o : TokenDecodeOptions) (threshold : float)
  (batchOffset : Z) (positions : list Z) (sc : scan) (w : Z) : scan :=
  match nthZ positions w with
  | None => sc
  | Some textWord =>
      fold_left (scanCell o threshold batchOffset w textWord)
                (upto (td_numEntities o)) sc
  end.

(** The validation of the words strictly inside a span:
    [None] when one of them is below the threshold, else the sum and the
    number of the inside scores. *)
Fixpoint insideLoop (im : list ((Z * Z) * float)) (threshold : float)
  (entity : Z) (ws : list Z) (total : float) (count : Z)
  : option (float * Z) :=
  match ws with
  | [] => Some (total, count)
  | w :: ws' =>
      let iScore := orElse (mapGet pairEq im (w, entity)) (fofQ 0) in
      if flt iScore threshold then None
      else insideLoop im threshold entity ws' (fadd total iScore) (count + 1)
  end.

(** The words [from, from + 1, ..., to - 1]. *)
Definition wordsBetween (from to : Z) : list Z :=
  map (fun k => (from + Z.of_nat k)%Z) (seq 0 (Z.to_nat (to - from))).

Definition pairCandidate (o : TokenDecodeOptions) (threshold : float)
  (b : Z) (im : list ((Z * Z) * float)) (s en : boundary)
  : result (list GLiNEREntity) :=
  if negb (b_entity en =? b_entity s)%Z then Ok []
  else if (b_word en <? b_word s)%Z then Ok []
  else
    match insideLoop im threshold (b_entity s)
                     (wordsBetween (b_word s + 1) (b_word en))
                     (fofQ 0) 0%Z with
    | None => Ok []
    | Some (insideTotal, insideCount) =>
        let avgScore :=
          if (0 <? insideCount)%Z then
            fdiv (fadd (fadd (b_score s) (b_score en)) insideTotal)
                 (fofQ (inject_Z (2 + insideCount)))
          else fdiv (fadd (b_score s) (b_score en)) (fofQ 2) in
        wstarts <- nthR (td_batchWordsStartIdx o) b ;;
        wends <- nthR (td_batchWordsEndIdx o) b ;;
        match nthZ wstarts (b_word s), nthZ wends (b_word en) with
        | Some charStart, Some charEnd =>
            txt <- nthR (td_texts o) b ;;
            Ok [{| text := slice txt charStart charEnd;
                   label := nthZ (td_entities o) (b_entity s);
                   start := charStart;
                   end_ := charEnd;
                   score := avgScore |}]
        | _, _ => Ok []
        end
    end.

Definition decodeTokenExample (o : TokenDecodeOptions) (b : Z)
  : result (list GLiNEREntity) :=
  let threshold := appliedThreshold (3 # 10) (td_threshold o) in
  let batchOffset := (b * (td_inputLength o * td_numEntities o * 3))%Z in
  mask <- nthR (td_wordsMask o) b ;;
  let positions := outputPositions mask in
  let sc := fold_left (scanPosition o threshold batchOffset positions)
                      (upto (td_inputLength o))
                      {| starts := []; ends := []; insideMap := [] |} in
  cands <- mapR (fun s =>
                   cs <- mapR (pairCandidate o threshold b (insideMap sc) s)
                              (ends sc) ;;
                   Ok (concat cs))
                (starts sc) ;;
  Ok (greedySearch (concat cands)).

(** Decode token-level model output into entity spans. *)
Definition decodeTokenLevel (o : TokenDecodeOptions)
  : result (list (list GLiNEREntity)) :=
  mapR (decodeTokenExample o) (upto (td_batchSize o)).

End WithRuntime.
End Decoder.

(** ** Configuration (services/gliner/config.ts) *)

Module Config.

Record GLiNERConfig := {
  spanMode : jsstring;
  maxWidth : Z;
  maxLen : Z;
  maxTypes : Z;
  entToken : jsstring;
  sepToken : jsstring
}.

(** Default GLiNER config (overridden by downloaded gliner_config.json) *)
Definition DEFAULT_CONFIG : GLiNERConfig :=
  {| spanMode := str "markerV0";
     maxWidth := 12;
     maxLen := 384;
     maxTypes := 25;
     entToken := str "<<ENT>>";
     sepToken := str "<<SEP>>" |}.

(** Default inference threshold *)
Definition DEFAULT_THRESHOLD : Q := 4 # 10.

Definition PII_LABELS : list jsstring :=
  map str
    ["person"; "first name"; "last name"; "email address"; "phone number";
     "street address"; "city"; "country"; "credit card number";
     "social security number"; "passport number"; "driver license number";
     "date of birth"; "ip address"; "bank account number"; "iban";
     "medical condition"; "organization"; "url"; "username"; "password";
     "license plate"]%string.

(** Map GLiNER entity labels to our placeholder types *)
Definition LABEL_TO_TYPE : list (jsstring * jsstring) :=
  map (fun p => (str (fst p), str (snd p)))
    [("person", "person"); ("first name", "person"); ("last name", "person");
     ("email address", "email"); ("phone number", "phone");
     ("street address", "address"); ("city", "location");
     ("country", "location"); ("credit card number", "creditCard");
     ("social security number", "ssn"); ("passport number", "passport");
     ("driver license number", "driverLicense");
     ("date of birth", "dateOfBirth"); ("ip address", "ipAddress");
     ("bank account number", "bankAccount"); ("iban", "bankAccount");
     ("medical condition", "medicalCondition");
     ("organization", "organization"); ("url", "url");
     ("username", "username"); ("password", "password");
     ("license plate", "licensePlate")]%string.

End Config.

(** ** The inference orchestrator (services/gliner/GLiNERInference.ts) *)

Module Inference.
Import Config Processor Decoder.

Section WithRuntime.
Context `{FloatOps} `{Unicode}.

(** The named input tensors of one run and the first output tensor. *)
Record Feeds := {
  input_ids : list Z;
  attention_mask : list Z;
  words_mask : list Z;
  text_lengths : list Z;
  span_idx : option (list Z);
  span_mask : option (list Z)
}.

Record Output := { data : list float; dims : list Z }.

(** The executor session, an external collaborator. *)
Record Session := {
  inputNames : list jsstring;
  run : Feeds -> result Output
}.

(** gliner_config.json as downloaded: every field may be absent. *)
Record RawConfig := {
  span_mode : option jsstring;
  max_width : option Z;
  max_len : option Z;
  max_types : option Z;
  ent_token : option jsstring;
  sep_token : option jsstring
}.

Record ModelFiles := {
  tokenizerJson : Tokenizer.TokenizerJson;
  glinerConfig : RawConfig
}.

(** What the model-file provider and the executor library answer. *)
Record Env := {
  loadGLiNERModelFiles : option ModelFiles;
  createSession : result Session
}.

(** The module variables. *)
Record State := {
  _session : option Session;
  _ortLoaded : bool;
  _config : GLiNERConfig;
  _initialized : bool;
  _isSpanMode : bool;
  _tokenizer : Tokenizer.state
}.

Definition initialState : State :=
  {| _session := None; _ortLoaded := false; _config := DEFAULT_CONFIG;
     _initialized := false; _isSpanMode := false; _tokenizer := None |}.

(** [raw || dflt] on numbers: 0 is falsy. *)
Definition orNum (raw : option Z) (dflt : Z) : Z :=
  match raw with
  | Some 0%Z | None => dflt
  | Some z => z
  end.

(** [raw || dflt] on strings: the empty string is falsy. *)
Definition orStr (raw : option jsstring) (dflt : jsstring) : jsstring :=
  match raw with
  | Some [] | None => dflt
  | Some s => s
  end.

Definition memStr (x : jsstring) (l : list jsstring) : bool :=
  existsb (eqs x) l.

(** Initialize (or re-initialize) the GLiNER model. *)
Definition initGLiNER (env : Env) (st : State) : result State :=
  match loadGLiNERModelFiles env with
  | None => Throw "GLiNER model files not found. Download the model first."
  | Some files =>
      tok <- Tokenizer.initTokenizer (tokenizerJson files) ;;
      let rawConfig := glinerConfig files in
      let config :=
        {| spanMode := orStr (span_mode rawConfig) (spanMode DEFAULT_CONFIG);
           maxWidth := orNum (max_width rawConfig) (maxWidth DEFAULT_CONFIG);
           maxLen := orNum (max_len rawConfig) (maxLen DEFAULT_CONFIG);
           maxTypes := orNum (max_types rawConfig) (maxTypes DEFAULT_CONFIG);
           entToken := orStr (ent_token rawConfig) (entToken DEFAULT_CONFIG);
           sepToken := orStr (sep_token rawConfig) (sepToken DEFAULT_CONFIG) |} in
      let isSpan := eqs (spanMode config) (str "markerV0")
                    || eqs (spanMode config) (str "span_level") in
      session <- createSession env ;;
      let isSpan' :=
        if memStr (str "span_idx") (inputNames session)
           || memStr (str "span_mask") (inputNames session)
        then true else isSpan in
      Ok {| _session := Some session; _ortLoaded := true; _config := config;
            _initialized := true; _isSpanMode := isSpan';
            _tokenizer := tok |}
  end.

(** [BigInt64Array.from(ids.map(BigInt))]: [BigInt(undefined)] throws. *)
Definition toBigInts (ids : list (option Z)) : result (list Z) :=
  mapR (fun o => match o with
                 | Some z => Ok z
                 | None => Throw "TypeError: cannot convert undefined to a BigInt"
                 end) ids.

Definition sessionOf (st : State) : result Session :=
  match _session st with
  | Some s => if _ortLoaded st then Ok s
              else Throw "GLiNER session not available"
  | None => Throw "GLiNER session not available"
  end.

(** Span-level (markerV0) inference. *)
Definition runSpanInference (st : State) (session : Session)
  (text : jsstring) (labels : list jsstring) (threshold : float)
  : result (list GLiNEREntity) :=
  batch <- prepareSpanBatch (_tokenizer st) [text] labels
             (maxWidth (_config st)) (entToken (_config st))
             (sepToken (_config st)) ;;
  ids0 <- nthR (inputIds batch) 0 ;;
  spans <- match spanIdx batch with
           | Some l => nthR l 0
           | None => Throw "TypeError: undefined"
           end ;;
  let numSpans := Z.of_nat (length spans) in
  ids <- toBigInts ids0 ;;
  am <- nthR (attentionMask batch) 0 ;;
  wm <- nthR (wordsMask batch) 0 ;;
  tl <- nthR (textLengths batch) 0 ;;
  sm <- match spanMask batch with
        | Some l => nthR l 0
        | None => Throw "TypeError: undefined"
        end ;;
  let feeds :=
    {| input_ids := ids; attention_mask := am; words_mask := wm;
       text_lengths := tl;
       span_idx := Some (flat_map (fun p => [fst p; snd p]) spans);
       span_mask := Some sm |} in
  output <- run session feeds ;;
  let numEntities := orElse (nthZ (dims output) 2) 0%Z in
  entities <- decodeSpanLevel
                {| sd_logits := data output;
                   sd_batchSize := 1;
                   sd_numSpans := numSpans;
                   sd_numEntities := numEntities;
                   sd_entities := labels;
                   sd_texts := [text];
                   sd_batchWordsStartIdx := batchWordsStartIdx batch;
                   sd_batchWordsEndIdx := batchWordsEndIdx batch;
                   sd_spanIdx := orElse (spanIdx batch) [];
                   sd_spanMask := orElse (spanMask batch) [];
                   sd_threshold := Some threshold |} ;;
  nthR entities 0.

(** Token-level inference. *)
Definition runTokenInference (st : State) (session : Session)
  (text : jsstring) (labels : list jsstring) (threshold : float)
  : result (list GLiNEREntity) :=
  batch <- prepareBatch (_tokenizer st) [text] labels
             (entToken (_config st)) (sepToken (_config st)) ;;
  ids0 <- nthR (inputIds batch) 0 ;;
  ids <- toBigInts ids0 ;;
  am <- nthR (attentionMask batch) 0 ;;
  wm <- nthR (wordsMask batch) 0 ;;
  tl <- nthR (textLengths batch) 0 ;;
  let feeds :=
    {| input_ids := ids; attention_mask := am; words_mask := wm;
       text_lengths := tl; span_idx := None; span_mask := None |} in
  output <- run session feeds ;;
  let numEntities := orElse (nthZ (dims output) 2) 0%Z in
  let inputLength := orElse (nthZ (dims output) 1) 0%Z in
  entities <- decodeTokenLevel
                {| td_logits := data output;
                   td_batchSize := 1;
                   td_inputLength := inputLength;
                   td_numEntities := numEntities;
                   td_entities := labels;
                   td_texts := [text];
                   td_batchWordsStartIdx := batchWordsStartIdx batch;
                   td_batchWordsEndIdx := batchWordsEndIdx batch;
                   td_batchTokens := batchTokens batch;
                   td_wordsMask := wordsMask batch;
                   td_threshold := Some threshold |} ;;
  nthR entities 0.

Definition runInference (st : State) (text : jsstring)
  (labels : list jsstring) (threshold : float)
  : result (list GLiNEREntity) :=
  session <- sessionOf st ;;
  if _isSpanMode st then runSpanInference st session text labels threshold
  else runTokenInference st session text labels threshold.

(** [String(n)] for an integer. *)
Definition numberToString (z : Z) : jsstring :=
  if (z <? 0)%Z then 45%N :: decimal (- z) else decimal z.

Definition labelString (l : option jsstring) : jsstring :=
  orElse l (str "undefined").

(** The key of the set [seenSpans]. *)
Definition spanKey (e : GLiNEREntity) : jsstring :=
  numberToString (start e) ++ 45%N :: numberToString (end_ e)
    ++ 45%N :: labelString (label e).

(** The loop over the entities of one window. *)
Fixpoint mergeEntities (chunkStartChar : Z) (entities : list GLiNEREntity)
  (seenSpans : list jsstring) (allEntities : list GLiNEREntity)
  : list jsstring * list GLiNEREntity :=
  match entities with
  | [] => (seenSpans, allEntities)
  | entity :: rest =>
      let adjustedEntity :=
        {| text := text entity; label := label entity;
           start := start entity + chunkStartChar;
           end_ := end_ entity + chunkStartChar;
           score := score entity |} in
      let key := spanKey adjustedEntity in
      if memStr key seenSpans
      then mergeEntities chunkStartChar rest seenSpans allEntities
      else mergeEntities chunkStartChar rest (seenSpans ++ [key])
                         (allEntities ++ [adjustedEntity])
  end.

(** The character offset the source assigns to the window that starts at
    word [i]. *)
Definition chunkStartChar (text : jsstring) (words : list jsstring) (i : Z)
  (chunkWords : list jsstring) : Z :=
  indexOf text (hd (str "undefined") chunkWords)
          (if (0 <? i)%Z
           then indexOf text (orElse (nthZ words (i - 1)) (str "undefined")) 0
           else 0%Z).

Definition OVERLAP : Z := 50.

(** The loop over the windows; it never ends when the step
    [chunkSize - OVERLAP] is not positive. *)
Fixpoint chunkLoop (fuel : nat) (st : State) (text : jsstring)
  (words : list jsstring) (labels : list jsstring) (threshold : float)
  (chunkSize : Z) (i : Z) (seenSpans : list jsstring)
  (allEntities : list GLiNEREntity) : result (list GLiNEREntity) :=
  if (i <? Z.of_nat (length words))%Z then
    match fuel with
    | O => Diverges
    | S fuel' =>
        let chunkWords :=
          arraySlice words (Z.to_nat i) (Z.to_nat (i + chunkSize)) in
        let chunkText := joinSp chunkWords in
        let offset := chunkStartChar text words i chunkWords in
        entities <- runInference st chunkText labels threshold ;;
        let (seen', all') :=
          mergeEntities offset entities seenSpans allEntities in
        chunkLoop fuel' st text words labels threshold chunkSize
                  (i + (chunkSize - OVERLAP)) seen' all'
    end
  else Ok allEntities.

(** Handle long texts by splitting into overlapping chunks. *)
Definition detectPIIChunked (st : State) (text : jsstring)
  (labels : list jsstring) (threshold : float) (chunkSize : Z)
  : result (list GLiNEREntity) :=
  let words := splitWs text in
  allEntities <- chunkLoop (length words) st text words labels threshold
                           chunkSize 0 [] [] ;;
  Ok (sortBy (fun a b => (0 <? start a - start b)%Z) allEntities).

(** The state in which [detectPII] runs: initialization happens first when
    the module is not ready. *)
Definition ensureReady (env : Env) (st : State) : result State :=
  if negb (_initialized st)
     || match _session st with Some _ => false | None => true end
  then initGLiNER env st else Ok st.

(** The ceiling on the number of words of one inference. *)
Definition maxWords (st : State) : Z := if _isSpanMode st then 200 else 500.

(** Run GLiNER PII detection on a text. [labels] and [threshold] are
    optional parameters with their defaults. *)
Definition detectPII (env : Env) (st : State) (text : jsstring)
  (labels : option (list jsstring)) (threshold : option float)
  : result (list GLiNEREntity) :=
  let labels := orElse labels PII_LABELS in
  let threshold := orElse threshold (fofQ DEFAULT_THRESHOLD) in
  st' <- ensureReady env st ;;
  match _session st' with
  | None => Throw "GLiNER session not available"
  | Some _ =>
      let words := splitWs text in
      if (maxWords st' <? Z.of_nat (length words))%Z
      then detectPIIChunked st' text labels threshold (maxWords st')
      else runInference st' text labels threshold
  end.

End WithRuntime.
End Inference.

(** ** The anonymization layer (services/anonymization.ts) *)

Module Anonymization.
Import Regex Config Decoder Inference.

Section WithRuntime.
Context `{FloatOps} `{Unicode}.

Record AnonymizationResult := {
  anonymized : jsstring;
  mappings : list (jsstring * jsstring)
}.

(** *** The pattern library *)

Definition digit : regex := Chr isDigit.
Definition upper : regex := Chr isUpper.
Definition ws : regex := Chr isSpace.
Definition c (s : string) : regex := lits (str s).
(** An ASCII literal under the [i] flag. *)
Definition ci (s : string) : regex :=
  seqs (map (fun x => Chr (classI (N.eqb x))) (str s)).
(** [[-.\s]] *)
Definition sepc : regex :=
  Chr (fun x => (x =? 45)%N || (x =? 46)%N || isSpace x).
Definition digitOrSpace : regex := Chr (fun x => isDigit x || isSpace x).

Definition phonePattern : regex :=
  seqs [opt (seqs [c "+"; rep 1 3 digit; opt sepc]);
        opt (c "("); rep 1 4 digit; opt (c ")"); opt sepc;
        rep 2 4 digit; opt sepc; rep 3 4 digit; opt sepc; rep 0 4 digit;
        WordB].

Definition emailPattern : regex :=
  seqs [WordB;
        plus (Chr (fun x => isAlpha x || isDigit x || (x =? 46)%N
                            || (x =? 95)%N || (x =? 37)%N || (x =? 43)%N
                            || (x =? 45)%N));
        c "@";
        plus (Chr (fun x => isAlpha x || isDigit x || (x =? 46)%N
                            || (x =? 45)%N));
        c ".";
        Rep 2 None (Chr (fun x => isUpper x || (x =? 124)%N || isLower x));
        WordB].

Definition creditCardPattern : regex :=
  seqs [WordB;
        rep 3 3 (seqs [rep 4 4 digit;
                       opt (Chr (fun x => (x =? 45)%N || isSpace x))]);
        rep 4 4 digit; WordB].

Definition ssnPattern : regex :=
  seqs [WordB; rep 3 3 digit; c "-"; rep 2 2 digit; c "-"; rep 4 4 digit;
        WordB].

Definition passportPattern : regex :=
  seqs [WordB; rep 1 2 upper; rep 6 9 digit; WordB].

Definition streetWords : list string :=
  ["Street"; "St"; "Avenue"; "Ave"; "Road"; "Rd"; "Boulevard"; "Blvd";
   "Drive"; "Dr"; "Lane"; "Ln"; "Court"; "Ct"; "Circle"; "Cir"; "Terrace";
   "Ter"; "Way"; "Park"; "Parkway"; "Pkwy"; "Place"; "Pl"; "Square"; "Sq";
   "Trail"; "Trl"; "straat"; "laan"; "weg"; "plein"; "gracht"; "kade";
   "singel"]%string.

Definition addressPattern : regex :=
  seqs [WordB; plus digit; plus ws;
        plus (Chr (fun x => isAlpha x || isSpace x));
        alts (map ci streetWords); WordB].

Definition healthInsuranceIdPattern : regex :=
  seqs [WordB; rep 2 2 upper; rep 10 10 digit; WordB].

Definition inRange (lo hi : N) : regex :=
  Chr (fun x => (lo <=? x)%N && (x <=? hi)%N).

Definition dateOfBirthPattern : regex :=
  let dateSep := Chr (fun x => (x =? 45)%N || (x =? 47)%N) in
  seqs [WordB;
        Alt (Seq (c "0") (inRange 49 57)) (Seq (c "1") (inRange 48 50));
        dateSep;
        alts [Seq (c "0") (inRange 49 57); Seq (inRange 49 50) digit;
              Seq (c "3") (inRange 48 49)];
        dateSep;
        Alt (c "19") (c "20"); rep 2 2 digit; WordB].

Definition ipAddressPattern : regex :=
  seqs [WordB; rep 3 3 (Seq (rep 1 3 digit) (c ".")); rep 1 3 digit; WordB].

Definition ibanPattern : regex :=
  seqs [WordB; rep 2 2 upper; rep 2 2 digit; opt ws; rep 4 4 upper; opt ws;
        rep 8 26 digitOrSpace; WordB].

Definition licensePlatePattern : regex :=
  Alt (seqs [WordB; rep 1 2 digit; c "-"; rep 2 3 upper; c "-";
             rep 1 2 digit; WordB])
      (seqs [WordB; rep 2 2 upper; c "-"; rep 2 3 digit; c "-";
             rep 1 2 upper; WordB]).

(** Regex patterns for structured PII, in the order of the object. *)
Definition STRUCTURED_PII_PATTERNS : list (jsstring * regex) :=
  [(str "phone", phonePattern); (str "email", emailPattern);
   (str "creditCard", creditCardPattern); (str "ssn", ssnPattern);
   (str "passport", passportPattern); (str "address", addressPattern);
   (str "healthInsuranceId", healthInsuranceIdPattern);
   (str "dateOfBirth", dateOfBirthPattern);
   (str "ipAddress", ipAddressPattern); (str "iban", ibanPattern);
   (str "licensePlate", licensePlatePattern)].

(** [\s+(?:is|:)?\s*], the link between a keyword and its number. *)
Definition link : regex :=
  seqs [plus ws; opt (Alt (ci "is") (c ":")); star ws].

Definition upperI : regex := Chr isAlpha.

Definition ssnContext : regex :=
  seqs [alts [ci "BSN"; ci "bsn"; ci "sofi"; ci "burgerservicenummer";
              seqs [ci "social"; plus ws; ci "security"]];
        link; Group (rep 7 9 digit)].

Definition phoneContext : regex :=
  seqs [alts [Seq (ci "telefoon") (opt (ci "nummer"));
              seqs [ci "phone"; star ws; opt (ci "number")];
              ci "tel"; ci "mobiel"; ci "mobile"; ci "nummer"];
        link;
        Group (seqs [opt (c "+"); digit;
                     rep 6 17 (Chr (fun x => isDigit x || isSpace x
                                             || (x =? 45)%N || (x =? 46)%N));
                     digit])].

Definition bankAccountContext : regex :=
  seqs [alts [Seq (ci "rekening") (opt (ci "nummer"));
              seqs [ci "account"; star ws; opt (ci "number")];
              ci "IBAN"];
        link;
        Group (Alt (seqs [rep 2 2 upperI; rep 2 2 digit; opt ws;
                          rep 4 4 upperI; opt ws; rep 8 26 digitOrSpace])
                   (rep 9 17 digit))].

(** Context-based PII patterns: numbers preceded by identifying keywords. *)
Definition CONTEXT_PII_PATTERNS : list (jsstring * regex) :=
  [(str "ssn", ssnContext); (str "phone", phoneContext);
   (str "bankAccount", bankAccountContext)].

(** [/\b[A-Z][a-z]+(?:\s+[A-Z][a-z]+)*\b/g] *)
Definition personPattern : regex :=
  seqs [WordB; upper; plus (Chr isLower);
        star (seqs [plus ws; upper; plus (Chr isLower)]); WordB].

(** [new RegExp(escapeRegex(s), 'g')]: every metacharacter of [s] is
    escaped, the pattern matches [s] literally. *)
Definition literalPattern (s : jsstring) : regex := lits s.

(** [new RegExp(`\\b${escapeRegex(s)}\\b`, 'gi')] *)
Definition wordPatternI (s : jsstring) : regex :=
  Seq WordB (Seq (litsI s) WordB).

(** *** Placeholders and counters *)

(** [`<${type} ${n}>`] *)
Definition placeholderOf (type : jsstring) (n : Z) : jsstring :=
  60%N :: type ++ 32%N :: decimal n ++ [62%N].

Definition counterOf (counters : list (jsstring * Z)) (type : jsstring) : Z :=
  orElse (mapGet eqs counters type) 0%Z.

(** [if (!counters[type]) counters[type] = 1] *)
Definition initCounter (counters : list (jsstring * Z)) (type : jsstring)
  : list (jsstring * Z) :=
  if (counterOf counters type =? 0)%Z then mapSet eqs counters type 1%Z
  else counters.

(** [counters[type]++] *)
Definition bumpCounter (counters : list (jsstring * Z)) (type : jsstring)
  : list (jsstring * Z) :=
  mapSet eqs counters type (counterOf counters type + 1)%Z.

(** *** Hybrid anonymization *)

Inductive Source := gliner | regexSource.

Record PiiMatch := {
  type : jsstring;
  value : jsstring;
  start : Z;
  end_ : Z;
  source : Source
}.

(** [LABEL_TO_TYPE[entity.label] || entity.label] *)
Definition typeOfLabel (l : option jsstring) : jsstring :=
  match mapGet eqs LABEL_TO_TYPE (labelString l) with
  | Some t => t
  | None => labelString l
  end.

Definition glinerMatch (e : GLiNEREntity) : PiiMatch :=
  {| type := typeOfLabel (Decoder.label e);
     value := Decoder.text e;
     start := Decoder.start e;
     end_ := Decoder.end_ e;
     source := gliner |}.

Definition structuredMatch (text : jsstring) (ty : jsstring) (mt : rmatch)
  : PiiMatch :=
  {| type := ty;
     value := Processor.matchText text mt;
     start := Z.of_nat (mstart mt);
     end_ := Z.of_nat (mstart mt)
             + jslength (Processor.matchText text mt);
     source := regexSource |}.

(** The matches of all the structured patterns, pattern after pattern. *)
Fixpoint structuredMatches (text : jsstring) (ps : list (jsstring * regex))
  : result (list PiiMatch) :=
  match ps with
  | [] => Ok []
  | (ty, pattern) :: ps' =>
      ms <- execAll pattern text ;;
      more <- structuredMatches text ps' ;;
      Ok (map (structuredMatch text ty) ms ++ more)
  end.

(** [ctxMatch[1].trim()]; reading [trim] of an absent group throws. *)
Definition capturedValue (text : jsstring) (mt : rmatch) : result jsstring :=
  match mcap mt with
  | Some (a, b) => Ok (trim (firstn (b - a) (skipn a text)))
  | None => Throw "TypeError: undefined"
  end.

Definition contextMatch (text : jsstring) (ty : jsstring) (mt : rmatch)
  : result PiiMatch :=
  v <- capturedValue text mt ;;
  let valueStart := indexOf text v (Z.of_nat (mstart mt)) in
  let st := if (0 <=? valueStart)%Z then valueStart
            else Z.of_nat (mstart mt) in
  Ok {| type := ty; value := v; start := st; end_ := st + jslength v;
        source := regexSource |}.

Fixpoint contextMatches (text : jsstring) (ps : list (jsstring * regex))
  : result (list PiiMatch) :=
  match ps with
  | [] => Ok []
  | (ty, pattern) :: ps' =>
      ms <- execAll pattern text ;;
      these <- mapR (contextMatch text ty) ms ;;
      more <- contextMatches text ps' ;;
      Ok (these ++ more)
  end.

Definition isGliner (s : Source) : bool :=
  match s with
  | gliner => true
  | regexSource => false
  end.

(** The comparator of step 3 is positive. *)
Definition afterByPosition (a b : PiiMatch) : bool :=
  if negb (start a =? start b)%Z then (0 <? start a - start b)%Z
  else if negb (end_ a =? end_ b)%Z then (0 <? end_ b - end_ a)%Z
  else negb (isGliner (source a)).

Definition overlapsMatch (x y : PiiMatch) : bool :=
  (start x <? end_ y)%Z && (start y <? end_ x)%Z.

Fixpoint dedupe (sorted deduped : list PiiMatch) : list PiiMatch :=
  match sorted with
  | [] => deduped
  | mt :: rest =>
      if existsb (overlapsMatch mt) deduped then dedupe rest deduped
      else dedupe rest (deduped ++ [mt])
  end.

(** [mappings[placeholder] = value] *)
Definition setMapping (mappings : list (jsstring * jsstring))
  (placeholder v : jsstring) : list (jsstring * jsstring) :=
  mapSet eqs mappings placeholder v.

(** Step 4: placeholders are assigned and the text is rewritten, from the
    last match to the first. *)
Fixpoint assignLoop (deduped : list PiiMatch)
  (counters : list (jsstring * Z)) (mappings : list (jsstring * jsstring))
  (anonymized : jsstring) : AnonymizationResult :=
  match deduped with
  | [] => {| anonymized := anonymized; mappings := mappings |}
  | mt :: rest =>
      let counters1 := initCounter counters (type mt) in
      let placeholder := placeholderOf (type mt) (counterOf counters1 (type mt)) in
      let counters2 := bumpCounter counters1 (type mt) in
      assignLoop rest counters2
                 (setMapping mappings placeholder (value mt))
                 (slice anonymized 0 (start mt) ++ placeholder
                  ++ sliceFrom anonymized (end_ mt))
  end.

(** The part of [anonymizeHybrid] that follows the detection. *)
Definition anonymizeEntities (text : jsstring)
  (glinerEntities : list GLiNEREntity) : result AnonymizationResult :=
  let counters :=
    fold_left (fun cs e => initCounter cs (typeOfLabel (Decoder.label e)))
              glinerEntities [] in
  let fromModel := map glinerMatch glinerEntities in
  structured <- structuredMatches text STRUCTURED_PII_PATTERNS ;;
  context <- contextMatches text CONTEXT_PII_PATTERNS ;;
  let allMatches := fromModel ++ structured ++ context in
  let sorted := sortBy afterByPosition allMatches in
  let deduped := dedupe sorted [] in
  let ordered := sortBy (fun a b => (0 <? start b - start a)%Z) deduped in
  Ok (assignLoop ordered counters [] text).

(** Hybrid anonymization: GLiNER for contextual entities + regex for
    structured patterns. *)
Definition anonymizeHybrid (env : Env) (st : State) (text : jsstring)
  : result AnonymizationResult :=
  glinerEntities <- detectPII env st text None None ;;
  anonymizeEntities text glinerEntities.

(** *** Regex-only anonymization *)

Record RegexMatch := {
  r_type : jsstring;
  r_value : jsstring;
  r_placeholder : jsstring
}.

Definition initialCounters : list (jsstring * Z) :=
  map (fun s => (str s, 1%Z))
    ["phone"; "email"; "creditCard"; "ssn"; "passport"; "address";
     "bankAccount"; "healthInsuranceId"; "dateOfBirth"; "ipAddress";
     "person"; "iban"; "licensePlate"]%string.

Definition hasValue (matches : list RegexMatch) (v : jsstring) : bool :=
  existsb (fun mt => eqs (r_value mt) v) matches.

(** Pushing one match, numbered with the current counter of its type. *)
Definition pushMatch (acc : list RegexMatch * list (jsstring * Z))
  (ty v : jsstring) : list RegexMatch * list (jsstring * Z) :=
  let (matches, counters) := acc in
  (matches ++ [{| r_type := ty; r_value := v;
                  r_placeholder := placeholderOf ty (counterOf counters ty) |}],
   bumpCounter counters ty).

Fixpoint structuredLoop (text : jsstring) (ps : list (jsstring * regex))
  (acc : list RegexMatch * list (jsstring * Z))
  : result (list RegexMatch * list (jsstring * Z)) :=
  match ps with
  | [] => Ok acc
  | (ty, pattern) :: ps' =>
      ms <- execAll pattern text ;;
      structuredLoop text ps'
        (fold_left (fun a mt => pushMatch a ty (Processor.matchText text mt))
                   ms acc)
  end.

Fixpoint contextPush (text : jsstring) (ty : jsstring) (ms : list rmatch)
  (acc : list RegexMatch * list (jsstring * Z))
  : result (list RegexMatch * list (jsstring * Z)) :=
  match ms with
  | [] => Ok acc
  | mt :: ms' =>
      v <- capturedValue text mt ;;
      contextPush text ty ms'
        (if hasValue (fst acc) v then acc else pushMatch acc ty v)
  end.

Fixpoint contextLoop (text : jsstring) (ps : list (jsstring * regex))
  (acc : list RegexMatch * list (jsstring * Z))
  : result (list RegexMatch * list (jsstring * Z)) :=
  match ps with
  | [] => Ok acc
  | (ty, pattern) :: ps' =>
      let acc1 := (fst acc, initCounter (snd acc) ty) in
      ms <- execAll pattern text ;;
      acc2 <- contextPush text ty ms acc1 ;;
      contextLoop text ps' acc2
  end.

Definition commonWords : list jsstring :=
  map str
    ["The"; "And"; "Or"; "But"; "In"; "On"; "At"; "To"; "For"; "Of"; "With";
     "By"; "From"; "Is"; "Are"; "Was"; "Were"; "Been"; "Be"; "Have"; "Has";
     "Had"; "Do"; "Does"; "Did"; "Will"; "Would"; "Should"; "Could"; "May";
     "Might"; "Must"; "Can";
     "Het"; "Een"; "Dat"; "Die"; "Dit"; "Met"; "Van"; "Voor"; "Naar";
     "Maar"]%string.

Definition isLikelyPersonName (text : jsstring) : bool :=
  if memStr text commonWords then false
  else
    let words := splitWs text in
    if (length words =? 1)%nat then false
    else forallb (fun word => match word with
                              | x :: _ => isUpper x
                              | [] => false
                              end && (1 <? length word)%nat) words.

Definition personPush (text : jsstring)
  (acc : list RegexMatch * list (jsstring * Z)) (mt : rmatch)
  : list RegexMatch * list (jsstring * Z) :=
  let v := Processor.matchText text mt in
  if negb (hasValue (fst acc) v) && isLikelyPersonName v
  then pushMatch acc (str "person") v else acc.

(** The filter that keeps the first match of every lower-cased value. *)
Fixpoint uniqueBy (matches : list RegexMatch) (seen : list jsstring)
  : list RegexMatch :=
  match matches with
  | [] => []
  | mt :: rest =>
      let key := toLowerCase (r_value mt) in
      if memStr key seen then uniqueBy rest seen
      else mt :: uniqueBy rest (seen ++ [key])
  end.

Fixpoint replaceMatches (uniqueMatches : list RegexMatch)
  (anonymized : jsstring) (mappings : list (jsstring * jsstring))
  : AnonymizationResult :=
  match uniqueMatches with
  | [] => {| anonymized := anonymized; mappings := mappings |}
  | mt :: rest =>
      replaceMatches rest
        (replaceAll (wordPatternI (r_value mt)) anonymized (r_placeholder mt))
        (setMapping mappings (r_placeholder mt) (r_value mt))
  end.

(** Regex-only anonymization (fallback when model not downloaded). *)
Definition anonymizeWithRegex (text : jsstring)
  : result AnonymizationResult :=
  acc1 <- structuredLoop text STRUCTURED_PII_PATTERNS ([], initialCounters) ;;
  acc2 <- contextLoop text CONTEXT_PII_PATTERNS acc1 ;;
  persons <- execAll personPattern text ;;
  let acc3 := fold_left (personPush text) persons acc2 in
  let sortedMatches :=
    sortBy (fun a b => (0 <? indexOf text (r_value b) 0
                             - indexOf text (r_value a) 0)%Z)
           (fst acc3) in
  let uniqueMatches := uniqueBy sortedMatches [] in
  Ok (replaceMatches uniqueMatches text []).

(** What [isGLiNERAvailable] answers is part of the environment. A
    rejection of [anonymizeHybrid] is not caught by the [try] block, since
    its promise is returned without being awaited. *)
Definition anonymizeTranscription (env : Env) (available : result bool)
  (st : State) (text : jsstring) : result AnonymizationResult :=
  match available with
  | Ok true => anonymizeHybrid env st text
  | _ => anonymizeWithRegex text
  end.

Definition reversePIIMappings (text : jsstring)
  (mappings : list (jsstring * jsstring)) : jsstring :=
  fold_left (fun result entry =>
               replaceAll (literalPattern (fst entry)) result (snd entry))
            mappings text.

(** [getPIIStats]: for every structured pattern with a match, the number
    of its matches; a pattern without match gets no entry. *)
Definition getPIIStats (text : jsstring) : list (jsstring * Z) :=
  fold_left (fun stats entry =>
               match matchGlobal (snd entry) text with
               | Some matches =>
                   mapSet eqs stats (fst entry) (Z.of_nat (length matches))
               | None => stats
               end)
            STRUCTURED_PII_PATTERNS [].

(** The part of [anonymizeWithGLiNER], the model-only anonymization of the
    first version of the service, that follows the detection: the entities
    are replaced from the last to the first. *)
Definition replaceEntities (text : jsstring)
  (entities : list GLiNEREntity) : AnonymizationResult :=
  let sorted :=
    sortBy (fun a b => (0 <? Decoder.start b - Decoder.start a)%Z) entities in
  assignLoop (map glinerMatch sorted) [] [] text.

(** GLiNER-based anonymization. *)
Definition anonymizeWithGLiNER (env : Env) (st : State) (text : jsstring)
  : result AnonymizationResult :=
  entities <- detectPII env st text None None ;;
  Ok (replaceEntities text entities).

End WithRuntime.
End Anonymization.

(** ** A concrete runtime, for running the program on examples *)

Module Concrete.

(** Doubles as rationals with the two special values the pipeline meets.
    Arithmetic is exact; the examples only compare scores. *)
Inductive qfloat := QNaN | QNegInf | QFin (q : Q).

Definition qlift2 (f : Q -> Q -> Q) (a b : qfloat) : qfloat :=
  match a, b with
  | QFin x, QFin y => QFin (Qred (f x y))
  | QNaN, _ | _, QNaN => QNaN
  | _, _ => QNegInf
  end.

Definition qgt (a b : qfloat) : bool :=
  match a, b with
  | QFin x, QFin y => negb (Qle_bool x y)
  | QFin _, QNegInf => true
  | _, _ => false
  end.

Definition qeq (a b : qfloat) : bool :=
  match a, b with
  | QFin x, QFin y => Qeq_bool x y
  | QNegInf, QNegInf => true
  | _, _ => false
  end.

(** exp(-x) by the Taylor polynomial of degree 8. *)
Definition expNeg (x : Q) : Q :=
  fold_right (fun k acc => 1 - x * acc / inject_Z k) 1
             (map Z.of_nat (seq 1 8)).

(** A rational stand-in for the logistic function: exact at 0
    ([sigmoidQ 0 = 1/2]), close to it on [-1, 1]. *)
Definition sigmoidQ (a : qfloat) : qfloat :=
  match a with
  | QFin x => QFin (Qred (1 / (1 + expNeg x)))
  | QNegInf => QFin 0
  | QNaN => QNaN
  end.

#[export] Instance QFloat : FloatOps := {|
  float := qfloat;
  fofQ := QFin;
  fneginf := QNegInf;
  fnan := QNaN;
  fadd := qlift2 Qplus;
  fsub := qlift2 Qminus;
  fdiv := qlift2 Qdiv;
  fgt := qgt;
  fge := fun a b => qgt a b || qeq a b;
  flt := fun a b => qgt b a;
  feq := qeq;
  sigmoid := sigmoidQ
|}.

(** The Unicode tables restricted to ASCII: every other code unit is left
    alone. *)
#[export] Instance AsciiUnicode : Unicode := {|
  normalizeNFKC := fun s => s;
  upperUnit := fun x => x;
  toLowerCase := map (fun x => if isUpper x then (x + 32)%N else x)
|}.


Import Tokenizer Inference.

(** A tokenizer description with an empty vocabulary: every word is encoded
    with the unknown-token id. *)
Definition bareTokenizerJson : TokenizerJson :=
  {| model := Some (OtherModel None None false);
     added_tokens := None;
     pre_tokenizer := None |}.

(** A Unigram description with three pieces, one of them a byte-fallback
    piece. *)
Definition smallUnigramJson : TokenizerJson :=
  {| model := Some (UnigramModel
                      (Some [(str "<unk>", QFin 0);
                             (9601%N :: str "a", QFin (-1));
                             (str "<0x62>", QFin (-5))])
                      (Some 0%Z));
     added_tokens := Some [{| content := str "<<ENT>>"; id := 3%Z |}];
     pre_tokenizer := None |}.

Definition emptyConfig : RawConfig :=
  {| span_mode := None; max_width := None; max_len := None;
     max_types := None; ent_token := None; sep_token := None |}.


Definition spanInputNames : list jsstring :=
  map str ["input_ids"; "attention_mask"; "words_mask"; "text_lengths";
           "span_idx"; "span_mask"]%string.


(** A span-mode executor for one entity type whose logits are all 0: every
    candidate span scores 1/2. *)
Definition zeroSession : Session :=
  {| inputNames := spanInputNames;
     run := fun feeds =>
       let numSpans := length (orElse (span_mask feeds) []) in
       Ok {| data := repeat (QFin 0) numSpans;
             dims := [1%Z; Z.of_nat numSpans; 1%Z] |} |}.

Definition zeroEnv : Env :=
  {| loadGLiNERModelFiles :=
       Some {| tokenizerJson := bareTokenizerJson;
               glinerConfig := emptyConfig |};
     createSession := Ok zeroSession |}.

(** A span-mode executor that, on a text of 51 words, prefers the span of
    the first two words (logit 1 at span index 1) and scores every other
    span like [zeroSession]. *)
Definition contextSession : Session :=
  {| inputNames := spanInputNames;
     run := fun feeds =>
       let numSpans := length (orElse (span_mask feeds) []) in
       let logits :=
         match text_lengths feeds with
         | [51%Z] =>
             QFin 0 :: QFin 1 :: repeat (QFin 0) (numSpans - 2)
         | _ => repeat (QFin 0) numSpans
         end in
       Ok {| data := logits; dims := [1%Z; Z.of_nat numSpans; 1%Z] |} |}.

Definition contextEnv : Env :=
  {| loadGLiNERModelFiles :=
       Some {| tokenizerJson := bareTokenizerJson;
               glinerConfig := emptyConfig |};
     createSession := Ok contextSession |}.



(** 201 words, most of them the same: [a c d a ... a c ee a ... a], with
    [c ee] at the words 150 and 151. *)
Definition repeatedText : jsstring :=
  joinSp (map str (["a"; "c"; "d"] ++ repeat "a" 147 ++ ["c"; "ee"]
                   ++ repeat "a" 49)%list%string).

(** A text of 50 words (51 tokens) that starts with [$&]. *)
Definition dollarText : jsstring :=
  str "$& " ++ joinSp (repeat (str "x") 49).

(** 201 different words: [000 001 ... 200]. *)
Definition numberedText : jsstring :=
  joinSp (map (fun k => [48 + N.of_nat k / 100; 48 + (N.of_nat k / 10) mod 10;
                         48 + N.of_nat k mod 10]%N)
              (seq 0 201)).

End Concrete.

(* ===================================================================== *)
(** * Part II. The vocabulary of the properties                           *)
(* ===================================================================== *)

Module RegexSpec.
Import Regex.

(** [iter n R]: [n] successive steps of [R]. *)
Fixpoint iter (n : nat) (R : mstate -> mstate -> Prop) (st st' : mstate) : Prop :=
  match n with
  | O => st' = st
  | S n' => exists mid, R st mid /\ iter n' R mid st'
  end.

(** The declarative reading of a pattern. *)
Fixpoint Matches (r : regex) (st st' : mstate) : Prop :=
  match r with
  | Eps => st' = st
  | Chr p =>
      exists c rest, after st = c :: rest /\ p c = true
                     /\ st' = MState (c :: before st) rest (cap1 st)
  | Seq a b => exists mid, Matches a st mid /\ Matches b mid st'
  | Alt a b => Matches a st st' \/ Matches b st st'
  | Rep lo hi a => exists n, (lo <= n)%nat /\ iter n (Matches a) st st'
  | WordB => st' = st /\ atBoundary st = true
  | Group a =>
      exists st1, Matches a st st1
                  /\ st' = MState (before st1) (after st1)
                                  (Some (pos st, pos st1))
  end.

(** The code units a match passes over. *)
Definition Ext (st : mstate) (w : list N) (st' : mstate) : Prop :=
  after st = w ++ after st' /\ before st' = rev w ++ before st.

(** A pattern that cannot match the empty string. *)
Fixpoint consumes (r : regex) : bool :=
  match r with
  | Eps | WordB => false
  | Chr _ => true
  | Seq a b => consumes a || consumes b
  | Alt a b => consumes a && consumes b
  | Rep lo _ a => (0 <? lo)%nat && consumes a
  | Group a => consumes a
  end.

(** [mt] is a match of [r] in the text [T]. *)
Definition MatchAt (r : regex) (T : jsstring) (mt : rmatch) : Prop :=
  exists st0 e,
    Matches r st0 e /\ cap1 st0 = None
    /\ rev (before st0) ++ after st0 = T
    /\ pos st0 = mstart mt /\ pos e = mend mt /\ cap1 e = mcap mt.

(** The matches come one after the other, from [lo] on. *)
Fixpoint Chain (lo : nat) (ms : list rmatch) : Prop :=
  match ms with
  | [] => True
  | mt :: rest =>
      (lo <= mstart mt)%nat /\ (mstart mt < mend mt)%nat /\ Chain (mend mt) rest
  end.


End RegexSpec.

Module ProcessorSpec.
Import Processor.

(** A triple of [splitWords] lies inside the text and carries the slice. *)
Definition wordOK (text : jsstring) (w : jsstring * Z * Z) : Prop :=
  let '(word, s, e) := w in
  (0 <= s < e)%Z /\ (e <= jslength text)%Z /\ word = slice text s e.

(** Every triple starts at or after the end of the previous one. *)
Fixpoint ordered (lo : Z) (ws : list (jsstring * Z * Z)) : Prop :=
  match ws with
  | [] => True
  | (_, s, e) :: rest => (lo <= s)%Z /\ ordered e rest
  end.

End ProcessorSpec.

Module BPESpec.
Import Tokenizer Tokenizer.BPE.

Definition noSpace (s : jsstring) : Prop := ~ In 32%N s.

(** [a] and [b] are neighbours in [l]. *)
Fixpoint adjacent (a b : jsstring) (l : list jsstring) : Prop :=
  match l with
  | x :: ((y :: _) as rest) => (x = a /\ y = b) \/ adjacent a b rest
  | _ => False
  end.

Definition byteSymbolOK (b : N) : bool :=
  match mapGet N.eqb buildByteEncoder b with
  | Some [x] => negb (x =? 32)%N
  | _ => false
  end.

(** The ids the tokenizer may return: the unknown-token id, the id of a
    vocabulary entry or of an added token. *)
Definition known (tk : t) (z : Z) : Prop :=
  z = unkTokenId tk
  \/ (exists p, mapGet eqs (vocab tk) p = Some z)
  \/ (exists w, mapGet eqs (addedTokens tk) w = Some z).

End BPESpec.

Module UnigramSpec.
Import Tokenizer Tokenizer.Unigram.

Section WithRuntime.
Context `{FloatOps} `{Unicode}.

(** Every piece that has a score has an id. *)
Definition wellFormed (tk : t) : Prop :=
  forall p sc, mapGet eqs (scores tk) p = Some sc ->
               mapGet eqs (vocab tk) p <> None.

(** The ids the tokenizer may return: the unknown-token id, the id of a
    piece, of a byte-fallback piece or of an added token. *)
Definition known (tk : t) (z : Z) : Prop :=
  z = unkTokenId tk
  \/ (exists p, mapGet eqs (vocab tk) p = Some z)
  \/ (exists b, mapGet N.eqb (byteTokens tk) b = Some z)
  \/ (exists w, mapGet eqs (addedTokens tk) w = Some z).

Definition entryOK (tk : t) (j : nat) (e : entry) : Prop :=
  (0 <= prev e)%Z
  /\ ((0 < j)%nat ->
      (prev e < Z.of_nat j)%Z
      /\ exists z, eid e = Some z /\ (z = (-2)%Z \/ known tk z)).

Definition TableOK (tk : t) (n : nat) (best : table) : Prop :=
  length best = S n
  /\ forall j, (j <= n)%nat ->
       exists e, nth_error best j = Some (Some e) /\ entryOK tk j e.

Definition allKnown (tk : t) (l : list (option Z)) : Prop :=
  Forall (fun o => exists z, o = Some z /\ known tk z) l.

End WithRuntime.
End UnigramSpec.

Module TokenizerSpec.
Import Tokenizer.

Section WithRuntime.
Context `{FloatOps} `{Unicode}.

(** The ids a loaded tokenizer may return. *)
Definition knownId (st : state) (z : Z) : Prop :=
  match st with
  | Some (UnigramTokenizer tk) => UnigramSpec.known tk z
  | Some (BPETokenizer tk) => BPESpec.known tk z
  | None => False
  end.

End WithRuntime.
End TokenizerSpec.

Module DecoderSpec.
Import Decoder.

Section WithRuntime.
Context `{FloatOps}.

(** Two entities do not overlap, as half-open ranges. *)
Definition disjoint (a b : GLiNEREntity) : Prop :=
  (start a >= end_ b)%Z \/ (start b >= end_ a)%Z.

(** No two entities of the list overlap. *)
Definition NoOverlap (l : list GLiNEREntity) : Prop :=
  ForallOrdPairs disjoint l.

(** The list is sorted ascending by start offset. *)
Definition SortedByStart (l : list GLiNEREntity) : Prop :=
  Sorted (fun a b => (start a <= start b)%Z) l.

(** The entities carry pairwise different (start, end, label) triples. *)
Definition DistinctTriples (l : list GLiNEREntity) : Prop :=
  NoDup (map (fun e => (start e, end_ e, label e)) l).

End WithRuntime.
End DecoderSpec.

Module PlaceholderSpec.
Import Anonymization.

(** The number of times the type [t] occurs in [l]. *)
Fixpoint occurrences (t : jsstring) (l : list jsstring) : Z :=
  match l with
  | [] => 0
  | x :: r => (if eqs x t then 1 else 0) + occurrences t r
  end.

(** The placeholders of a sequence of types, each type numbered from 1 on
    in the order of its occurrences; [seen] holds the types met before. *)
Fixpoint numbered (seen types : list jsstring) : list jsstring :=
  match types with
  | [] => []
  | t :: r => placeholderOf t (1 + occurrences t seen) :: numbered (t :: seen) r
  end.

(** The counter of every type is one more than the number of placeholders
    of the type handed out so far, or still unset. *)
Definition CountInv (counters : list (jsstring * Z)) (seen : list jsstring)
  : Prop :=
  forall t, counterOf counters t = (1 + occurrences t seen)%Z
            \/ (counterOf counters t = 0%Z /\ occurrences t seen = 0%Z).



End PlaceholderSpec.

(** The anonymized text seen as a template: stretches of the original text
    and placeholders standing for the values they replaced. *)
Module Template.

Inductive item :=
| Gap (w : jsstring)
| Hole (k v : jsstring).

Definition shown (it : item) : jsstring :=
  match it with
  | Gap w => w
  | Hole k _ => k
  end.

Definition original (it : item) : jsstring :=
  match it with
  | Gap w => w
  | Hole _ v => v
  end.

(** The text with the placeholders, and the text with their values. *)
Definition render (tpl : list item) : jsstring := flat_map shown tpl.
Definition restore (tpl : list item) : jsstring := flat_map original tpl.

(** The placeholders [k] are given their value back. *)
Definition fill (k : jsstring) (it : item) : item :=
  match it with
  | Gap w => Gap w
  | Hole k' v => if eqs k' k then Gap v else Hole k' v
  end.

Fixpoint holes (tpl : list item) : nat :=
  match tpl with
  | [] => 0
  | Gap _ :: tpl' => holes tpl'
  | Hole _ _ :: tpl' => S (holes tpl')
  end.

(** A tag: [<], a body without [<] and [>], and [>]. *)
Definition isTag (k : jsstring) : Prop :=
  exists b, k = 60%N :: b ++ [62%N] /\ ~ In 60%N b /\ ~ In 62%N b.

(** The stretches of text hold no [<]; the values hold no [<] and no [$]. *)
Definition itemOK (it : item) : Prop :=
  match it with
  | Gap w => ~ In 60%N w
  | Hole k v => isTag k /\ ~ In 60%N v /\ ~ In 36%N v
  end.

End Template.

(** The vocabulary of the round trip on the hybrid path. *)
Module Spans.
Import Anonymization.

(** A type that can stand in a placeholder: it holds no [<] and no [>]. *)
Definition safeType (t : jsstring) : Prop := ~ In 60%N t /\ ~ In 62%N t.

(** A match lies inside the text and carries the slice it covers. *)
Definition validMatch (text : jsstring) (mt : PiiMatch) : Prop :=
  (0 <= start mt <= end_ mt)%Z /\ (end_ mt <= jslength text)%Z
  /\ slice text (start mt) (end_ mt) = value mt
  /\ safeType (type mt).

(** Two matches do not overlap. *)
Definition apart (a b : PiiMatch) : Prop :=
  (end_ a <= start b)%Z \/ (end_ b <= start a)%Z.

(** The order of step 3: by start, the longer match first. *)
Definition inOrder (a b : PiiMatch) : Prop :=
  (start a <= start b)%Z /\ (start a = start b -> end_ b <= end_ a)%Z.

(** [b] ends where [a] starts, or before. *)
Definition below (a b : PiiMatch) : Prop := (end_ b <= start a)%Z.

(** A detected entity lies inside the text, carries the slice it covers,
    and its type can stand in a placeholder. *)
Definition entityOK `{FloatOps} (text : jsstring) (e : Decoder.GLiNEREntity)
  : Prop :=
  (0 <= Decoder.start e <= Decoder.end_ e)%Z
  /\ (Decoder.end_ e <= jslength text)%Z
  /\ slice text (Decoder.start e) (Decoder.end_ e) = Decoder.text e
  /\ safeType (typeOfLabel (Decoder.label e)).

Definition safeTypeb (t : jsstring) : bool :=
  forallb (fun c => negb (c =? 60)%N && negb (c =? 62)%N) t.


(** The code unit [c] does not occur in [s]. *)
Definition without (c : N) (s : jsstring) : bool :=
  negb (existsb (N.eqb c) s).

(** What is known of two matches [a], [b] of step 3, [a] the first. *)
Definition kept (a b : PiiMatch) : Prop :=
  inOrder a b /\ apart a b
  /\ (start a <= end_ a)%Z /\ (start b <= end_ b)%Z.

Section Descending.
Context {A : Type} (key : A -> Z) (S : A -> A -> Prop).

(** Two elements of the sorted list: the first has the greater key, or
    they have the same key and came in this order. *)
Definition descending (a b : A) : Prop :=
  ((key b < key a)%Z /\ (S a b \/ S b a)) \/ (key a = key b /\ S a b).

End Descending.

End Spans.

(** The vocabulary of span validity. *)
Module ValiditySpec.
Import Decoder.

(** An entity is a span of the text: it lies inside the text, is not
    empty, carries the slice it covers, and its label is read from the
    label array. *)
Definition spanOK `{FloatOps} (text : jsstring) (labels : list jsstring)
  (e : GLiNEREntity) : Prop :=
  (0 <= start e < end_ e)%Z /\ (end_ e <= jslength text)%Z
  /\ Decoder.text e = slice text (start e) (end_ e)
  /\ exists k, label e = nthZ labels k.

(** An entry of the span arrays: masked out, or the span of a word [i] and
    of a width [w]. *)
Definition spanWF (c : (Z * Z) * Z) : Prop :=
  snd c = 0%Z
  \/ exists i w, fst c = (i, (i + w)%Z) /\ (0 <= i)%Z /\ (0 <= w)%Z.

(** The entity runs from the start of a word to the end of the same or of
    a later word. *)
Definition wordSpan `{FloatOps} (words : list (jsstring * Z * Z))
  (e : GLiNEREntity) : Prop :=
  exists i j wi ei wj sj,
    (i <= j)%nat
    /\ nth_error words i = Some (wi, start e, ei)
    /\ nth_error words j = Some (wj, sj, end_ e).

Definition alignedOK `{FloatOps} (text : jsstring) (labels : list jsstring)
  (words : list (jsstring * Z * Z)) (e : GLiNEREntity) : Prop :=
  spanOK text labels e /\ wordSpan words e.

End ValiditySpec.

Module CoverageSpec.
Import Regex.

(** A pattern every match of which sets the capture group. *)
Fixpoint captures (r : regex) : bool :=
  match r with
  | Eps | WordB | Chr _ => false
  | Seq a b => captures a || captures b
  | Alt a b => captures a && captures b
  | Rep lo _ a => (0 <? lo)%nat && captures a
  | Group _ => true
  end.

(** The number of matches of the type [ty]. *)
Definition countType (ty : jsstring) (ms : list Anonymization.PiiMatch) : Z :=
  Z.of_nat (length (filter (fun mt => eqs (Anonymization.type mt) ty) ms)).

End CoverageSpec.

Module BatchSpec.


End BatchSpec.

Module ClassSpec.
Import Regex.

(** Every class of the pattern accepts only code units for which [P]
    holds. *)
Fixpoint classesIn (P : N -> Prop) (r : regex) : Prop :=
  match r with
  | Eps | WordB => True
  | Chr p => forall c, p c = true -> P c
  | Seq a b | Alt a b => classesIn P a /\ classesIn P b
  | Rep _ _ a | Group a => classesIn P a
  end.

Definition visible (c : N) : Prop := isSpace c = false.

End ClassSpec.

Module TerminationSpec.
Import Tokenizer Inference.

(** The computation returns or throws. *)
Definition halts {A} (r : result A) : Prop := r <> Diverges.

(** The tokenizer of the state was built by [initTokenizer]. *)
Definition loaded `{FloatOps} `{Unicode} (st : State) : Prop :=
  exists tokenizerJson, initTokenizer tokenizerJson = Ok (_tokenizer st).

End TerminationSpec.

Module VocabularySpec.
Import Tokenizer Tokenizer.Unigram.

(** The byte-level symbol of a byte, as [encodeByteLevelBPE] reads it. *)
Definition byteSymbol (b : N) : jsstring :=
  orElse (mapGet N.eqb buildByteEncoder b) (fromCodePoint b).

(** The strings of the list are pairwise different. *)
Fixpoint distinctb (l : list jsstring) : bool :=
  match l with
  | [] => true
  | x :: rest => negb (existsb (eqs x) rest) && distinctb rest
  end.

(** No two bytes share a symbol. *)
Definition byteSymbolsDiffer : bool :=
  distinctb (map byteSymbol (rangeN 0 255)).

Section WithRuntime.
Context `{FloatOps} `{Unicode}.

(** The tables of the tokenizer after the entries [entries] of the
    vocabulary: a piece has the index and the score of its first entry, and
    is not longer than [maxPieceLength]. *)
Definition firstWins (entries : list (jsstring * float)) (tk : Unigram.t)
  : Prop :=
  forall p,
    match mapGet eqs (vocab tk) p with
    | Some i =>
        exists k sc,
          i = Z.of_nat k
          /\ nth_error entries k = Some (p, sc)
          /\ (forall j e, (j < k)%nat -> nth_error entries j = Some e ->
                          fst e <> p)
          /\ mapGet eqs (scores tk) p = Some sc
          /\ (jslength p <= maxPieceLength tk)%Z
    | None => ~ In p (map fst entries)
    end.

End WithRuntime.
End VocabularySpec.

Module EntitySpec.
Import Decoder.

Section WithRuntime.
Context `{FloatOps}.

(** The score of the entity is above the threshold. *)
Definition above (threshold : float) (e : GLiNEREntity) : Prop :=
  fgt (score e) threshold = true.

(** Two entities of one inference: apart and not empty. *)
Definition separate (a b : GLiNEREntity) : Prop :=
  DecoderSpec.disjoint a b
  /\ (start a < end_ a)%Z
  /\ (start b < end_ b)%Z.

End WithRuntime.
End EntitySpec.

Module RankSpec.
Import Tokenizer Tokenizer.BPE.

(** [best] is a pair of lowest rank among the pairs [Q], with its rank;
    [None] when no pair of [Q] has a rank. *)
Definition lowest (tk : BPE.t) (Q : jsstring -> jsstring -> Prop)
  (best : option (jsstring * Z)) : Prop :=
  match best with
  | Some (p, r) =>
      mapGet eqs (mergeRanks tk) p = Some r
      /\ (exists a b, p = a ++ 32%N :: b /\ Q a b)
      /\ forall a b r', Q a b ->
           mapGet eqs (mergeRanks tk) (a ++ 32%N :: b) = Some r' ->
           (r <= r')%Z
  | None =>
      forall a b, Q a b -> mapGet eqs (mergeRanks tk) (a ++ 32%N :: b) = None
  end.

End RankSpec.

Module WordPieceSpec.
Import Tokenizer Tokenizer.BPE.

(** The piece looked up for the code units from [start] to [e]. *)
Definition pieceAt (word : jsstring) (start e : Z) : jsstring :=
  if (0 <? start)%Z then str "##" ++ slice word start e
  else slice word start e.

(** No piece that starts at [start] and ends after [e] is in the
    vocabulary. *)
Definition noLonger (tk : BPE.t) (word : jsstring) (start e : Z) : Prop :=
  forall e', (e < e' <= jslength word)%Z ->
             mapGet eqs (vocab tk) (pieceAt word start e') = None.

(** [ids] encodes the word from [start] on, longest piece first: every id
    is the id of the longest piece of the vocabulary at its position, or
    the unknown-token id for one code unit where there is no piece. *)
Inductive Segmented (tk : BPE.t) (word : jsstring) : Z -> list Z -> Prop :=
| seg_done start :
    (jslength word <= start)%Z -> Segmented tk word start []
| seg_piece start e i ids :
    (start < e <= jslength word)%Z ->
    mapGet eqs (vocab tk) (pieceAt word start e) = Some i ->
    noLonger tk word start e ->
    Segmented tk word e ids ->
    Segmented tk word start (i :: ids)
| seg_unk start ids :
    (start < jslength word)%Z ->
    noLonger tk word start start ->
    Segmented tk word (start + 1) ids ->
    Segmented tk word start (unkTokenId tk :: ids).

End WordPieceSpec.

(** Case analysis on the first computation of a chain of binds. *)
Ltac bind_step H :=
  cbv zeta in H;
  match type of H with
  | bind ?c _ = Ok _ =>
      let x := fresh "x" in
      let E := fresh "E" in
      destruct c as [x| |] eqn:E; cbn [bind] in H;
      [|discriminate H|discriminate H]
  end.

(* ===================================================================== *)
(** * Part III. Properties                                                *)
(* ===================================================================== *)

Import RegexSpec ProcessorSpec TokenizerSpec DecoderSpec PlaceholderSpec Template Spans
       ValiditySpec CoverageSpec BatchSpec ClassSpec TerminationSpec
       VocabularySpec EntitySpec RankSpec WordPieceSpec.

Module RegexFacts.
Import Regex.

Lemma iter_snoc n R st mid st' :
  iter n R st mid -> R mid st' -> iter (S n) R st st'.
Proof.
  revert st. induction n as [|n IH]; simpl; intros st Hi Hr.
  - subst. exists st'. split; [assumption | reflexivity].
  - destruct Hi as (m1 & H1 & H2). exists m1. split; [assumption|].
    apply IH; assumption.
Qed.

(** Soundness of the matcher: an answer comes from the continuation, after
    a match of the pattern. *)
Lemma m_sound r : forall st k e,
  m r st k = Some e -> exists st', Matches r st st' /\ k st' = Some e.
Proof.
  induction r as [|p|a IHa b IHb|a IHa b IHb|lo hi a IHa| |a IHa];
    intros st k e Hm; [simpl in Hm|simpl in Hm|simpl in Hm|simpl in Hm| |simpl in Hm|simpl in Hm].
  - exists st. split; [reflexivity | assumption].
  - destruct (after st) as [|c rest] eqn:Ha; [discriminate|].
    destruct (p c) eqn:Hp; [|discriminate].
    eexists. split; [|exact Hm]. simpl. exists c, rest. auto.
  - apply IHa in Hm. destruct Hm as (mid & Hmid & Hb).
    apply IHb in Hb. destruct Hb as (st' & Hst' & Hk).
    exists st'. split; [|assumption]. simpl. exists mid. auto.
  - destruct (m a st k) eqn:H1.
    + inversion Hm; subst. apply IHa in H1. destruct H1 as (st' & ? & ?).
      exists st'. simpl. auto.
    + apply IHb in Hm. destruct Hm as (st' & ? & ?). exists st'. simpl. auto.
  - (* Rep *)
    set (rep := fix rep (fuel n : nat) (st : mstate) {struct fuel} : option mstate :=
         match fuel with
         | O => None
         | S fuel' =>
             if (n <? lo)%nat then
               m a st (fun st' => rep fuel' (S n) st')
             else if belowMax hi n then
               match m a st (fun st' =>
                               if (pos st <? pos st')%nat
                               then rep fuel' (S n) st' else None) with
               | Some e => Some e
               | None => k st
               end
             else k st
         end) in *.
    assert (Hrep : forall fuel n st0 e0, rep fuel n st0 = Some e0 ->
              exists j st', iter j (Matches a) st0 st' /\ (lo <= n + j)%nat
                            /\ k st' = Some e0).
    { induction fuel as [|fuel IHf]; intros n st0 e0 Hr; simpl in Hr.
      - discriminate.
      - destruct (n <? lo)%nat eqn:Hlo.
        + apply IHa in Hr. destruct Hr as (mid & Hmid & Hr).
          apply IHf in Hr. destruct Hr as (j & st' & Hit & Hle & Hk).
          exists (S j), st'. split; [|split; [lia|assumption]].
          simpl. exists mid. auto.
        + apply Nat.ltb_ge in Hlo.
          assert (Hstop : k st0 = Some e0 ->
                    exists j st', iter j (Matches a) st0 st' /\ (lo <= n + j)%nat
                                  /\ k st' = Some e0).
          { intros Hk. exists O, st0. simpl. repeat split; [lia|assumption]. }
          destruct (belowMax hi n); [|auto].
          destruct (m a st0 _) eqn:H1; [|auto].
          inversion Hr; subst. apply IHa in H1.
          destruct H1 as (mid & Hmid & H1).
          destruct (pos st0 <? pos mid)%nat; [|discriminate].
          apply IHf in H1. destruct H1 as (j & st' & Hit & Hle & Hk).
          exists (S j), st'. split; [|split; [lia|assumption]].
          simpl. exists mid. auto. }
    destruct (Hrep (S (lo + length (after st))) O st e Hm)
      as (j & st' & Hit & Hle & Hk).
    exists st'. split; [|assumption]. simpl. exists j. split; [lia|assumption].
  - destruct (atBoundary st) eqn:Hb; [|discriminate].
    exists st. simpl. auto.
  - apply IHa in Hm. destruct Hm as (st1 & H1 & Hk).
    eexists. split; [|exact Hk]. simpl. exists st1. auto.
Qed.

Lemma Ext_refl st : Ext st [] st.
Proof. split; reflexivity. Qed.

Lemma Ext_trans st w1 mid w2 st' :
  Ext st w1 mid -> Ext mid w2 st' -> Ext st (w1 ++ w2) st'.
Proof.
  intros [H1 H2] [H3 H4]. split.
  - rewrite H1, H3, app_assoc. reflexivity.
  - rewrite H4, H2, rev_app_distr, app_assoc. reflexivity.
Qed.

Lemma Ext_pos st w st' : Ext st w st' -> pos st' = (length w + pos st)%nat.
Proof.
  intros [_ H2]. unfold pos. rewrite H2, length_app, length_rev. reflexivity.
Qed.

Lemma Ext_text st w st' :
  Ext st w st' -> rev (before st') ++ after st' = rev (before st) ++ after st.
Proof.
  intros [H1 H2]. rewrite H2, H1, rev_app_distr, rev_involutive, <- app_assoc.
  reflexivity.
Qed.

Lemma iter_Ext (R : mstate -> mstate -> Prop) :
  (forall st st', R st st' -> exists w, Ext st w st') ->
  forall n st st', iter n R st st' -> exists w, Ext st w st'.
Proof.
  intros HR. induction n as [|n IH]; simpl; intros st st' Hi.
  - subst. exists []. apply Ext_refl.
  - destruct Hi as (mid & H1 & H2). apply HR in H1. apply IH in H2.
    destruct H1 as (w1 & H1), H2 as (w2 & H2).
    exists (w1 ++ w2). eapply Ext_trans; eassumption.
Qed.

Lemma Matches_Ext r : forall st st',
  Matches r st st' -> exists w, Ext st w st'.
Proof.
  induction r as [|p|a IHa b IHb|a IHa b IHb|lo hi a IHa| |a IHa];
    simpl; intros st st' Hm.
  - subst. exists []. apply Ext_refl.
  - destruct Hm as (c & rest & Ha & _ & ->). exists [c].
    split; simpl; [assumption | reflexivity].
  - destruct Hm as (mid & H1 & H2). apply IHa in H1. apply IHb in H2.
    destruct H1 as (w1 & H1), H2 as (w2 & H2).
    exists (w1 ++ w2). eapply Ext_trans; eassumption.
  - destruct Hm as [Hm|Hm]; auto.
  - destruct Hm as (n & _ & Hi). eapply iter_Ext; eauto.
  - destruct Hm as [-> _]. exists []. apply Ext_refl.
  - destruct Hm as (st1 & H1 & ->). apply IHa in H1.
    destruct H1 as (w & H1 & H2). exists w. split; assumption.
Qed.

Lemma Matches_mono r st st' : Matches r st st' -> (pos st <= pos st')%nat.
Proof.
  intros Hm. apply Matches_Ext in Hm. destruct Hm as (w & Hw).
  apply Ext_pos in Hw. lia.
Qed.

Lemma iter_mono r : forall n st st',
  iter n (Matches r) st st' -> (pos st <= pos st')%nat.
Proof.
  induction n as [|n IH]; simpl; intros st st' Hi.
  - subst. lia.
  - destruct Hi as (mid & H1 & H2). apply Matches_mono in H1.
    apply IH in H2. lia.
Qed.

Lemma Matches_consumes r : forall st st',
  consumes r = true -> Matches r st st' -> (pos st < pos st')%nat.
Proof.
  induction r as [|p|a IHa b IHb|a IHa b IHb|lo hi a IHa| |a IHa];
    simpl; intros st st' Hc Hm; try discriminate.
  - destruct Hm as (c & rest & _ & _ & ->). unfold pos. simpl. lia.
  - destruct Hm as (mid & H1 & H2).
    pose proof (@Matches_mono _ _ _ H1). pose proof (@Matches_mono _ _ _ H2).
    apply orb_true_iff in Hc. destruct Hc as [Hc|Hc].
    + specialize (IHa _ _ Hc H1). lia.
    + specialize (IHb _ _ Hc H2). lia.
  - apply andb_true_iff in Hc. destruct Hc. destruct Hm; eauto.
  - apply andb_true_iff in Hc. destruct Hc as [Hlo Hc].
    apply Nat.ltb_lt in Hlo. destruct Hm as (n & Hn & Hi).
    destruct n as [|n]; [lia|]. simpl in Hi.
    destruct Hi as (mid & H1 & H2). specialize (IHa _ _ Hc H1).
    apply iter_mono in H2. lia.
  - destruct Hm as (st1 & H1 & ->). specialize (IHa _ _ Hc H1).
    unfold pos in *. simpl. lia.
Qed.

(** *** The exec loop *)

Lemma execFrom_sound r : forall aft bef start e,
  execFrom r bef aft = Some (start, e) ->
  exists st0, Matches r st0 e /\ cap1 st0 = None
              /\ rev (before st0) ++ after st0 = rev bef ++ aft
              /\ pos st0 = start /\ (length bef <= start)%nat.
Proof.
  induction aft as [|c aft IH]; intros bef start e He; simpl in He.
  - destruct (m r _ _) eqn:Hm; [|discriminate]. inversion He; subst.
    apply m_sound in Hm. destruct Hm as (st' & Hm & Hk). inversion Hk; subst.
    eexists. split; [exact Hm|]. simpl. unfold pos. simpl. auto.
  - destruct (m r _ _) eqn:Hm.
    + inversion He; subst.
      apply m_sound in Hm. destruct Hm as (st' & Hm & Hk). inversion Hk; subst.
      eexists. split; [exact Hm|]. simpl. unfold pos. simpl. auto.
    + apply IH in He. destruct He as (st0 & H1 & H2 & H3 & H4 & H5).
      exists st0. repeat split; try assumption.
      * rewrite H3. simpl. rewrite <- app_assoc. reflexivity.
      * simpl in H5. lia.
Qed.

Lemma execLoop_sound r : forall fuel bef aft ms,
  execLoop fuel r bef aft = Ok ms ->
  Forall (MatchAt r (rev bef ++ aft)) ms /\ Chain (length bef) ms.
Proof.
  induction fuel as [|fuel IH]; intros bef aft ms He; simpl in He.
  - discriminate.
  - destruct (execFrom r bef aft) as [[start e]|] eqn:Hx.
    + destruct (start <? pos e)%nat eqn:Hlt; [|discriminate].
      destruct (execLoop fuel r (before e) (after e)) as [rest| |] eqn:Hr;
        simpl in He; try discriminate.
      inversion He; subst. apply Nat.ltb_lt in Hlt.
      apply execFrom_sound in Hx.
      destruct Hx as (st0 & H1 & H2 & H3 & H4 & H5).
      apply IH in Hr. destruct Hr as [Hf Hc].
      pose proof (@Matches_Ext _ _ _ H1) as (w & Hw).
      pose proof (Ext_text Hw) as Ht.
      split.
      * constructor.
        -- exists st0, e. simpl. repeat split; auto.
        -- rewrite Ht, H3 in Hf. exact Hf.
      * simpl. repeat split; auto.
    + inversion He; subst. split; constructor.
Qed.

Lemma execLoop_total r : consumes r = true ->
  forall fuel bef aft, (length aft < fuel)%nat ->
  exists ms, execLoop fuel r bef aft = Ok ms.
Proof.
  intros Hc. induction fuel as [|fuel IH]; intros bef aft Hlen; [lia|].
  simpl. destruct (execFrom r bef aft) as [[start e]|] eqn:Hx.
  - apply execFrom_sound in Hx.
    destruct Hx as (st0 & H1 & H2 & H3 & H4 & H5).
    pose proof (@Matches_consumes _ _ _ Hc H1) as Hlt.
    rewrite H4 in Hlt. apply Nat.ltb_lt in Hlt. rewrite Hlt.
    destruct (IH (before e) (after e)) as (rest & Hr).
    { apply Nat.ltb_lt in Hlt.
      pose proof (@Matches_Ext _ _ _ H1) as (w & Hw).
      pose proof (Ext_text Hw) as Ht. rewrite H3 in Ht.
      apply (f_equal (@length N)) in Ht.
      rewrite !length_app, !length_rev in Ht. unfold pos in *. lia. }
    rewrite Hr. simpl. eauto.
  - eauto.
Qed.

End RegexFacts.

Module JSFacts.

Lemma clampIndex_nat len k :
  (k <= len)%nat -> clampIndex (Z.of_nat len) (Z.of_nat k) = k.
Proof.
  intros Hk. unfold clampIndex.
  destruct (Z.ltb_spec (Z.of_nat k) 0); [lia|].
  rewrite Z.min_l by lia. apply Nat2Z.id.
Qed.

Lemma slice_nat (s : jsstring) a b :
  (a <= b)%nat -> (b <= length s)%nat ->
  slice s (Z.of_nat a) (Z.of_nat b) = firstn (b - a) (skipn a s).
Proof.
  intros Hab Hb. unfold slice, jslength.
  rewrite !clampIndex_nat by lia. reflexivity.
Qed.

Lemma sliceFrom_nat (s : jsstring) a :
  (a <= length s)%nat -> sliceFrom s (Z.of_nat a) = skipn a s.
Proof.
  intros Ha. unfold sliceFrom, jslength. rewrite clampIndex_nat by lia.
  reflexivity.
Qed.

End JSFacts.

Module ProcessorFacts.
Import Regex RegexFacts JSFacts Processor.

Lemma MatchAt_bounds r T mt :
  MatchAt r T mt -> (mstart mt <= mend mt)%nat /\ (mend mt <= length T)%nat.
Proof.
  intros (st0 & e & Hm & _ & HT & Hs & He & _).
  pose proof (@Matches_Ext _ _ _ Hm) as (w & Hw).
  pose proof (Ext_pos Hw) as Hp. pose proof (Ext_text Hw) as Ht.
  rewrite HT in Ht. apply (f_equal (@length N)) in Ht.
  rewrite length_app, length_rev in Ht. unfold pos in *. lia.
Qed.

Lemma wordRegex_consumes : consumes wordRegex = true.
Proof. reflexivity. Qed.

Lemma words_of_matches text : forall ms lo,
  Forall (MatchAt wordRegex text) ms -> Chain lo ms ->
  let words := map (fun mt => (matchText text mt, Z.of_nat (mstart mt),
                               Z.of_nat (mend mt))) ms in
  Forall (wordOK text) words /\ ordered (Z.of_nat lo) words.
Proof.
  induction ms as [|mt ms IH]; intros lo Hf Hc; simpl.
  - split; constructor.
  - inversion Hf as [|? ? Hmt Hrest]; subst. simpl in Hc.
    destruct Hc as (Hlo & Hlt & Hc).
    destruct (IH _ Hrest Hc) as [IH1 IH2].
    pose proof (MatchAt_bounds Hmt) as [_ Hle].
    split.
    + constructor; [|exact IH1]. unfold wordOK, jslength.
      repeat split; try lia.
      unfold matchText. rewrite slice_nat by lia. reflexivity.
    + split; [lia | exact IH2].
Qed.

(** C10. The word-splitting pass returns, for every text, triples (word,
    start, end) that are ordered and disjoint: each one satisfies
    [0 <= start < end <= length text], its word is the slice of the text
    between its offsets, and it starts at or after the end of the one
    before it. *)
Theorem splitWords_ordered_disjoint (text : jsstring) :
  exists words,
    splitWords text = Ok words
    /\ Forall (wordOK text) words
    /\ ordered 0 words.
Proof.
  unfold splitWords, execAll.
  destruct (@execLoop_total wordRegex wordRegex_consumes
              (S (length text)) [] text) as (ms & Hms); [lia|].
  rewrite Hms. simpl. eexists. split; [reflexivity|].
  apply execLoop_sound in Hms. destruct Hms as [Hf Hc].
  simpl in Hf. exact (words_of_matches 0 Hf Hc).
Qed.

End ProcessorFacts.

Module ListFacts.

Lemma mapR_Ok {A B} (f : A -> result B) : forall l ys,
  mapR f l = Ok ys ->
  length ys = length l
  /\ forall k x, nth_error l k = Some x ->
       exists y, f x = Ok y /\ nth_error ys k = Some y.
Proof.
  induction l as [|a l IH]; intros ys Hm; simpl in Hm.
  - inversion Hm; subst. split; [reflexivity|].
    intros [|k] x Hx; discriminate.
  - destruct (f a) as [y| |] eqn:Hy; simpl in Hm; try discriminate.
    destruct (mapR f l) as [ys'| |] eqn:Hr; simpl in Hm; try discriminate.
    inversion Hm; subst. destruct (IH _ eq_refl) as [IH1 IH2].
    split; [simpl; congruence|].
    intros [|k] x Hx; simpl in Hx.
    + inversion Hx; subst. exists y. auto.
    + apply IH2 in Hx. exact Hx.
Qed.

Lemma mapR_all_Ok {A B} (f : A -> result B) (l : list A) :
  (forall x, In x l -> exists y, f x = Ok y) -> exists ys, mapR f l = Ok ys.
Proof.
  induction l as [|a l IH]; intros Hf; simpl.
  - eauto.
  - destruct (Hf a (or_introl eq_refl)) as (y & ->). simpl.
    destruct IH as (ys & ->); [intros; apply Hf; right; assumption|].
    simpl. eauto.
Qed.

Lemma mapR_In {A B} (f : A -> result B) : forall l ys y,
  mapR f l = Ok ys -> In y ys -> exists x, In x l /\ f x = Ok y.
Proof.
  induction l as [|a l IH]; intros ys y Hm Hy; simpl in Hm.
  - inversion Hm; subst. destruct Hy.
  - destruct (f a) as [y0| |] eqn:Hy0; simpl in Hm; try discriminate.
    destruct (mapR f l) as [ys'| |] eqn:Hr; simpl in Hm; try discriminate.
    inversion Hm; subst. destruct Hy as [<-|Hy].
    + exists a. split; [left; reflexivity | assumption].
    + destruct (IH _ _ eq_refl Hy) as (x & Hx & Hfx).
      exists x. split; [right; assumption | assumption].
Qed.

(** A [flat_map] whose blocks all have [k] elements. *)
Lemma flat_map_blocks {A B} (f : A -> list B) (k : nat) : forall l,
  (forall x, In x l -> length (f x) = k) ->
  length (flat_map f l) = (length l * k)%nat
  /\ forall i x w, nth_error l i = Some x -> (w < k)%nat ->
       nth_error (flat_map f l) (i * k + w) = nth_error (f x) w.
Proof.
  induction l as [|a l IH]; intros Hk; simpl.
  - split; [reflexivity|]. intros [|i] x w Hx; discriminate.
  - destruct IH as [IH1 IH2]; [intros; apply Hk; right; assumption|].
    pose proof (Hk a (or_introl eq_refl)) as Ha.
    split; [rewrite length_app; lia|].
    intros [|i] x w Hx Hw; simpl in Hx.
    + inversion Hx; subst. simpl. rewrite nth_error_app1 by lia. reflexivity.
    + rewrite nth_error_app2 by (simpl; lia).
      replace (S i * k + w - length (f a))%nat with (i * k + w)%nat
        by (simpl; lia).
      apply IH2; assumption.
Qed.

Lemma upto_length n : length (upto n) = Z.to_nat n.
Proof. unfold upto. rewrite length_map, length_seq. reflexivity. Qed.

Lemma upto_nth n i :
  (0 <= i < n)%Z -> nth_error (upto n) (Z.to_nat i) = Some i.
Proof.
  intros Hi. unfold upto. rewrite nth_error_map.
  rewrite nth_error_seq.
  destruct (Nat.ltb_spec (Z.to_nat i) (Z.to_nat n)); [|lia].
  simpl. f_equal. lia.
Qed.

Lemma upto_In n i : In i (upto n) <-> (0 <= i < n)%Z.
Proof.
  unfold upto. rewrite in_map_iff. split.
  - intros (k & <- & Hk). apply in_seq in Hk. lia.
  - intros Hi. exists (Z.to_nat i). split; [lia|]. apply in_seq. lia.
Qed.

End ListFacts.

Module SpanFacts.
Import ListFacts Processor.

Section WithRuntime.
Context `{FloatOps} `{Unicode}.

Lemma buildTokenSequence_words tok text entities entToken sepToken sq :
  buildTokenSequence tok text entities entToken sepToken = Ok sq ->
  splitWords text = Ok (s_words sq).
Proof.
  unfold buildTokenSequence. intros Hb.
  destruct (Tokenizer.getSpecialTokenId tok entToken); simpl in Hb; try discriminate.
  destruct (Tokenizer.getSpecialTokenId tok sepToken); simpl in Hb; try discriminate.
  destruct (Tokenizer.getClsTokenId tok); simpl in Hb; try discriminate.
  destruct (promptIds tok _ entities); simpl in Hb; try discriminate.
  destruct (splitWords text) as [words| |]; simpl in Hb; try discriminate.
  destruct (wordTokens tok words 1); simpl in Hb; try discriminate.
  inversion Hb; subst. reflexivity.
Qed.

Lemma spanAt_spec numWords i w :
  spanAt numWords i w
  = if (i + w <? numWords)%Z then ((i, (i + w)%Z), 1%Z) else ((0%Z, 0%Z), 0%Z).
Proof. reflexivity. Qed.

Lemma enumerateSpans_spec numWords maxWidth :
  length (enumerateSpans numWords maxWidth)
  = (Z.to_nat numWords * Z.to_nat maxWidth)%nat
  /\ forall i w, (0 <= i < numWords)%Z -> (0 <= w < maxWidth)%Z ->
       nth_error (enumerateSpans numWords maxWidth)
                 (Z.to_nat (i * maxWidth + w))
       = Some (spanAt numWords i w).
Proof.
  unfold enumerateSpans.
  destruct (@flat_map_blocks Z _
              (fun i => map (spanAt numWords i) (upto maxWidth))
              (Z.to_nat maxWidth) (upto numWords)) as [Hl Hn].
  { intros x _. rewrite length_map. apply upto_length. }
  split.
  - rewrite Hl, upto_length. reflexivity.
  - intros i w Hi Hw.
    replace (Z.to_nat (i * maxWidth + w))
      with (Z.to_nat i * Z.to_nat maxWidth + Z.to_nat w)%nat by nia.
    rewrite (Hn (Z.to_nat i) i (Z.to_nat w)).
    + rewrite nth_error_map, upto_nth by lia. reflexivity.
    + apply upto_nth. lia.
    + lia.
Qed.

(** The candidate spans of an example: [numWords * maxWidth] of them, the
    span of word [i] and width [w] at index [i * maxWidth + w], and one
    dummy span when the text has no word. *)
Lemma candidateSpans_spec numWords maxWidth :
  (0 <= numWords)%Z -> (0 < maxWidth)%Z ->
  let cs := candidateSpans numWords maxWidth in
  (numWords = 0%Z -> cs = [((0%Z, 0%Z), 0%Z)])
  /\ (0 < numWords -> Z.of_nat (length cs) = numWords * maxWidth)%Z
  /\ (forall i w, (0 <= i < numWords)%Z -> (0 <= w < maxWidth)%Z ->
        nth_error cs (Z.to_nat (i * maxWidth + w))
        = Some (if (i + w <? numWords)%Z
                then ((i, (i + w)%Z), 1%Z) else ((0%Z, 0%Z), 0%Z)))
  /\ (1 <= length cs)%nat.
Proof.
  intros Hn Hw cs.
  destruct (enumerateSpans_spec numWords maxWidth) as [Hl Hnth].
  assert (Hcs : (0 < numWords)%Z -> cs = enumerateSpans numWords maxWidth).
  { intros Hpos. unfold cs, candidateSpans.
    destruct (enumerateSpans numWords maxWidth) eqn:He; [|reflexivity].
    simpl in Hl. nia. }
  repeat split.
  - intros ->. reflexivity.
  - intros Hpos. rewrite (Hcs Hpos), Hl. nia.
  - intros i w Hi Hwi. rewrite Hcs by lia. rewrite Hnth by assumption.
    reflexivity.
  - unfold cs, candidateSpans.
    destruct (enumerateSpans numWords maxWidth); simpl; lia.
Qed.

(** C9. Span-mode batch construction keeps a fixed number of candidate
    spans per example: before the batch-wide padding, example [k] carries
    exactly the spans [candidateSpans numWords maxWidth], that is
    [numWords * maxWidth] spans, the one of word [i] and width [w] at index
    [i * maxWidth + w], masked out when it leaves the text; a text without
    words carries exactly one dummy span, masked out. The rest of the arrays
    is padding. *)
Theorem prepareSpanBatch_candidate_spans
  tok texts entities maxWidth entToken sepToken batch :
  (0 < maxWidth)%Z ->
  prepareSpanBatch tok texts entities maxWidth entToken sepToken = Ok batch ->
  exists idxs masks,
    spanIdx batch = Some idxs /\ spanMask batch = Some masks
    /\ forall k text, nth_error texts k = Some text ->
         exists words pad,
           splitWords text = Ok words
           /\ let numWords := Z.of_nat (length words) in
              let cs := candidateSpans numWords maxWidth in
              nth_error idxs k = Some (map fst cs ++ repeat (0%Z, 0%Z) pad)
              /\ nth_error masks k = Some (map snd cs ++ repeat 0%Z pad)
              /\ (numWords = 0%Z -> cs = [((0%Z, 0%Z), 0%Z)])
              /\ (0 < numWords ->
                  Z.of_nat (length cs) = numWords * maxWidth)%Z
              /\ (forall i w,
                    (0 <= i < numWords)%Z -> (0 <= w < maxWidth)%Z ->
                    nth_error cs (Z.to_nat (i * maxWidth + w))
                    = Some (if (i + w <? numWords)%Z
                            then ((i, (i + w)%Z), 1%Z)
                            else ((0%Z, 0%Z), 0%Z)))
              /\ (1 <= length cs)%nat.
Proof.
  intros Hw Hb. unfold prepareSpanBatch in Hb.
  destruct (mapR _ texts) as [seqs| |] eqn:Hseqs; simpl in Hb; try discriminate.
  inversion Hb; subst; clear Hb. simpl.
  eexists. eexists. split; [reflexivity|]. split; [reflexivity|].
  intros k text Hk.
  destruct (mapR_Ok _ _ Hseqs) as [_ Hnth].
  destruct (Hnth _ _ Hk) as (sq & Hsq & Hksq).
  apply buildTokenSequence_words in Hsq.
  set (allSpans := map (fun s => candidateSpans (Z.of_nat (length (s_words s)))
                                                maxWidth) seqs).
  exists (s_words sq),
         (maxLength allSpans
          - length (candidateSpans (Z.of_nat (length (s_words sq))) maxWidth))%nat.
  split; [exact Hsq|]. cbv zeta.
  split; [|split].
  - rewrite !nth_error_map. unfold allSpans. rewrite nth_error_map, Hksq.
    simpl. unfold padTo. rewrite map_app, map_repeat. reflexivity.
  - rewrite !nth_error_map. unfold allSpans. rewrite nth_error_map, Hksq.
    simpl. unfold padTo. rewrite map_app, map_repeat. reflexivity.
  - apply candidateSpans_spec; lia.
Qed.

End WithRuntime.
End SpanFacts.

Module StringFacts.

Lemma eqs_eq a : forall b, eqs a b = true <-> a = b.
Proof.
  induction a as [|x a IH]; intros [|y b]; simpl; split; intros Hx;
    try reflexivity; try discriminate.
  - apply andb_true_iff in Hx. destruct Hx as [Hxy Hab].
    apply N.eqb_eq in Hxy. apply IH in Hab. congruence.
  - inversion Hx; subst. rewrite N.eqb_refl. simpl. apply IH. reflexivity.
Qed.

Lemma eqs_refl a : eqs a a = true.
Proof. apply eqs_eq. reflexivity. Qed.

Lemma eqs_neq a b : eqs a b = false <-> a <> b.
Proof.
  split.
  - intros Hf Heq. apply eqs_eq in Heq. congruence.
  - intros Hn. destruct (eqs a b) eqn:He; [|reflexivity].
    apply eqs_eq in He. contradiction.
Qed.

End StringFacts.

Module BPEFacts.
Import StringFacts ListFacts Tokenizer Tokenizer.BPE BPESpec.

Lemma splitSpaceAux_noSpace a : forall cur,
  noSpace a -> splitSpaceAux a cur = [rev cur ++ a].
Proof.
  induction a as [|x a IH]; intros cur Hn; simpl.
  - rewrite app_nil_r. reflexivity.
  - destruct (N.eqb_spec x 32) as [->|Hx].
    + exfalso. apply Hn. left. reflexivity.
    + rewrite IH.
      * simpl. rewrite <- app_assoc. reflexivity.
      * intros Hin. apply Hn. right. assumption.
Qed.

Lemma splitSpaceAux_pair a b : forall cur,
  noSpace a -> noSpace b ->
  splitSpaceAux (a ++ 32%N :: b) cur = [rev cur ++ a; b].
Proof.
  induction a as [|x a IH]; intros cur Ha Hb; simpl.
  - rewrite app_nil_r. f_equal. apply (splitSpaceAux_noSpace [] Hb).
  - destruct (N.eqb_spec x 32) as [->|Hx].
    + exfalso. apply Ha. left. reflexivity.
    + rewrite IH; [|intros Hin; apply Ha; right; assumption|assumption].
      simpl. rewrite <- app_assoc. reflexivity.
Qed.

Lemma splitSpace_pair a b :
  noSpace a -> noSpace b -> splitSpace (a ++ 32%N :: b) = [a; b].
Proof. intros. unfold splitSpace. rewrite splitSpaceAux_pair; auto. Qed.

Lemma findBestFrom_adjacent tk : forall symbols best p rank,
  findBestFrom tk symbols best = Some (p, rank) ->
  best = Some (p, rank)
  \/ exists a b, adjacent a b symbols /\ p = a ++ 32%N :: b.
Proof.
  induction symbols as [|a symbols IH]; intros best p rank Hf; simpl in Hf.
  - left. assumption.
  - destruct symbols as [|b rest].
    + left. assumption.
    + apply IH in Hf. destruct Hf as [Hf|(a' & b' & Hadj & Hp)].
      * destruct (mapGet eqs (mergeRanks tk) (a ++ 32%N :: b)) as [rk|];
          [|left; assumption].
        destruct best as [[bp br]|].
        -- destruct (rk <? br)%Z; [|left; assumption].
           inversion Hf; subst. right. exists a, b. simpl. auto.
        -- inversion Hf; subst. right. exists a, b. simpl. auto.
      * right. exists a', b'. split; [|assumption]. simpl. right. exact Hadj.
Qed.

Lemma list_ind2 {A} (P : list A -> Prop) :
  P [] -> (forall x, P [x]) ->
  (forall x y l, P l -> P (y :: l) -> P (x :: y :: l)) ->
  forall l, P l.
Proof.
  intros H0 H1 H2 l.
  assert (Hboth : P l /\ forall x, P (x :: l)).
  { induction l as [|y l [IHl IHc]].
    - split; [assumption | intros; apply H1].
    - split; [apply IHc|]. intros x. apply H2; [assumption | apply IHc]. }
  apply Hboth.
Qed.

Lemma mergePass_cons a b merged x y rest :
  mergePass a b merged (x :: y :: rest)
  = if eqs x a && eqOpt y b then merged :: mergePass a b merged rest
    else x :: mergePass a b merged (y :: rest).
Proof. reflexivity. Qed.

Lemma mergePass_length a b merged : forall symbols,
  (length (mergePass a b merged symbols) <= length symbols)%nat.
Proof.
  induction symbols as [|x|x y rest IH1 IH2] using list_ind2.
  - simpl. lia.
  - simpl. lia.
  - rewrite mergePass_cons. destruct (eqs x a && eqOpt y b).
    + cbn [length] in *. lia.
    + cbn [length] in *. lia.
Qed.

Lemma mergePass_shrinks a b merged : forall symbols,
  adjacent a b symbols ->
  (length (mergePass a (Some b) merged symbols) < length symbols)%nat.
Proof.
  induction symbols as [|x|x y rest IH1 IH2] using list_ind2;
    intros Hadj; try (simpl in Hadj; contradiction).
  rewrite mergePass_cons.
  pose proof (mergePass_length a (Some b) merged rest) as Hle.
  change (adjacent a b (x :: y :: rest))
    with ((x = a /\ y = b) \/ adjacent a b (y :: rest)) in Hadj.
  destruct Hadj as [[-> ->]|Hadj].
  - rewrite eqs_refl. simpl eqOpt. rewrite eqs_refl. cbn [andb length].
    lia.
  - destruct (eqs x a && eqOpt y (Some b)).
    + cbn [length]. lia.
    + specialize (IH2 Hadj). cbn [length] in *. lia.
Qed.

Lemma adjacent_In a b l : adjacent a b l -> In a l /\ In b l.
Proof.
  induction l as [|x l IH]; simpl; [contradiction|].
  destruct l as [|y rest]; [contradiction|].
  intros [[-> ->]|Hadj].
  - split; [left; reflexivity | right; left; reflexivity].
  - destruct (IH Hadj). split; right; assumption.
Qed.

Lemma mergePass_noSpace a b : forall symbols,
  noSpace a -> noSpace b -> Forall noSpace symbols ->
  Forall noSpace (mergePass a (Some b) (a ++ b) symbols).
Proof.
  intros symbols Ha Hb.
  induction symbols as [|x|x y rest IH1 IH2] using list_ind2; intros Hf.
  - constructor.
  - assumption.
  - rewrite mergePass_cons.
    inversion Hf as [|? ? Hx Hf']; subst.
    inversion Hf' as [|? ? Hy Hrest]; subst.
    destruct (eqs x a && eqOpt y (Some b)).
    + constructor.
      * intros Hin. apply in_app_or in Hin. destruct Hin; auto.
      * apply IH1. assumption.
    + constructor; [assumption|]. apply IH2. assumption.
Qed.

(** The merge loop ends: every turn merges at least one pair. *)
Lemma bpeLoop_total tk : forall fuel symbols best,
  (length symbols <= fuel)%nat ->
  Forall noSpace symbols ->
  best = findBestMergePair tk symbols ->
  exists out, bpeLoop fuel tk symbols best = Ok out.
Proof.
  induction fuel as [|fuel IH]; intros symbols best Hlen Hns Hbest.
  - destruct symbols; [|simpl in Hlen; lia].
    subst best. simpl. eauto.
  - destruct best as [p|]; simpl; [|eauto].
    symmetry in Hbest. unfold findBestMergePair in Hbest.
    destruct (findBestFrom tk symbols None) as [[p' rank]|] eqn:Hf;
      simpl in Hbest; [|discriminate].
    inversion Hbest; subst p'.
    apply findBestFrom_adjacent in Hf.
    destruct Hf as [Hf|(a & b & Hadj & ->)]; [discriminate|].
    destruct (adjacent_In _ _ _ Hadj) as [Hina Hinb].
    rewrite Forall_forall in Hns.
    pose proof (Hns _ Hina) as Hna. pose proof (Hns _ Hinb) as Hnb.
    rewrite splitSpace_pair by assumption. simpl.
    pose proof (@mergePass_shrinks a b (a ++ b) symbols Hadj) as Hshr.
    destruct (length (mergePass a (Some b) (a ++ b) symbols) <=? 1)%nat;
      [eauto|].
    apply IH.
    + lia.
    + apply mergePass_noSpace; try assumption. apply Forall_forall. exact Hns.
    + reflexivity.
Qed.

Lemma applyBPE_total tk symbols :
  Forall noSpace symbols -> exists out, applyBPE tk symbols = Ok out.
Proof.
  intros Hns. unfold applyBPE.
  destruct (length symbols <=? 1)%nat; [eauto|].
  apply bpeLoop_total; auto.
Qed.

Lemma utf8OfCodePoint_bytes cp :
  Forall (fun b => (b < 256)%N) (utf8OfCodePoint cp).
Proof.
  unfold utf8OfCodePoint.
  pose proof (N.mod_upper_bound (cp / 64) 32).
  pose proof (N.mod_upper_bound cp 64).
  pose proof (N.mod_upper_bound (cp / 4096) 16).
  pose proof (N.mod_upper_bound (cp / 64) 64).
  pose proof (N.mod_upper_bound (cp / 262144) 8).
  pose proof (N.mod_upper_bound (cp / 4096) 64).
  destruct (N.ltb_spec cp 128); [repeat constructor; lia|].
  destruct (N.ltb_spec cp 2048); [repeat constructor; lia|].
  destruct (N.ltb_spec cp 65536); repeat constructor; lia.
Qed.

Lemma utf8_bytes : forall s, Forall (fun b => (b < 256)%N) (utf8 s).
Proof.
  induction s as [|c|c d rest IH1 IH2] using list_ind2.
  - constructor.
  - cbn [utf8].
    destruct (isHighSurrogate c); [apply utf8OfCodePoint_bytes|].
    destruct (isLowSurrogate c); rewrite app_nil_r;
      apply utf8OfCodePoint_bytes.
  - change (utf8 (c :: d :: rest)) with
      (if isHighSurrogate c then
         if isLowSurrogate d then
           utf8OfCodePoint (65536 + (c - 55296) * 1024 + (d - 56320))%N
             ++ utf8 rest
         else utf8OfCodePoint 65533 ++ utf8 (d :: rest)
       else if isLowSurrogate c then utf8OfCodePoint 65533 ++ utf8 (d :: rest)
       else utf8OfCodePoint c ++ utf8 (d :: rest)).
    destruct (isHighSurrogate c); [destruct (isLowSurrogate d)|
                                   destruct (isLowSurrogate c)];
      apply Forall_app; split; auto using utf8OfCodePoint_bytes.
Qed.

Lemma byteEncoder_table : forallb byteSymbolOK (rangeN 0 255) = true.
Proof. vm_compute. reflexivity. Qed.

Lemma rangeN_In b : (b < 256)%N -> In b (rangeN 0 255).
Proof.
  intros Hb. unfold rangeN. apply in_map_iff. exists (N.to_nat b).
  split; [lia|]. apply in_seq. lia.
Qed.

(** Every byte has a symbol, one code unit that is not a space. *)
Lemma byteEncoder_symbol b :
  (b < 256)%N ->
  exists x, mapGet N.eqb buildByteEncoder b = Some [x] /\ x <> 32%N.
Proof.
  intros Hb. pose proof byteEncoder_table as Ht.
  rewrite forallb_forall in Ht. specialize (Ht b (rangeN_In Hb)).
  unfold byteSymbolOK in Ht.
  destruct (mapGet N.eqb buildByteEncoder b) as [[|x [|? ?]]|];
    try discriminate.
  exists x. split; [reflexivity|].
  intros ->. discriminate.
Qed.

Lemma byteSymbols_noSpace bytes :
  Forall (fun b => (b < 256)%N) bytes ->
  Forall noSpace
    (map (fun b => orElse (mapGet N.eqb buildByteEncoder b) (fromCodePoint b))
         bytes).
Proof.
  induction 1 as [|b bytes Hb _ IH]; cbn [map]; constructor; [|exact IH].
  destruct (byteEncoder_symbol Hb) as (x & -> & Hx). cbn [orElse].
  intros [Hin|[]]. congruence.
Qed.

Lemma idOf_known tk s : known tk (idOf tk s).
Proof.
  unfold idOf. destruct (mapGet eqs (vocab tk) s) as [z|] eqn:Hz; simpl.
  - right. left. eauto.
  - left. reflexivity.
Qed.

Lemma encodeByteLevelBPE_total tk word :
  byteEncoder tk = buildByteEncoder ->
  exists ids, encodeByteLevelBPE tk word = Ok ids /\ Forall (known tk) ids.
Proof.
  intros Henc. unfold encodeByteLevelBPE. rewrite Henc.
  set (bytes := utf8 _).
  pose proof (byteSymbols_noSpace (utf8_bytes _ : Forall _ bytes)) as Hns.
  destruct (map _ bytes) as [|s1 [|s2 rest]] eqn:Hsym.
  - eexists. split; [reflexivity|].
    constructor; [left; reflexivity | constructor].
  - eexists. split; [reflexivity|].
    constructor; [apply idOf_known | constructor].
  - destruct (applyBPE_total tk Hns) as (out & ->). simpl.
    eexists. split; [reflexivity|]. apply Forall_forall.
    intros z Hz. apply in_map_iff in Hz. destruct Hz as (x & <- & _).
    apply idOf_known.
Qed.

Lemma longestPiece_bounds tk word start : forall todo end_ i e,
  longestPiece tk word start todo end_ = Some (i, e) ->
  (start < e <= end_)%Z /\ known tk i.
Proof.
  induction todo as [|todo IH]; intros end_ i e Hl; simpl in Hl.
  - discriminate.
  - destruct (Z.ltb_spec start end_); [|discriminate].
    destruct (mapGet eqs (vocab tk) _) eqn:Hv.
    + inversion Hl; subst. split; [lia|]. right. left. eauto.
    + apply IH in Hl. destruct Hl. split; [lia | assumption].
Qed.

Lemma wordPieceLoop_total tk word : forall fuel start tokens,
  (jslength word - start <= Z.of_nat fuel)%Z ->
  Forall (known tk) tokens ->
  exists ids, wordPieceLoop fuel tk word start tokens = Ok ids
              /\ Forall (known tk) ids.
Proof.
  induction fuel as [|fuel IH]; intros start tokens Hf Ht; simpl.
  - destruct (Z.ltb_spec start (jslength word)); [lia | eauto].
  - destruct (Z.ltb_spec start (jslength word)); [|eauto].
    destruct (longestPiece tk word start (length word) (jslength word))
      as [[i e]|] eqn:Hl.
    + apply longestPiece_bounds in Hl. destruct Hl as [Hb Hk].
      apply IH; [lia|]. apply Forall_app. split; [assumption|].
      constructor; [assumption | constructor].
    + apply IH; [lia|]. apply Forall_app. split; [assumption|].
      constructor; [left; reflexivity | constructor].
Qed.

(** The BPE tokenizer never fails and never loops; what the vocabulary does
    not hold becomes the unknown-token id. *)
Lemma BPE_encodeWord_total tk word :
  byteEncoder tk = buildByteEncoder ->
  exists ids, BPE.encodeWord tk word = Ok ids /\ Forall (known tk) ids.
Proof.
  intros Henc. unfold BPE.encodeWord.
  destruct (mapGet eqs (addedTokens tk) word) as [z|] eqn:Hz.
  - eexists. split; [reflexivity|].
    constructor; [right; right; eauto | constructor].
  - destruct (isByteLevelBPE tk).
    + apply encodeByteLevelBPE_total. assumption.
    + unfold encodeWordPieceFallback.
      destruct (mapGet eqs (vocab tk) word) as [z|] eqn:Hv.
      * eexists. split; [reflexivity|].
        constructor; [right; left; eauto | constructor].
      * apply wordPieceLoop_total; [unfold jslength; lia | constructor].
Qed.

End BPEFacts.

Module MapFacts.
Section WithKey.
Context {K V : Type} (keq : K -> K -> bool).
Hypothesis keq_eq : forall a b, keq a b = true <-> a = b.

Lemma mapGet_mapSet (mp : list (K * V)) k v k' :
  mapGet keq (mapSet keq mp k v) k'
  = if keq k' k then Some v else mapGet keq mp k'.
Proof.
  induction mp as [|[k0 v0] mp IH]; simpl.
  - reflexivity.
  - destruct (keq k k0) eqn:Hk0; simpl.
    + apply keq_eq in Hk0. subst k0.
      destruct (keq k' k); reflexivity.
    + destruct (keq k' k0) eqn:Hk'0.
      * apply keq_eq in Hk'0. subst k0.
        destruct (keq k' k) eqn:Hk'k; [|reflexivity].
        apply keq_eq in Hk'k. subst k'.
        assert (keq k k = true) by (apply keq_eq; reflexivity). congruence.
      * exact IH.
Qed.

End WithKey.
End MapFacts.

Module UnigramFacts.
Import StringFacts ListFacts MapFacts JSFacts BPEFacts Tokenizer Tokenizer.Unigram UnigramSpec.

Section WithRuntime.
Context `{FloatOps} `{Unicode}.

Lemma addPiece_wellFormed tk idx entry :
  wellFormed tk -> wellFormed (addPiece tk idx entry).
Proof.
  intros Hwf. destruct entry as [piece sc]. unfold addPiece.
  assert (Hwf1 : wellFormed
            (if mapHas eqs (vocab tk) piece then tk
             else {| vocab := mapSet eqs (vocab tk) piece idx;
                     scores := mapSet eqs (scores tk) piece sc;
                     addedTokens := addedTokens tk;
                     byteTokens := byteTokens tk;
                     unkTokenId := unkTokenId tk;
                     clsTokenId := clsTokenId tk;
                     sepTokenId := sepTokenId tk;
                     maxPieceLength :=
                       if (maxPieceLength tk <? jslength piece)%Z
                       then jslength piece else maxPieceLength tk |})).
  { destruct (mapHas eqs (vocab tk) piece); [assumption|].
    intros p s0. simpl. rewrite !(mapGet_mapSet eqs eqs_eq).
    destruct (eqs p piece); [discriminate|]. apply Hwf. }
  destruct (byteMatch piece); [|exact Hwf1].
  intros p s0. simpl. apply Hwf1.
Qed.

Lemma addPieces_wellFormed : forall l tk idx,
  wellFormed tk -> wellFormed (addPieces tk idx l).
Proof.
  induction l as [|e l IH]; intros tk idx Hwf; simpl; [assumption|].
  apply IH. apply addPiece_wellFormed. assumption.
Qed.

Lemma construct_wellFormed vocabJson unk_id added :
  wellFormed (construct vocabJson unk_id added).
Proof.
  unfold construct, wellFormed. simpl. intros p sc.
  destruct vocabJson as [l|].
  - apply addPieces_wellFormed. intros q s0. simpl. discriminate.
  - simpl. discriminate.
Qed.

(** The Viterbi table: [n + 1] filled slots, every slot after the first
    points to an earlier position and carries an id. *)

Lemma tget_ok tk n best i :
  TableOK tk n best -> (0 <= i <= Z.of_nat n)%Z ->
  exists e, tget best i = Ok e /\ entryOK tk (Z.to_nat i) e.
Proof.
  intros [_ Hs] Hi. unfold tget.
  destruct (Z.ltb_spec i 0); [lia|].
  destruct (Hs (Z.to_nat i)) as (e & -> & He); [lia|]. eauto.
Qed.

Lemma tsetNat_length : forall i best e,
  (i < length best)%nat -> length (tsetNat best i e) = length best.
Proof.
  induction i as [|i IH]; intros [|x best] e Hi; simpl in *; try lia.
  rewrite IH by lia. reflexivity.
Qed.

Lemma tsetNat_nth : forall i best e j,
  (i < length best)%nat ->
  nth_error (tsetNat best i e) j
  = if (j =? i)%nat then Some (Some e) else nth_error best j.
Proof.
  induction i as [|i IH]; intros [|x best] e j Hi; simpl in *; try lia.
  - destruct j; reflexivity.
  - destruct j as [|j]; [reflexivity|]. simpl. apply IH. lia.
Qed.

Lemma tset_ok tk n best i e :
  TableOK tk n best -> (0 <= i <= Z.of_nat n)%Z ->
  entryOK tk (Z.to_nat i) e ->
  TableOK tk n (tset best i e).
Proof.
  intros [Hl Hs] Hi He. unfold tset.
  destruct (Z.ltb_spec i 0); [lia|].
  split.
  - rewrite tsetNat_length by lia. assumption.
  - intros j Hj. rewrite tsetNat_nth by lia.
    destruct (Nat.eqb_spec j (Z.to_nat i)) as [->|Hne]; [eauto|].
    apply Hs. assumption.
Qed.

Lemma pieceLoop_ok tk text n i maxLen :
  wellFormed tk -> (0 <= i)%Z -> (i + maxLen <= Z.of_nat n)%Z ->
  forall todo len best,
    (1 <= len)%Z -> TableOK tk n best ->
    exists best', pieceLoop tk text i maxLen todo len best = Ok best'
                  /\ TableOK tk n best'.
Proof.
  intros Hwf Hi Hmax. induction todo as [|todo IH]; intros len best Hlen Hb;
    simpl; [eauto|].
  destruct (Z.leb_spec len maxLen); [|eauto].
  destruct (mapGet eqs (scores tk) (slice text i (i + len))) as [sc|] eqn:Hsc.
  - destruct (tget_ok (i := i) Hb) as (bi & -> & _); [lia|]. simpl.
    destruct (tget_ok (i := (i + len)%Z) Hb) as (bn & -> & _); [lia|]. simpl.
    apply IH; [lia|].
    destruct (fgt _ _); [|assumption].
    apply tset_ok; [assumption | lia |].
    split; simpl; [lia|]. intros _. split; [lia|].
    apply Hwf in Hsc.
    destruct (mapGet eqs (vocab tk) (slice text i (i + len))) as [z|] eqn:Hz;
      [|congruence].
    exists z. split; [reflexivity|]. right. right. left. eauto.
  - apply IH; [lia | assumption].
Qed.

Lemma slice_unit (text : jsstring) i :
  (0 <= i < jslength text)%Z -> jslength (slice text i (i + 1)) = 1%Z.
Proof.
  intros Hi. unfold jslength in *.
  replace i with (Z.of_nat (Z.to_nat i)) by lia.
  replace (Z.of_nat (Z.to_nat i) + 1)%Z with (Z.of_nat (S (Z.to_nat i))) by lia.
  rewrite slice_nat by lia.
  rewrite length_firstn, length_skipn. lia.
Qed.

Lemma viterbiStep_ok tk text n i best :
  wellFormed tk -> jslength text = Z.of_nat n -> (0 <= i < Z.of_nat n)%Z ->
  TableOK tk n best ->
  exists best', viterbiStep tk text (Z.of_nat n) i best = Ok best'
                /\ TableOK tk n best'.
Proof.
  intros Hwf Hn Hi Hb. unfold viterbiStep.
  destruct (tget_ok (i := i) Hb) as (bi & -> & _); [lia|]. simpl.
  destruct (feq (score bi) fneginf && (0 <? i)%Z); [eauto|].
  destruct (@pieceLoop_ok tk text n i
              (Z.min (maxPieceLength tk) (Z.of_nat n - i))
              Hwf ltac:(lia) ltac:(lia)
              (Z.to_nat (Z.min (maxPieceLength tk) (Z.of_nat n - i)))
              1%Z best ltac:(lia) Hb)
    as (best1 & -> & Hb1).
  simpl.
  destruct (tget_ok (i := (i + 1)%Z) Hb1) as (bn & -> & _); [lia|]. simpl.
  destruct (feq (score bn) fneginf); [|eauto].
  destruct (allDefined _).
  - destruct (tget_ok (i := i) Hb1) as (bi1 & -> & _); [lia|]. simpl.
    rewrite slice_unit by lia.
    destruct (tget_ok (i := (i + 1)%Z) Hb1) as (bc & -> & _); [lia|]. simpl.
    destruct (fgt _ _); [|eauto].
    eexists. split; [reflexivity|].
    apply tset_ok; [assumption | lia |].
    split; simpl; [lia|]. intros _. split; [lia|].
    exists (-2)%Z. auto.
  - destruct (tget_ok (i := i) Hb1) as (bi1 & -> & _); [lia|]. simpl.
    eexists. split; [reflexivity|].
    apply tset_ok; [assumption | lia |].
    split; simpl; [lia|]. intros _. split; [lia|].
    exists (unkTokenId tk). split; [reflexivity|]. right. left. reflexivity.
Qed.

Lemma viterbiLoop_ok tk text n :
  wellFormed tk -> jslength text = Z.of_nat n ->
  forall todo i best,
    (0 <= i)%Z -> (i + Z.of_nat todo <= Z.of_nat n)%Z ->
    TableOK tk n best ->
    exists best', viterbiLoop tk text (Z.of_nat n) todo i best = Ok best'
                  /\ TableOK tk n best'.
Proof.
  intros Hwf Hn. induction todo as [|todo IH]; intros i best Hi Hle Hb;
    simpl; [eauto|].
  destruct (@viterbiStep_ok tk text n i best Hwf Hn ltac:(lia) Hb)
    as (best1 & -> & Hb1).
  simpl. apply IH; [lia | lia | assumption].
Qed.

Lemma byteFold_allKnown tk : forall bytes tokens,
  allKnown tk tokens ->
  allKnown tk (fold_left
                 (fun acc b => Some (orElse (mapGet N.eqb (byteTokens tk) b)
                                            (unkTokenId tk)) :: acc)
                 bytes tokens).
Proof.
  induction bytes as [|b bytes IH]; intros tokens Ht; simpl; [assumption|].
  apply IH. constructor; [|assumption].
  eexists. split; [reflexivity|].
  destruct (mapGet N.eqb (byteTokens tk) b) as [z|] eqn:Hz; simpl.
  - right. right. left. eauto.
  - left. reflexivity.
Qed.

(** The walk back through the table ends: every entry points to an earlier
    position. *)
Lemma backtrack_ok tk text n best :
  TableOK tk n best ->
  forall fuel pos tokens,
    (0 <= pos <= Z.of_nat n)%Z -> (Z.to_nat pos <= fuel)%nat ->
    allKnown tk tokens ->
    exists out, backtrack fuel tk text best pos tokens = Ok out
                /\ allKnown tk out.
Proof.
  intros Hb. induction fuel as [|fuel IH]; intros pos tokens Hp Hf Ht.
  - simpl. destruct (Z.ltb_spec 0 pos); [lia | eauto].
  - simpl. destruct (Z.ltb_spec 0 pos); [|eauto].
    destruct (tget_ok (i := pos) Hb) as (e & -> & He0 & He1); [lia|].
    simpl. destruct (He1 ltac:(lia)) as (Hprev & z & Hz & Hk).
    apply IH; [lia | lia |]. rewrite Hz.
    assert (Hpush : known tk z -> allKnown tk (Some z :: tokens)).
    { intros Hkz. constructor; [eauto | assumption]. }
    destruct Hk as [-> | Hk]; [apply byteFold_allKnown; assumption|].
    destruct z as [|p|p]; try (apply Hpush; assumption).
    destruct p as [p|p|]; try (apply Hpush; assumption).
    destruct p; try (apply Hpush; assumption).
    apply byteFold_allKnown. assumption.
Qed.

Lemma initialTable_ok tk n : TableOK tk n (initialTable tk n).
Proof.
  unfold initialTable. split.
  - simpl. rewrite repeat_length. reflexivity.
  - intros [|j] Hj; simpl.
    + eexists. split; [reflexivity|]. split; simpl; [lia|]. lia.
    + eexists. split.
      * rewrite nth_error_repeat by lia. reflexivity.
      * split; simpl; [lia|]. intros _. split; [lia|].
        exists (unkTokenId tk). split; [reflexivity|]. right. left.
        reflexivity.
Qed.

Lemma viterbi_total tk text :
  wellFormed tk ->
  exists out, viterbi tk text = Ok out /\ allKnown tk out.
Proof.
  intros Hwf. unfold viterbi. cbv zeta.
  destruct (Z.eqb_spec (jslength text) 0); [exists []; split; [reflexivity | constructor]|].
  assert (Hn : jslength text = Z.of_nat (length text)) by reflexivity.
  change (jslength text) with (Z.of_nat (length text)).
  destruct (@viterbiLoop_ok tk text (length text) Hwf Hn (length text)
              0%Z _ ltac:(lia) ltac:(lia)
              (initialTable_ok tk (length text)))
    as (best & -> & Hb).
  simpl.
  apply (@backtrack_ok tk text _ _ Hb); [lia | lia | constructor].
Qed.

(** The Unigram tokenizer never fails and never loops, and every id it
    returns is the id of a piece, of a byte-fallback piece or of an added
    token, or the unknown-token id. *)
Lemma Unigram_encodeWord_total tk word :
  wellFormed tk ->
  exists out, Unigram.encodeWord tk word = Ok out /\ allKnown tk out.
Proof.
  intros Hwf. unfold Unigram.encodeWord.
  destruct (mapGet eqs (addedTokens tk) word) as [z|] eqn:Hz.
  - eexists. split; [reflexivity|]. constructor; [|constructor].
    exists z. split; [reflexivity|]. right. right. right. eauto.
  - apply viterbi_total. assumption.
Qed.

End WithRuntime.
End UnigramFacts.

Module TokenizerFacts.
Import ListFacts Tokenizer.

Section WithRuntime.
Context `{FloatOps} `{Unicode}.

Lemma initTokenizer_state tokenizerJson st :
  initTokenizer tokenizerJson = Ok st ->
  (exists tk, st = Some (UnigramTokenizer tk) /\ UnigramSpec.wellFormed tk)
  \/ (exists tk, st = Some (BPETokenizer tk)
                 /\ BPE.byteEncoder tk = buildByteEncoder).
Proof.
  unfold initTokenizer. destruct (model tokenizerJson) as [[v u|v mg bf]|];
    intros Hi; inversion Hi; subst.
  - left. eexists. split; [reflexivity|].
    apply UnigramFacts.construct_wellFormed.
  - right. eexists. split; reflexivity.
Qed.

(** With a loaded tokenizer [encodeWord] returns a list of ids. *)
Lemma encodeWord_loaded tokenizerJson st word :
  initTokenizer tokenizerJson = Ok st ->
  exists ids, encodeWord st word = Ok (map Some ids)
              /\ Forall (knownId st) ids.
Proof.
  intros Hi. apply initTokenizer_state in Hi.
  destruct Hi as [(tk & -> & Hwf)|(tk & -> & Henc)]; simpl.
  - destruct (@UnigramFacts.Unigram_encodeWord_total _ _ tk word Hwf)
      as (out & -> & Hk).
    induction Hk as [|o out (z & -> & Hz) _ (ids & Hids & Hf)].
    + exists []. split; [reflexivity | constructor].
    + inversion Hids as [Hout]. exists (z :: ids). split.
      * simpl. rewrite <- Hout. reflexivity.
      * constructor; assumption.
  - destruct (@BPEFacts.BPE_encodeWord_total tk word Henc) as (ids & -> & Hk).
    simpl. eauto.
Qed.


(** C8. Without a tokenizer the four accessors throw, and the exception
    reaches the callers of the batch processor; after [initTokenizer] none
    of them throws for that reason. *)
Theorem uninitialized_tokenizer_throws :
  (forall word, encodeWord None word = Throw notInitialized)
  /\ (forall token, getSpecialTokenId None token = Throw notInitialized)
  /\ getClsTokenId None = Throw notInitialized
  /\ getSepTokenId None = Throw notInitialized
  /\ (forall text texts entities entToken sepToken,
        Processor.prepareBatch None (text :: texts) entities entToken sepToken
        = Throw notInitialized)
  /\ (forall text texts entities maxWidth entToken sepToken,
        Processor.prepareSpanBatch None (text :: texts) entities maxWidth
                                   entToken sepToken
        = Throw notInitialized)
  /\ (forall tokenizerJson st word token,
        initTokenizer tokenizerJson = Ok st ->
        (exists ids, encodeWord st word = Ok ids)
        /\ (exists i, getSpecialTokenId st token = Ok i)
        /\ (exists i, getClsTokenId st = Ok i)
        /\ (exists i, getSepTokenId st = Ok i)).
Proof.
  do 6 (split; [reflexivity|]).
  intros tokenizerJson st word token Hinit.
  split.
  - destruct (@encodeWord_loaded _ _ word Hinit) as (ids & -> & _). eauto.
  - apply initTokenizer_state in Hinit.
    destruct Hinit as [(tk & -> & _)|(tk & -> & _)]; simpl;
      repeat split; eauto.
Qed.

End WithRuntime.
End TokenizerFacts.

Module SortFacts.
Section WithOrder.
Context {A : Type} (after : A -> A -> bool).

Lemma insertBy_In x y : forall l, In y (insertBy after x l) <-> y = x \/ In y l.
Proof.
  induction l as [|z l IH]; simpl.
  - intuition congruence.
  - destruct (after x z); simpl; rewrite ?IH; intuition congruence.
Qed.

Lemma sortBy_In y : forall l, In y (sortBy after l) <-> In y l.
Proof.
  induction l as [|x l IH]; simpl; [reflexivity|].
  unfold sortBy in *. simpl. rewrite insertBy_In, IH. intuition congruence.
Qed.

Lemma insertBy_length x : forall l,
  length (insertBy after x l) = S (length l).
Proof.
  induction l as [|z l IH]; simpl; [reflexivity|].
  destruct (after x z); simpl; rewrite ?IH; reflexivity.
Qed.

Lemma insertBy_pairs (R : A -> A -> Prop) x :
  (forall a b, R a b -> R b a) ->
  forall l, Forall (R x) l -> ForallOrdPairs R l ->
            ForallOrdPairs R (insertBy after x l).
Proof.
  intros Hsym. induction l as [|z l IH]; intros Hx Hl; simpl.
  - constructor; constructor.
  - inversion Hx as [|? ? Hxz Hxl]; subst.
    inversion Hl as [|? ? Hzl Hl']; subst.
    destruct (after x z).
    + constructor.
      * apply Forall_forall. intros y Hy.
        apply (proj1 (insertBy_In x y l)) in Hy.
        destruct Hy as [->|Hy]; [apply Hsym; assumption|].
        rewrite Forall_forall in Hzl. apply Hzl. assumption.
      * apply IH; assumption.
    + constructor; [constructor; assumption|]. constructor; assumption.
Qed.

(** A symmetric relation that holds between the elements of a list holds
    between the elements of the sorted list. *)
Lemma sortBy_pairs (R : A -> A -> Prop) :
  (forall a b, R a b -> R b a) ->
  forall l, ForallOrdPairs R l -> ForallOrdPairs R (sortBy after l).
Proof.
  intros Hsym. induction l as [|x l IH]; intros Hl.
  - constructor.
  - inversion Hl as [|? ? Hx Hl']; subst.
    change (sortBy after (x :: l)) with (insertBy after x (sortBy after l)).
    apply insertBy_pairs.
    + assumption.
    + apply Forall_forall. intros y Hy. apply (proj1 (sortBy_In y l)) in Hy.
      rewrite Forall_forall in Hx. apply Hx. assumption.
    + apply IH; assumption.
Qed.

Lemma sortBy_Forall (P : A -> Prop) l :
  Forall P l -> Forall P (sortBy after l).
Proof.
  rewrite !Forall_forall. intros Hl y Hy.
  apply (proj1 (sortBy_In y l)) in Hy. auto.
Qed.

(** Insertion keeps a list sorted when the comparator decides the order. *)
Lemma insertBy_sorted (le : A -> A -> Prop) x :
  (forall a b, after a b = true -> le b a) ->
  (forall a b, after a b = false -> le a b) ->
  forall l, Sorted le l -> Sorted le (insertBy after x l).
Proof.
  intros Ht Hf. induction l as [|z l IH]; intros Hl; simpl.
  - constructor; constructor.
  - inversion Hl as [|? ? Hl' Hhd]; subst.
    destruct (after x z) eqn:Haf.
    + constructor; [apply IH; assumption|].
      destruct l as [|w l]; simpl.
      * constructor. apply Ht. assumption.
      * destruct (after x w) eqn:Hw.
        -- constructor. inversion Hhd; assumption.
        -- constructor. apply Ht. assumption.
    + constructor; [assumption|]. constructor. apply Hf. assumption.
Qed.

Lemma sortBy_sorted (le : A -> A -> Prop) :
  (forall a b, after a b = true -> le b a) ->
  (forall a b, after a b = false -> le a b) ->
  forall l, Sorted le (sortBy after l).
Proof.
  intros Ht Hf. induction l as [|x l IH].
  - constructor.
  - change (sortBy after (x :: l)) with (insertBy after x (sortBy after l)).
    apply insertBy_sorted; assumption.
Qed.

End WithOrder.
End SortFacts.

Module DecoderFacts.
Import ListFacts SortFacts JSFacts Decoder.

Section WithRuntime.
Context `{FloatOps}.

Lemma disjoint_sym a b : disjoint a b -> disjoint b a.
Proof. unfold disjoint. tauto. Qed.

Lemma overlaps_false c a : overlaps c a = false -> disjoint c a.
Proof.
  unfold overlaps, disjoint. intros Ho.
  apply andb_false_iff in Ho. destruct Ho as [Ho|Ho];
    apply Z.ltb_ge in Ho; lia.
Qed.

Lemma pairs_snoc {A} (R : A -> A -> Prop) : forall l x,
  ForallOrdPairs R l -> Forall (fun a => R a x) l ->
  ForallOrdPairs R (l ++ [x]).
Proof.
  induction l as [|y l IH]; intros x Hl Hx; simpl.
  - constructor; constructor.
  - inversion Hl as [|? ? Hy Hl']; subst.
    inversion Hx as [|? ? Hyx Hx']; subst.
    constructor.
    + apply Forall_app. split; [assumption|]. constructor; [assumption|constructor].
    + apply IH; assumption.
Qed.

Lemma acceptLoop_spec (P : GLiNEREntity -> Prop) : forall sorted accepted,
  NoOverlap accepted -> Forall P sorted -> Forall P accepted ->
  NoOverlap (acceptLoop sorted accepted)
  /\ Forall P (acceptLoop sorted accepted).
Proof.
  induction sorted as [|c rest IH]; intros accepted Ha Hs Hp; simpl.
  - split; assumption.
  - inversion Hs as [|? ? Hc Hrest]; subst.
    destruct (existsb (overlaps c) accepted) eqn:Hex.
    + apply IH; assumption.
    + apply IH; [|assumption|].
      * apply pairs_snoc; [assumption|].
        apply Forall_forall. intros a Hin.
        apply disjoint_sym, overlaps_false.
        destruct (overlaps c a) eqn:Ho; [|reflexivity].
        assert (existsb (overlaps c) accepted = true)
          by (apply existsb_exists; eauto).
        congruence.
      * apply Forall_app. split; [assumption|].
        constructor; [assumption | constructor].
Qed.

(** The overlap resolution returns entities that are pairwise disjoint and
    sorted by start offset, all taken from the candidates. *)
Lemma greedySearch_spec (P : GLiNEREntity -> Prop) candidates :
  Forall P candidates ->
  NoOverlap (greedySearch candidates)
  /\ SortedByStart (greedySearch candidates)
  /\ Forall P (greedySearch candidates).
Proof.
  intros Hp. unfold greedySearch.
  destruct (@acceptLoop_spec P
              (sortBy (fun a b => fgt (fsub (score b) (score a)) (fofQ 0))
                      candidates) [])
    as [Hno Hf]; [constructor | apply sortBy_Forall; assumption | constructor|].
  split; [|split].
  - apply sortBy_pairs; [exact disjoint_sym | assumption].
  - apply sortBy_sorted.
    + intros a b Hab. apply Z.ltb_lt in Hab. lia.
    + intros a b Hab. apply Z.ltb_ge in Hab. lia.
  - apply sortBy_Forall. assumption.
Qed.

End WithRuntime.
End DecoderFacts.

Module InferenceFacts.
Import ListFacts SortFacts StringFacts JSFacts DecoderFacts.
Import Config Processor Decoder Inference.

Section WithRuntime.
Context `{FloatOps} `{Unicode}.

Lemma sortBy_perm {A} (after : A -> A -> bool) : forall l,
  Permutation (sortBy after l) l.
Proof.
  assert (Hins : forall x l, Permutation (insertBy after x l) (x :: l)).
  { intros x. induction l as [|z l IH]; simpl; [reflexivity|].
    destruct (after x z); [|reflexivity].
    rewrite IH. apply perm_swap. }
  induction l as [|x l IH]; [reflexivity|].
  change (sortBy after (x :: l)) with (insertBy after x (sortBy after l)).
  rewrite Hins, IH. reflexivity.
Qed.

Lemma nthR_In {A} (l : list A) i x : nthR l i = Ok x -> In x l.
Proof.
  unfold nthR. destruct (i <? 0)%Z; [discriminate|].
  destruct (nth_error l (Z.to_nat i)) eqn:Hn; [|discriminate].
  intros Hx. inversion Hx; subst. eapply nth_error_In. eassumption.
Qed.

Lemma decodeSpanExample_greedy o b ents :
  decodeSpanExample o b = Ok ents ->
  exists cands, ents = greedySearch cands.
Proof.
  unfold decodeSpanExample. intros Hd. bind_step Hd.
  inversion Hd. eauto.
Qed.

Lemma decodeTokenExample_greedy o b ents :
  decodeTokenExample o b = Ok ents ->
  exists cands, ents = greedySearch cands.
Proof.
  unfold decodeTokenExample. intros Hd. bind_step Hd. bind_step Hd.
  inversion Hd. eauto.
Qed.

(** One inference returns the outcome of the overlap resolution. *)
Lemma runInference_greedy st text labels threshold ents :
  runInference st text labels threshold = Ok ents ->
  exists cands, ents = greedySearch cands.
Proof.
  unfold runInference. intros Hr. bind_step Hr.
  destruct (_isSpanMode st).
  - unfold runSpanInference in Hr.
    repeat bind_step Hr.
    apply nthR_In in Hr. unfold decodeSpanLevel in *.
    match goal with
    | E : mapR (decodeSpanExample _) _ = Ok _ |- _ =>
        destruct (@mapR_In _ _ _ _ _ _ E Hr) as (b & _ & Hb)
    end.
    eapply decodeSpanExample_greedy. eassumption.
  - unfold runTokenInference in Hr.
    repeat bind_step Hr.
    apply nthR_In in Hr. unfold decodeTokenLevel in *.
    match goal with
    | E : mapR (decodeTokenExample _) _ = Ok _ |- _ =>
        destruct (@mapR_In _ _ _ _ _ _ E Hr) as (b & _ & Hb)
    end.
    eapply decodeTokenExample_greedy. eassumption.
Qed.

(** The merge of the windows: the set of seen keys holds the keys of the
    entities kept so far, without repetition. *)
Lemma mergeEntities_keys offset : forall entities seen all seen' all',
  mergeEntities offset entities seen all = (seen', all') ->
  seen = map spanKey all -> NoDup seen ->
  seen' = map spanKey all' /\ NoDup seen'.
Proof.
  induction entities as [|e entities IH]; intros seen all seen' all' Hm Hk Hn;
    simpl in Hm.
  - inversion Hm; subst. auto.
  - destruct (memStr _ seen) eqn:Hmem.
    + eapply IH; eassumption.
    + eapply IH; [eassumption| |].
      * rewrite map_app, Hk. reflexivity.
      * apply NoDup_app; [assumption | constructor; [intros [] | constructor] |].
        intros x Hx [<-|[]].
        assert (memStr (spanKey
                  {| text := text e; label := label e;
                     start := start e + offset; end_ := end_ e + offset;
                     score := score e |}) seen = true).
        { unfold memStr. apply existsb_exists. eexists. split; [exact Hx|].
          apply eqs_refl. }
        congruence.
Qed.

Lemma chunkLoop_keys st text words labels threshold chunkSize :
  forall fuel i seen all out,
    chunkLoop fuel st text words labels threshold chunkSize i seen all = Ok out ->
    seen = map spanKey all -> NoDup seen ->
    NoDup (map spanKey out).
Proof.
  induction fuel as [|fuel IH]; intros i seen all out Hc Hk Hn; simpl in Hc.
  - destruct (i <? Z.of_nat (length words))%Z; [discriminate|].
    inversion Hc; subst. assumption.
  - destruct (i <? Z.of_nat (length words))%Z.
    + bind_step Hc.
      destruct (mergeEntities _ _ seen all) as [seen' all'] eqn:Hm.
      destruct (@mergeEntities_keys _ _ _ _ _ _ Hm Hk Hn) as [Hk' Hn'].
      eapply IH; eassumption.
    + inversion Hc; subst. assumption.
Qed.

Lemma keys_triples l : NoDup (map spanKey l) -> DistinctTriples l.
Proof.
  intros Hn. unfold DistinctTriples.
  apply (NoDup_map_inv
           (fun t : Z * Z * option jsstring =>
              let '(s, e, lb) := t in
              numberToString s ++ 45%N :: numberToString e
                ++ 45%N :: labelString lb)).
  rewrite map_map. exact Hn.
Qed.

Lemma detectPIIChunked_spec st text labels threshold chunkSize ents :
  detectPIIChunked st text labels threshold chunkSize = Ok ents ->
  SortedByStart ents /\ DistinctTriples ents.
Proof.
  unfold detectPIIChunked. intros Hd. bind_step Hd. inversion Hd; subst.
  split.
  - apply sortBy_sorted.
    + intros a b Hab. apply Z.ltb_lt in Hab. lia.
    + intros a b Hab. apply Z.ltb_ge in Hab. lia.
  - apply keys_triples.
    apply chunkLoop_keys in E; [|reflexivity|constructor].
    eapply Permutation_NoDup; [|exact E].
    apply Permutation_map. symmetry. apply sortBy_perm.
Qed.

End WithRuntime.
End InferenceFacts.

Module ValidityFacts.
Import ListFacts SortFacts StringFacts JSFacts ProcessorFacts SpanFacts.
Import DecoderFacts InferenceFacts.
Import Config Processor Decoder Inference ValiditySpec.

Section WithRuntime.
Context `{FloatOps} `{Unicode}.

(** *** The words of a text and their offsets *)

Lemma ordered_from text : forall words lo j w s e,
  Forall (wordOK text) words -> ordered lo words ->
  nth_error words j = Some (w, s, e) -> (lo <= s)%Z.
Proof.
  induction words as [|[[w0 s0] e0] words IH]; intros lo j w s e Hok Hord Hj.
  - destruct j; discriminate.
  - inversion Hok as [|? ? Hw0 Hok']; subst. cbn [ordered] in Hord.
    destruct Hord as [Hlo Hord]. destruct j as [|j]; cbn [nth_error] in Hj.
    + inversion Hj; subst. exact Hlo.
    + pose proof (IH _ _ _ _ _ Hok' Hord Hj) as Hs. cbn [wordOK] in Hw0. lia.
Qed.

(** From the start of a word to the end of the same or of a later word. *)
Lemma words_span text : forall words lo i j wi si ei wj sj ej,
  Forall (wordOK text) words -> ordered lo words ->
  nth_error words i = Some (wi, si, ei) ->
  nth_error words j = Some (wj, sj, ej) ->
  (i <= j)%nat ->
  (0 <= si < ej)%Z /\ (ej <= jslength text)%Z.
Proof.
  induction words as [|[[w0 s0] e0] words IH];
    intros lo i j wi si ei wj sj ej Hok Hord Hi Hj Hij.
  - destruct i; discriminate.
  - inversion Hok as [|? ? Hw0 Hok']; subst. cbn [ordered] in Hord.
    destruct Hord as [Hlo Hord]. cbn [wordOK] in Hw0.
    destruct i as [|i]; cbn [nth_error] in Hi.
    + inversion Hi; subst. destruct j as [|j]; cbn [nth_error] in Hj.
      * inversion Hj; subst. lia.
      * pose proof (@ordered_from text words _ _ _ _ _ Hok' Hord Hj) as Hs.
        assert (Hwj : wordOK text (wj, sj, ej)).
        { rewrite Forall_forall in Hok'. apply Hok'.
          eapply nth_error_In. exact Hj. }
        cbn [wordOK] in Hwj. lia.
    + destruct j as [|j]; [lia|]. cbn [nth_error] in Hj.
      apply (IH e0 i j wi si ei wj sj ej); auto. lia.
Qed.

Lemma splitWords_spec text words :
  splitWords text = Ok words -> Forall (wordOK text) words /\ ordered 0 words.
Proof.
  unfold splitWords, Regex.execAll. intros Hs. bind_step Hs.
  inversion Hs; subst. apply RegexFacts.execLoop_sound in E.
  destruct E as [Hf Hc]. cbn [rev app length] in Hf, Hc.
  exact (words_of_matches 0 Hf Hc).
Qed.

Lemma splitWords_span text words i j si ej :
  splitWords text = Ok words ->
  nthZ (map (fun w => snd (fst w)) words) i = Some si ->
  nthZ (map snd words) j = Some ej ->
  (i <= j)%Z ->
  (0 <= si < ej)%Z /\ (ej <= jslength text)%Z.
Proof.
  intros Hw Hi Hj Hij.
  destruct (@splitWords_spec text words Hw) as [Hok Hord].
  unfold nthZ in Hi, Hj.
  destruct (Z.ltb_spec i 0); [discriminate|].
  destruct (Z.ltb_spec j 0); [discriminate|].
  rewrite nth_error_map in Hi, Hj.
  destruct (nth_error words (Z.to_nat i)) as [[[wi si'] ei]|] eqn:Hni;
    [|discriminate].
  destruct (nth_error words (Z.to_nat j)) as [[[wj sj] ej']|] eqn:Hnj;
    [|discriminate].
  cbn in Hi, Hj. inversion Hi; subst. inversion Hj; subst.
  apply (@words_span text words 0 (Z.to_nat i) (Z.to_nat j)
           wi si ei wj sj ej Hok Hord Hni Hnj). lia.
Qed.

(** *** The candidates of the decoders *)

Lemma nthR_singleton {A} (x : A) : nthR [x] 0 = Ok x.
Proof. reflexivity. Qed.

Lemma nthR_map {A B} (f : A -> B) l i y :
  nthR (map f l) i = Ok y ->
  (0 <= i)%Z /\ exists x, nth_error l (Z.to_nat i) = Some x /\ f x = y.
Proof.
  unfold nthR. destruct (Z.ltb_spec i 0); [discriminate|].
  rewrite nth_error_map.
  destruct (nth_error l (Z.to_nat i)) as [x|]; [|discriminate].
  cbn. intros Hy. inversion Hy. split; [lia | eauto].
Qed.

Lemma nthZ_map_inv {A B} (f : A -> B) l i y :
  nthZ (map f l) i = Some y ->
  (0 <= i)%Z /\ exists x, nth_error l (Z.to_nat i) = Some x /\ f x = y.
Proof.
  unfold nthZ. destruct (Z.ltb_spec i 0); [discriminate|].
  rewrite nth_error_map.
  destruct (nth_error l (Z.to_nat i)) as [x|]; [|discriminate].
  cbn. intros Hy. inversion Hy. split; [lia | eauto].
Qed.

(** Offsets read from the word arrays are those of two words. *)
Lemma wordSpan_of_offsets (words : list (jsstring * Z * Z)) i j e :
  (i <= j)%Z ->
  nthZ (map (fun w => snd (fst w)) words) i = Some (start e) ->
  nthZ (map snd words) j = Some (end_ e) ->
  wordSpan words e.
Proof.
  intros Hij Hi Hj.
  apply nthZ_map_inv in Hi. destruct Hi as (Hi0 & [[wi si] ei] & Hi & Hsi).
  apply nthZ_map_inv in Hj. destruct Hj as (Hj0 & [[wj sj] ej] & Hj & Hej).
  cbn [fst snd] in Hsi, Hej. subst si ej.
  exists (Z.to_nat i), (Z.to_nat j), wi, ei, wj, sj.
  split; [lia|]. split; assumption.
Qed.

Lemma candidateSpans_In numWords maxWidth c :
  In c (candidateSpans numWords maxWidth) -> spanWF c.
Proof.
  unfold candidateSpans, spanWF.
  assert (Hen : In c (enumerateSpans numWords maxWidth) ->
                snd c = 0%Z
                \/ exists i w, fst c = (i, (i + w)%Z) /\ (0 <= i)%Z /\ (0 <= w)%Z).
  { unfold enumerateSpans. intros Hin. apply in_flat_map in Hin.
    destruct Hin as (i & Hi & Hin). apply in_map_iff in Hin.
    destruct Hin as (w & <- & Hw).
    apply (proj1 (upto_In _ _)) in Hi. apply (proj1 (upto_In _ _)) in Hw.
    unfold spanAt. destruct (i + w <? numWords)%Z; cbn [fst snd].
    - right. exists i, w. split; [reflexivity | lia].
    - left. reflexivity. }
  destruct (enumerateSpans numWords maxWidth) as [|c0 l] eqn:He.
  - intros [<-|[]]. left. reflexivity.
  - exact Hen.
Qed.

Lemma padTo_In {A} n (x : A) l y : In y (padTo n x l) -> In y l \/ y = x.
Proof.
  unfold padTo. intros Hin. apply in_app_or in Hin.
  destruct Hin as [Hin|Hin]; [left; assumption|].
  apply repeat_spec in Hin. right. assumption.
Qed.

(** A candidate of the span decoder is a span of the text. *)
Lemma spanCandidate_valid o threshold s text words p l :
  sd_texts o = [text] ->
  sd_batchWordsStartIdx o = [map (fun w => snd (fst w)) words] ->
  sd_batchWordsEndIdx o = [map snd words] ->
  sd_spanIdx o = [map fst p] ->
  sd_spanMask o = [map snd p] ->
  Forall spanWF p ->
  splitWords text = Ok words ->
  spanCandidate o threshold 0 s = Ok l ->
  Forall (alignedOK text (sd_entities o) words) l.
Proof.
  intros Ht Hws Hwe Hidx Hmask Hp Hwords Hc. unfold spanCandidate in Hc.
  rewrite Ht, Hws, Hwe, Hidx, Hmask, !nthR_singleton in Hc. cbn [bind] in Hc.
  destruct (isZero (nthZ (map snd p) s)) eqn:Hz;
    [inversion Hc; constructor|].
  bind_step Hc. destruct x as [startWord endWord].
  destruct (bestEntityFrom _ _ _ _ _) as [bestScore bestEntity].
  destruct (fgt bestScore threshold && (0 <=? bestEntity)%Z);
    [|inversion Hc; constructor].
  destruct (nthZ _ startWord) as [charStart|] eqn:Hs;
    [|inversion Hc; constructor].
  destruct (nthZ _ endWord) as [charEnd|] eqn:He;
    [|inversion Hc; constructor].
  inversion Hc; subst l. clear Hc.
  apply nthR_map in E. destruct E as (Hs0 & c & Hc & Hfst).
  assert (Hsnd : nthZ (map snd p) s = Some (snd c)).
  { unfold nthZ. destruct (Z.ltb_spec s 0); [lia|].
    rewrite nth_error_map, Hc. reflexivity. }
  rewrite Hsnd in Hz.
  assert (Hwf : spanWF c).
  { rewrite Forall_forall in Hp. apply Hp. eapply nth_error_In. exact Hc. }
  destruct Hwf as [Hzero|(i & w & Hiw & Hi & Hw)].
  { rewrite Hzero in Hz. discriminate. }
  rewrite Hiw in Hfst. inversion Hfst; subst startWord endWord.
  destruct (@splitWords_span text words i (i + w) charStart charEnd
              Hwords Hs He ltac:(lia)) as [Hin1 Hin2].
  constructor; [|constructor]. split.
  - unfold spanOK. cbn [start end_ Decoder.text label].
    split; [assumption|]. split; [assumption|]. split; [reflexivity|].
    eauto.
  - apply (@wordSpan_of_offsets words i (i + w)); [lia | exact Hs | exact He].
Qed.

(** A candidate of the token decoder is a span of the text. *)
Lemma pairCandidate_valid o threshold im s en text words l :
  td_texts o = [text] ->
  td_batchWordsStartIdx o = [map (fun w => snd (fst w)) words] ->
  td_batchWordsEndIdx o = [map snd words] ->
  splitWords text = Ok words ->
  pairCandidate o threshold 0 im s en = Ok l ->
  Forall (alignedOK text (td_entities o) words) l.
Proof.
  intros Ht Hws Hwe Hwords Hc. unfold pairCandidate in Hc.
  destruct (negb (b_entity en =? b_entity s)%Z); [inversion Hc; constructor|].
  destruct (Z.ltb_spec (b_word en) (b_word s)); [inversion Hc; constructor|].
  destruct (insideLoop _ _ _ _ _ _) as [[insideTotal insideCount]|];
    [|inversion Hc; constructor].
  rewrite Ht, Hws, Hwe, !nthR_singleton in Hc. cbn [bind] in Hc.
  destruct (nthZ _ (b_word s)) as [charStart|] eqn:Hs;
    [|inversion Hc; constructor].
  destruct (nthZ _ (b_word en)) as [charEnd|] eqn:He;
    [|inversion Hc; constructor].
  inversion Hc; subst l. clear Hc.
  destruct (@splitWords_span text words (b_word s) (b_word en)
              charStart charEnd Hwords Hs He ltac:(lia)) as [Hin1 Hin2].
  constructor; [|constructor]. split.
  - unfold spanOK. cbn [start end_ Decoder.text label].
    split; [assumption|]. split; [assumption|]. split; [reflexivity|].
    eauto.
  - apply (@wordSpan_of_offsets words (b_word s) (b_word en));
      [lia | exact Hs | exact He].
Qed.

(** *** One inference *)

Lemma buildTokenSequence_offsets tok text entities entToken sepToken sq :
  buildTokenSequence tok text entities entToken sepToken = Ok sq ->
  splitWords text = Ok (s_words sq)
  /\ s_wordsStartIdx sq = map (fun w => snd (fst w)) (s_words sq)
  /\ s_wordsEndIdx sq = map snd (s_words sq).
Proof.
  unfold buildTokenSequence. intros Hb. repeat bind_step Hb.
  inversion Hb; subst. cbn. auto.
Qed.

Lemma prepareSpanBatch_single tok text entities maxWidth entToken sepToken
  batch :
  prepareSpanBatch tok [text] entities maxWidth entToken sepToken = Ok batch ->
  exists words p,
    splitWords text = Ok words
    /\ batchWordsStartIdx batch = [map (fun w => snd (fst w)) words]
    /\ batchWordsEndIdx batch = [map snd words]
    /\ spanIdx batch = Some [map fst p]
    /\ spanMask batch = Some [map snd p]
    /\ Forall spanWF p.
Proof.
  unfold prepareSpanBatch. cbn [mapR]. intros Hb. bind_step Hb.
  bind_step E. cbn [bind] in E. inversion E; subst x. clear E.
  cbn [bind] in Hb. inversion Hb; subst batch. clear Hb.
  destruct (buildTokenSequence_offsets _ _ _ _ _ E0) as (Hw & Hs & He).
  exists (s_words x0). eexists.
  cbn [batchWordsStartIdx batchWordsEndIdx spanIdx spanMask map].
  rewrite Hs, He.
  split; [exact Hw|]. split; [reflexivity|]. split; [reflexivity|].
  split; [reflexivity|]. split; [reflexivity|].
  apply Forall_forall. intros c Hc. apply padTo_In in Hc.
  destruct Hc as [Hc| ->].
  - apply candidateSpans_In in Hc. exact Hc.
  - left. reflexivity.
Qed.

Lemma prepareBatch_single tok text entities entToken sepToken batch :
  prepareBatch tok [text] entities entToken sepToken = Ok batch ->
  exists words,
    splitWords text = Ok words
    /\ batchWordsStartIdx batch = [map (fun w => snd (fst w)) words]
    /\ batchWordsEndIdx batch = [map snd words].
Proof.
  unfold prepareBatch. cbn [mapR]. intros Hb. bind_step Hb.
  bind_step E. cbn [bind] in E. inversion E; subst x. clear E.
  cbn [bind] in Hb. inversion Hb; subst batch. clear Hb.
  destruct (buildTokenSequence_offsets _ _ _ _ _ E0) as (Hw & Hs & He).
  exists (s_words x0).
  cbn [batchWordsStartIdx batchWordsEndIdx map].
  rewrite Hs, He. auto.
Qed.

Lemma in_concat_mapR {A B} (f : A -> result (list B)) l ys y :
  mapR f l = Ok ys -> In y (concat ys) ->
  exists x r, In x l /\ f x = Ok r /\ In y r.
Proof.
  intros Hm Hy. apply in_concat in Hy. destruct Hy as (r & Hr & Hy).
  destruct (@mapR_In _ _ f l ys r Hm Hr) as (x & Hx & Hf).
  exists x, r. auto.
Qed.

Lemma decodeSpanExample_valid o text words p ents :
  sd_texts o = [text] ->
  sd_batchWordsStartIdx o = [map (fun w => snd (fst w)) words] ->
  sd_batchWordsEndIdx o = [map snd words] ->
  sd_spanIdx o = [map fst p] ->
  sd_spanMask o = [map snd p] ->
  Forall spanWF p ->
  splitWords text = Ok words ->
  decodeSpanExample o 0 = Ok ents ->
  Forall (alignedOK text (sd_entities o) words) ents.
Proof.
  intros Ht Hws Hwe Hidx Hmask Hp Hwords Hd.
  unfold decodeSpanExample in Hd. bind_step Hd. inversion Hd; subst ents.
  apply greedySearch_spec. apply Forall_forall. intros c Hc.
  destruct (@in_concat_mapR _ _ _ _ _ _ E Hc) as (s & l & _ & Hl & Hin).
  pose proof (@spanCandidate_valid _ _ _ _ _ _ _ Ht Hws Hwe Hidx Hmask Hp Hwords Hl)
    as Hall.
  rewrite Forall_forall in Hall. auto.
Qed.

Lemma decodeTokenExample_valid o text words ents :
  td_texts o = [text] ->
  td_batchWordsStartIdx o = [map (fun w => snd (fst w)) words] ->
  td_batchWordsEndIdx o = [map snd words] ->
  splitWords text = Ok words ->
  decodeTokenExample o 0 = Ok ents ->
  Forall (alignedOK text (td_entities o) words) ents.
Proof.
  intros Ht Hws Hwe Hwords Hd.
  unfold decodeTokenExample in Hd. bind_step Hd. bind_step Hd.
  inversion Hd; subst ents.
  apply greedySearch_spec. apply Forall_forall. intros c Hc.
  destruct (@in_concat_mapR _ _ _ _ _ _ E0 Hc) as (s & l & _ & Hl & Hin).
  bind_step Hl. inversion Hl; subst l.
  destruct (@in_concat_mapR _ _ _ _ _ _ E1 Hin) as (en & l & _ & Hl' & Hin').
  pose proof (@pairCandidate_valid _ _ _ _ _ _ _ _ Ht Hws Hwe Hwords Hl') as Hall.
  rewrite Forall_forall in Hall. auto.
Qed.

Lemma upto_one b : In b (upto 1) -> b = 0%Z.
Proof. intros Hb. apply (proj1 (upto_In _ _)) in Hb. lia. Qed.

(** One inference returns spans of the text it is run on, from the start
    of a word to the end of a word. *)
Lemma runInference_aligned st text labels threshold ents :
  runInference st text labels threshold = Ok ents ->
  exists words,
    splitWords text = Ok words /\ Forall (alignedOK text labels words) ents.
Proof.
  unfold runInference. intros Hr. bind_step Hr.
  destruct (_isSpanMode st).
  - unfold runSpanInference in Hr. bind_step Hr.
    destruct (prepareSpanBatch_single _ _ _ _ _ _ E0)
      as (words & p & Hw & Hs & He & Hidx & Hmask & Hp).
    rewrite Hidx, Hmask in Hr.
    repeat bind_step Hr.
    apply nthR_In in Hr. unfold decodeSpanLevel in *.
    match goal with
    | E : mapR (decodeSpanExample _) _ = Ok _ |- _ =>
        destruct (@mapR_In _ _ _ _ _ _ E Hr) as (b & Hb & Hd)
    end.
    apply upto_one in Hb. subst b. exists words. split; [exact Hw|].
    apply (decodeSpanExample_valid _ (text := text) (words := words) (p := p))
      in Hd; try assumption; reflexivity.
  - unfold runTokenInference in Hr. bind_step Hr.
    destruct (prepareBatch_single _ _ _ _ _ E0) as (words & Hw & Hs & He).
    repeat bind_step Hr.
    apply nthR_In in Hr. unfold decodeTokenLevel in *.
    match goal with
    | E : mapR (decodeTokenExample _) _ = Ok _ |- _ =>
        destruct (@mapR_In _ _ _ _ _ _ E Hr) as (b & Hb & Hd)
    end.
    apply upto_one in Hb. subst b. exists words. split; [exact Hw|].
    apply (decodeTokenExample_valid _ (text := text) (words := words))
      in Hd; try assumption; reflexivity.
Qed.

(** One inference returns spans of the text it is run on. *)
Lemma runInference_valid st text labels threshold ents :
  runInference st text labels threshold = Ok ents ->
  Forall (spanOK text labels) ents.
Proof.
  intros Hr. apply runInference_aligned in Hr.
  destruct Hr as (words & _ & Hall). revert Hall. apply Forall_impl.
  intros e [He _]. exact He.
Qed.

(** When the text is within the word ceiling, the entities [detectPII]
    returns are spans of the text. *)
Lemma detectPII_one_inference_valid env st st' text labels threshold ents :
  ensureReady env st = Ok st' ->
  (Z.of_nat (length (splitWs text)) <= maxWords st')%Z ->
  detectPII env st text labels threshold = Ok ents ->
  Forall (spanOK text (orElse labels PII_LABELS)) ents.
Proof.
  intros Hready Hwords Hd. unfold detectPII in Hd. cbv zeta in Hd.
  rewrite Hready in Hd. cbn [bind] in Hd.
  destruct (_session st'); [|discriminate].
  destruct (Z.ltb_spec (maxWords st') (Z.of_nat (length (splitWs text))));
    [lia|].
  exact (runInference_valid _ _ _ _ Hd).
Qed.

End WithRuntime.
End ValidityFacts.

Module DetectionFacts.
Import ListFacts SortFacts StringFacts JSFacts DecoderFacts InferenceFacts.
Import Config Processor Decoder Inference.

Section WithRuntime.
Context `{FloatOps} `{Unicode}.

Lemma NoOverlap_nth (l : list GLiNEREntity) :
  NoOverlap l ->
  forall i j a b, (i < j)%nat ->
    nth_error l i = Some a -> nth_error l j = Some b -> disjoint a b.
Proof.
  induction 1 as [|x l Hx _ IH]; intros i j a b Hij Ha Hb.
  - destruct i; discriminate.
  - destruct j as [|j]; [lia|]. simpl in Hb.
    destruct i as [|i]; simpl in Ha.
    + inversion Ha; subst. rewrite Forall_forall in Hx. apply Hx.
      eapply nth_error_In. eassumption.
    + eapply IH; [|eassumption|eassumption]. lia.
Qed.

(** C2 (as amended). The entity list of one [detectPII] call is sorted
    ascending by start offset. When the text is within the word ceiling, so
    that one inference is run, no two entities overlap. On the chunked path
    no two entities share their (start, end, label) triple; entities found
    in different windows may overlap. *)
Theorem detectPII_sorted_and_disjoint env st text labels threshold ents :
  detectPII env st text labels threshold = Ok ents ->
  SortedByStart ents
  /\ forall st', ensureReady env st = Ok st' ->
       ((Z.of_nat (length (splitWs text)) <= maxWords st')%Z ->
        NoOverlap ents)
       /\ ((maxWords st' < Z.of_nat (length (splitWs text)))%Z ->
           DistinctTriples ents).
Proof.
  unfold detectPII. intros Hd. bind_step Hd.
  destruct (_session x) as [session|]; [|discriminate].
  destruct (Z.ltb_spec (maxWords x) (Z.of_nat (length (splitWs text)))).
  - apply detectPIIChunked_spec in Hd. destruct Hd as [Hs Ht].
    split; [assumption|]. intros st' Hst'. inversion Hst'; subst.
    split; [lia | auto].
  - apply runInference_greedy in Hd. destruct Hd as (cands & ->).
    destruct (@greedySearch_spec _ (fun _ => True) cands) as (Hno & Hs & _).
    { apply Forall_forall. auto. }
    split; [assumption|]. intros st' Hst'. inversion Hst'; subst.
    split; [auto | lia].
Qed.


End WithRuntime.

Import Concrete.

(** Counterexample to C2 as stated: on a text of 201 words the two windows
    are decoded on their own; the entity "150 151" of the second window
    (offsets 600 to 607) overlaps the entity "150" of the first (offsets 600
    to 603), and both are returned. *)
Lemma chunked_windows_overlap :
  exists ents a b,
    detectPII contextEnv initialState numberedText (Some [str "person"]) None
    = Ok ents
    /\ nth_error ents 150 = Some a /\ nth_error ents 151 = Some b
    /\ (start a < end_ b)%Z /\ (start b < end_ a)%Z
    /\ ~ NoOverlap ents.
Proof.
  assert (Hb : match detectPII contextEnv initialState numberedText
                               (Some [str "person"]) None with
               | Ok ents =>
                   match nth_error ents 150, nth_error ents 151 with
                   | Some a, Some b =>
                       (start a <? end_ b)%Z && (start b <? end_ a)%Z
                   | _, _ => false
                   end
               | _ => false
               end = true) by (vm_compute; reflexivity).
  destruct (detectPII contextEnv initialState numberedText _ None)
    as [ents| |]; try discriminate.
  destruct (nth_error ents 150) as [a|] eqn:Ha; try discriminate.
  destruct (nth_error ents 151) as [b|] eqn:Hb'; try discriminate.
  apply andb_true_iff in Hb. destruct Hb as [H1 H2].
  apply Z.ltb_lt in H1. apply Z.ltb_lt in H2.
  exists ents, a, b. repeat split; try assumption.
  intros Hno.
  pose proof (@NoOverlap_nth _ _ Hno 150 151 a b ltac:(lia) Ha Hb') as Hd.
  unfold disjoint in Hd. lia.
Qed.


(** C3 at the failing input: on a text of 201 words with repeated words the
    second window is shifted by 2 instead of 300; [detectPII] returns the
    entity "ee" with the offsets 4 and 6, where the text reads "d ". *)
Theorem chunked_entity_text_mismatch :
  exists ents e,
    detectPII zeroEnv initialState repeatedText (Some [str "person"]) None
    = Ok ents
    /\ In e ents
    /\ text e = str "ee" /\ start e = 4%Z /\ end_ e = 6%Z
    /\ slice repeatedText (start e) (end_ e) = str "d "
    /\ slice repeatedText (start e) (end_ e) <> text e.
Proof.
  assert (Hb : match detectPII zeroEnv initialState repeatedText
                               (Some [str "person"]) None with
               | Ok ents =>
                   existsb (fun e => eqs (text e) (str "ee")
                                     && (start e =? 4)%Z && (end_ e =? 6)%Z
                                     && eqs (slice repeatedText (start e)
                                                   (end_ e))
                                            (str "d ")) ents
               | _ => false
               end = true) by (vm_compute; reflexivity).
  destruct (detectPII zeroEnv initialState repeatedText _ None)
    as [ents| |]; try discriminate.
  apply existsb_exists in Hb. destruct Hb as (e & Hin & He).
  apply andb_true_iff in He. destruct He as [He Hsl].
  apply andb_true_iff in He. destruct He as [He Hen].
  apply andb_true_iff in He. destruct He as [Hte Hst].
  apply eqs_eq in Hte, Hsl. apply Z.eqb_eq in Hst, Hen.
  exists ents, e. repeat split; try assumption.
  rewrite Hsl, Hte. discriminate.
Qed.

(** C6 at the failing input: the window that starts at word 150 of
    [repeatedText] starts at character 300, but the offset computed for it
    is 2, the place of the first "c" after the first "a"; the entities of
    that window are shifted by 2, so that its second word "ee" (at 302 in
    the text) is reported at 4. *)
Theorem chunk_offset_is_not_the_window_start :
  let words := splitWs repeatedText in
  let chunkWords := arraySlice words 150 350 in
  repeatedText = joinSp (firstn 150 words) ++ 32%N :: joinSp chunkWords
  /\ jslength (joinSp (firstn 150 words) ++ [32%N]) = 300%Z
  /\ chunkStartChar repeatedText words 150 chunkWords = 2%Z
  /\ slice repeatedText 302 304 = str "ee"
  /\ exists ents e,
       detectPII zeroEnv initialState repeatedText (Some [str "person"]) None
       = Ok ents
       /\ In e ents /\ text e = str "ee" /\ start e = 4%Z.
Proof.
  cbv zeta. split; [vm_compute; reflexivity|].
  split; [vm_compute; reflexivity|].
  split; [vm_compute; reflexivity|].
  split; [vm_compute; reflexivity|].
  assert (Hb : match detectPII zeroEnv initialState repeatedText
                               (Some [str "person"]) None with
               | Ok ents =>
                   existsb (fun e => eqs (text e) (str "ee")
                                     && (start e =? 4)%Z) ents
               | _ => false
               end = true) by (vm_compute; reflexivity).
  destruct (detectPII zeroEnv initialState repeatedText _ None)
    as [ents| |]; try discriminate.
  apply existsb_exists in Hb. destruct Hb as (e & Hin & He).
  apply andb_true_iff in He. destruct He as [He Hs].
  apply eqs_eq in He. apply Z.eqb_eq in Hs.
  exists ents, e. auto.
Qed.

End DetectionFacts.

Module PlaceholderFacts.
Import StringFacts MapFacts Anonymization.

Lemma str_inj a b : str a = str b -> a = b.
Proof.
  unfold str. intros Hs.
  assert (Hl : list_ascii_of_string a = list_ascii_of_string b).
  { revert Hs. generalize (list_ascii_of_string a) (list_ascii_of_string b).
    induction l as [|x l IH]; intros [|y l'] Hm; simpl in Hm;
      try discriminate; [reflexivity|].
    inversion Hm as [[Hxy Hll]]. f_equal; [|apply IH; assumption].
    rewrite <- (ascii_N_embedding x), <- (ascii_N_embedding y), Hxy.
    reflexivity. }
  rewrite <- (string_of_list_ascii_of_string a),
          <- (string_of_list_ascii_of_string b), Hl.
  reflexivity.
Qed.

Lemma decimal_inj a b :
  (0 <= a)%Z -> (0 <= b)%Z -> decimal a = decimal b -> a = b.
Proof.
  intros Ha Hb Hd. unfold decimal in Hd. apply str_inj in Hd.
  apply (f_equal NilEmpty.uint_of_string) in Hd.
  rewrite !NilEmpty.usu in Hd. inversion Hd as [Hu].
  apply DecimalN.Unsigned.to_uint_inj in Hu. lia.
Qed.

Lemma decimal_digits n : Forall (fun x => isDigit x = true) (decimal n).
Proof.
  unfold decimal. generalize (N.to_uint (Z.to_N n)).
  induction u; simpl; constructor; try reflexivity; assumption.
Qed.

Lemma decimal_noSpace n : ~ In 32%N (decimal n).
Proof.
  intros Hin. pose proof (decimal_digits n) as Hd.
  rewrite Forall_forall in Hd. apply Hd in Hin. discriminate.
Qed.

(** Two strings that agree after a first space-free part and a space agree
    part by part. *)
Lemma split_at_space : forall a b x y,
  ~ In 32%N a -> ~ In 32%N b ->
  a ++ 32%N :: x = b ++ 32%N :: y -> a = b /\ x = y.
Proof.
  induction a as [|c a IH]; intros [|d b] x y Ha Hb Heq; simpl in Heq.
  - inversion Heq. auto.
  - inversion Heq; subst. exfalso. apply Hb. left. reflexivity.
  - inversion Heq; subst. exfalso. apply Ha. left. reflexivity.
  - inversion Heq; subst.
    destruct (IH b x y) as [-> ->]; auto.
    + intros Hin. apply Ha. right. assumption.
    + intros Hin. apply Hb. right. assumption.
Qed.

(** A placeholder determines its type and its counter. *)
Lemma placeholderOf_inj t n t' n' :
  (0 <= n)%Z -> (0 <= n')%Z ->
  placeholderOf t n = placeholderOf t' n' -> t = t' /\ n = n'.
Proof.
  intros Hn Hn' Hp. unfold placeholderOf in Hp. inversion Hp as [Hq].
  apply (f_equal (@rev N)) in Hq.
  rewrite !rev_app_distr in Hq. simpl in Hq.
  rewrite !rev_app_distr in Hq. simpl in Hq.
  inversion Hq as [Hr].
  rewrite <- !app_assoc in Hr. simpl in Hr.
  apply split_at_space in Hr.
  - destruct Hr as [Hd Ht].
    apply (f_equal (@rev N)) in Hd, Ht. rewrite !rev_involutive in Hd, Ht.
    split; [assumption|]. apply decimal_inj; assumption.
  - rewrite <- in_rev. apply decimal_noSpace.
  - rewrite <- in_rev. apply decimal_noSpace.
Qed.

Lemma occurrences_nonneg t l : (0 <= occurrences t l)%Z.
Proof.
  induction l as [|x l IH]; cbn [occurrences]; [lia|]. destruct (eqs x t); lia.
Qed.

Lemma occurrences_app t a b :
  occurrences t (a ++ b) = (occurrences t a + occurrences t b)%Z.
Proof.
  induction a as [|x a IH]; cbn [occurrences app]; [reflexivity|].
  rewrite IH. lia.
Qed.

Lemma occurrences_rev t l : occurrences t (rev l) = occurrences t l.
Proof.
  induction l as [|x l IH]; cbn [occurrences rev]; [reflexivity|].
  rewrite occurrences_app, IH. cbn [occurrences]. lia.
Qed.

Lemma numbered_app : forall a seen b,
  numbered seen (a ++ b) = numbered seen a ++ numbered (rev a ++ seen) b.
Proof.
  induction a as [|t a IH]; intros seen b; cbn [numbered app rev];
    [reflexivity|].
  rewrite IH, <- app_assoc. reflexivity.
Qed.

Lemma numbered_bound : forall types seen p,
  In p (numbered seen types) ->
  exists t n, p = placeholderOf t n
              /\ (occurrences t seen < n
                  <= occurrences t seen + occurrences t types)%Z.
Proof.
  induction types as [|t types IH]; intros seen p Hin; cbn [numbered] in Hin.
  - contradiction.
  - destruct Hin as [<-|Hin].
    + exists t, (1 + occurrences t seen)%Z. split; [reflexivity|].
      cbn [occurrences]. rewrite eqs_refl.
      pose proof (occurrences_nonneg t types). lia.
    + apply IH in Hin. destruct Hin as (t' & n & -> & Hn).
      exists t', n. split; [reflexivity|]. cbn [occurrences] in *.
      destruct (eqs t t'); lia.
Qed.

(** Numbering never produces the same placeholder twice. *)
Lemma numbered_NoDup : forall types seen, NoDup (numbered seen types).
Proof.
  induction types as [|t types IH]; intros seen; cbn [numbered]; constructor.
  - intros Hin. apply numbered_bound in Hin.
    destruct Hin as (t' & n & Hp & Hn).
    pose proof (occurrences_nonneg t seen).
    pose proof (occurrences_nonneg t' (t :: seen)).
    apply placeholderOf_inj in Hp; [|lia|lia].
    destruct Hp as [<- <-]. cbn [occurrences] in Hn.
    rewrite eqs_refl in Hn. lia.
  - apply IH.
Qed.

End PlaceholderFacts.

Module CounterFacts.
Import StringFacts MapFacts ListFacts SortFacts PlaceholderFacts.
Import Regex Config Decoder Inference Anonymization.

Lemma mapGet_None_notin {V} (mp : list (jsstring * V)) k :
  mapGet eqs mp k = None <-> ~ In k (map fst mp).
Proof.
  induction mp as [|[k0 v0] mp IH]; simpl.
  - tauto.
  - destruct (eqs k k0) eqn:Hk.
    + apply eqs_eq in Hk. subst. split; [discriminate|].
      intros Hn. exfalso. apply Hn. left. reflexivity.
    + apply eqs_neq in Hk. rewrite IH. split.
      * intros Hn [Heq|Hin]; [congruence | contradiction].
      * intros Hn Hin. apply Hn. right. assumption.
Qed.

Lemma mapSet_fresh {V} (mp : list (jsstring * V)) k v :
  ~ In k (map fst mp) -> mapSet eqs mp k v = mp ++ [(k, v)].
Proof.
  induction mp as [|[k0 v0] mp IH]; simpl; intros Hn; [reflexivity|].
  destruct (eqs k k0) eqn:Hk.
  - apply eqs_eq in Hk. subst. exfalso. apply Hn. left. reflexivity.
  - rewrite IH; [reflexivity|]. intros Hin. apply Hn. right. assumption.
Qed.

Lemma counterOf_init counters t t' :
  counterOf (initCounter counters t) t'
  = if eqs t' t && (counterOf counters t =? 0)%Z then 1%Z
    else counterOf counters t'.
Proof.
  unfold initCounter.
  destruct (Z.eqb_spec (counterOf counters t) 0) as [Hz|Hz].
  - unfold counterOf at 1. rewrite (mapGet_mapSet eqs eqs_eq).
    destruct (eqs t' t); reflexivity.
  - rewrite andb_false_r. reflexivity.
Qed.

Lemma counterOf_bump counters t t' :
  counterOf (bumpCounter counters t) t'
  = if eqs t' t then (counterOf counters t + 1)%Z else counterOf counters t'.
Proof.
  unfold bumpCounter. unfold counterOf at 1.
  rewrite (mapGet_mapSet eqs eqs_eq). destruct (eqs t' t); reflexivity.
Qed.





(** *** The regex path *)


















Section WithRuntime.
Context `{FloatOps} `{Unicode}.


End WithRuntime.

End CounterFacts.

Module AnonymizationExamples.
Import StringFacts PlaceholderFacts.
Import Config Decoder Inference Anonymization Concrete.



(** The same failure on the hybrid path: a text that already holds the
    text of a placeholder. *)
Lemma hybrid_round_trip_needs_no_placeholder_in_text :
  exists r,
    anonymizeEntities (str "<email 1> wrote to a@b.co") [] = Ok r
    /\ reversePIIMappings (anonymized r) (mappings r)
       = str "a@b.co wrote to a@b.co".
Proof.
  exists {| anonymized := str "<email 1> wrote to <email 1>";
            mappings := [(str "<email 1>", str "a@b.co")] |}.
  split; vm_compute; reflexivity.
Qed.

(** A value that holds [$&]: on the way back the placeholder is replaced
    by itself. *)
Lemma hybrid_round_trip_needs_no_dollar :
  exists r,
    anonymizeTranscription contextEnv (Ok true) initialState dollarText = Ok r
    /\ reversePIIMappings (anonymized r) (mappings r) <> dollarText.
Proof.
  assert (Hb : match anonymizeTranscription contextEnv (Ok true) initialState
                                            dollarText with
               | Ok r => negb (eqs (reversePIIMappings (anonymized r)
                                                       (mappings r))
                                   dollarText)
               | _ => false
               end = true) by (vm_compute; reflexivity).
  destruct (anonymizeTranscription contextEnv (Ok true) initialState
                                   dollarText) as [r| |]; try discriminate.
  exists r. split; [reflexivity|]. intros Heq.
  rewrite Heq, eqs_refl in Hb. discriminate.
Qed.

(** An entity that is not a span of the text: on the text of 201 words the
    second window is shifted wrongly, and the way back gives another
    text. *)
Lemma hybrid_round_trip_needs_valid_entities :
  exists r,
    anonymizeTranscription zeroEnv (Ok true) initialState repeatedText = Ok r
    /\ reversePIIMappings (anonymized r) (mappings r) <> repeatedText.
Proof.
  assert (Hb : match anonymizeTranscription zeroEnv (Ok true) initialState
                                            repeatedText with
               | Ok r => negb (eqs (reversePIIMappings (anonymized r)
                                                       (mappings r))
                                   repeatedText)
               | _ => false
               end = true) by (vm_compute; reflexivity).
  destruct (anonymizeTranscription zeroEnv (Ok true) initialState
                                   repeatedText) as [r| |]; try discriminate.
  exists r. split; [reflexivity|]. intros Heq.
  rewrite Heq, eqs_refl in Hb. discriminate.
Qed.

End AnonymizationExamples.

Module TemplateFacts.
Import StringFacts RegexFacts PlaceholderFacts.
Import Regex Anonymization Template.

(** *** Literal patterns *)

Lemma m_seqs_cons a l st k :
  m (seqs (a :: l)) st k = m a st (fun st' => m (seqs l) st' k).
Proof. destruct l; reflexivity. Qed.

(** A literal matches where the text goes on with it, and nowhere else. *)
Lemma m_lits : forall p st k,
  m (lits p) st k
  = if isPrefix p (after st)
    then k (MState (rev p ++ before st) (skipn (length p) (after st))
                   (cap1 st))
    else None.
Proof.
  unfold lits. induction p as [|c p IH]; intros st k.
  - destruct st; reflexivity.
  - cbn [map]. rewrite m_seqs_cons. cbn [m chr].
    destruct (after st) as [|d rest] eqn:Ha; [reflexivity|].
    cbn [isPrefix length skipn].
    destruct (N.eqb c d) eqn:Hc; cbn [andb]; [|reflexivity].
    apply N.eqb_eq in Hc. subst d. rewrite IH. cbn [after before cap1].
    destruct (isPrefix p rest); [|reflexivity].
    cbn [rev]. rewrite <- app_assoc. reflexivity.
Qed.

Lemma isPrefix_app p s : isPrefix p (p ++ s) = true.
Proof.
  induction p as [|c p IH]; [reflexivity|].
  cbn [isPrefix app]. rewrite N.eqb_refl. exact IH.
Qed.

Lemma isPrefix_spec p : forall s,
  isPrefix p s = true -> exists rest, s = p ++ rest.
Proof.
  induction p as [|c p IH]; intros s Hp.
  - exists s. reflexivity.
  - destruct s as [|d s]; [discriminate|]. cbn [isPrefix] in Hp.
    apply andb_true_iff in Hp. destruct Hp as [Hc Hp].
    apply N.eqb_eq in Hc. subst d.
    destruct (IH _ Hp) as (rest & ->). exists rest. reflexivity.
Qed.

Lemma skipn_app_exact {A} (p s : list A) : skipn (length p) (p ++ s) = s.
Proof. induction p; [reflexivity | assumption]. Qed.


(** Where the literal stands, the search stops at once. *)
Lemma execFrom_hit p bef s :
  execFrom (lits p) bef (p ++ s)
  = Some (length bef, MState (rev p ++ bef) s None).
Proof.
  assert (Hm : m (lits p) (MState bef (p ++ s) None) Some
               = Some (MState (rev p ++ bef) s None)).
  { rewrite m_lits. cbn [after before cap1].
    rewrite isPrefix_app, skipn_app_exact. reflexivity. }
  destruct (p ++ s); cbn [execFrom]; rewrite Hm; reflexivity.
Qed.

(** Code units at which the literal does not start are passed over. *)
Lemma execFrom_skip p : forall w bef s,
  (forall u v, w = u ++ v -> v <> [] -> isPrefix p (v ++ s) = false) ->
  execFrom (lits p) bef (w ++ s) = execFrom (lits p) (rev w ++ bef) s.
Proof.
  induction w as [|c w IH]; intros bef s Hno; [reflexivity|].
  cbn [app execFrom]. rewrite m_lits. cbn [after].
  assert (H0 : isPrefix p ((c :: w) ++ s) = false)
    by (apply (Hno [] (c :: w)); [reflexivity | discriminate]).
  cbn [app] in H0. rewrite H0.
  rewrite IH.
  - cbn [rev]. rewrite <- app_assoc. reflexivity.
  - intros u v -> Hv. apply (Hno (c :: u) v); [reflexivity | assumption].
Qed.

Lemma execFrom_nil p bef : p <> [] -> execFrom (lits p) bef [] = None.
Proof.
  intros Hp. cbn [execFrom]. rewrite m_lits.
  destruct p; [contradiction | reflexivity].
Qed.

Lemma execFrom_from r : forall aft bef start e,
  execFrom r bef aft = Some (start, e) -> (length bef <= start)%nat.
Proof.
  intros aft bef start e He. apply execFrom_sound in He.
  destruct He as (st0 & _ & _ & _ & _ & Hle). exact Hle.
Qed.

(** The replacement loop copies what the search passes over. *)
Lemma replaceLoop_skip r repl w s fuel bef :
  execFrom r bef (w ++ s) = execFrom r (rev w ++ bef) s ->
  replaceLoop fuel r repl bef (w ++ s)
  = w ++ replaceLoop fuel r repl (rev w ++ bef) s.
Proof.
  intros He. destruct fuel as [|fuel]; [reflexivity|].
  cbn [replaceLoop]. rewrite He.
  destruct (execFrom r (rev w ++ bef) s) as [[start e]|] eqn:Hx;
    [|reflexivity].
  apply execFrom_from in Hx. rewrite length_app, length_rev in Hx.
  replace (start - length bef)%nat
    with (length w + (start - (length w + length bef)))%nat by lia.
  rewrite firstn_app_2.
  replace (length (rev w ++ bef)) with (length w + length bef)%nat
    by (rewrite length_app, length_rev; reflexivity).
  destruct (start <? pos e)%nat.
  - rewrite <- app_assoc. reflexivity.
  - destruct (after e); rewrite <- app_assoc; reflexivity.
Qed.

(** A replacement text without a dollar sign is inserted as it is. *)
Lemma getSubstitution_plain matched pre post : forall repl,
  ~ In 36%N repl -> getSubstitution matched pre post repl = repl.
Proof.
  induction repl as [|c repl IH]; intros Hn; [reflexivity|].
  cbn [getSubstitution].
  destruct (N.eqb_spec c 36) as [->|Hc].
  - exfalso. apply Hn. left. reflexivity.
  - rewrite IH; [reflexivity|]. intros Hin. apply Hn. right. assumption.
Qed.

(** *** Tags *)

Lemma split_at_unit (c : N) : forall a b x y : list N,
  ~ In c a -> ~ In c b -> a ++ c :: x = b ++ c :: y -> a = b /\ x = y.
Proof.
  induction a as [|d a IH]; intros b x y Ha Hb Heq.
  - destruct b as [|e b]; cbn [app] in Heq.
    + inversion Heq. auto.
    + inversion Heq; subst. exfalso. apply Hb. left. reflexivity.
  - destruct b as [|e b]; cbn [app] in Heq.
    + inversion Heq; subst. exfalso. apply Ha. left. reflexivity.
    + inversion Heq; subst.
      destruct (IH b x y) as [-> ->]; auto.
      * intros Hin. apply Ha. right. assumption.
      * intros Hin. apply Hb. right. assumption.
Qed.

(** No tag is the beginning of another one. *)
Lemma tag_prefix k k' rest :
  isTag k -> isTag k' -> isPrefix k (k' ++ rest) = true -> k = k'.
Proof.
  intros (b & -> & Hb1 & Hb2) (b' & -> & Hb1' & Hb2') Hp.
  apply isPrefix_spec in Hp. destruct Hp as (r2 & Hr).
  cbn [app] in Hr. inversion Hr as [Hr'].
  rewrite <- !app_assoc in Hr'. cbn [app] in Hr'.
  apply split_at_unit in Hr'; [|assumption|assumption].
  destruct Hr' as [-> _]. reflexivity.
Qed.

Lemma isPrefix_head k c s :
  isTag k -> c <> 60%N -> isPrefix k (c :: s) = false.
Proof.
  intros (b & -> & _) Hc. cbn [isPrefix].
  destruct (N.eqb_spec 60 c) as [<-|_]; [contradiction | reflexivity].
Qed.

(** A tag does not start inside a stretch without [<]. *)
Lemma tag_not_in_gap k w s :
  isTag k -> ~ In 60%N w ->
  forall u v, w = u ++ v -> v <> [] -> isPrefix k (v ++ s) = false.
Proof.
  intros Hk Hw u v -> Hv. destruct v as [|c v]; [contradiction|].
  cbn [app]. apply isPrefix_head; [assumption|].
  intros ->. apply Hw. apply in_or_app. right. left. reflexivity.
Qed.

(** A tag does not start inside another tag, nor at its beginning. *)
Lemma tag_not_in_tag k k' s :
  isTag k -> isTag k' -> k' <> k ->
  forall u v, k' = u ++ v -> v <> [] -> isPrefix k (v ++ s) = false.
Proof.
  intros Hk Hk' Hne u v Huv Hv.
  destruct u as [|d u].
  - cbn [app] in Huv. subst v.
    destruct (isPrefix k (k' ++ s)) eqn:Hp; [|reflexivity].
    apply tag_prefix in Hp; [congruence | assumption | assumption].
  - destruct Hk' as (b' & Hb' & Hb1 & Hb2). rewrite Hb' in Huv.
    cbn [app] in Huv. inversion Huv as [[Hd Hrest]].
    destruct v as [|c v]; [contradiction|].
    cbn [app]. apply isPrefix_head; [assumption|].
    intros ->.
    assert (Hin : In 60%N (b' ++ [62%N]))
      by (rewrite Hrest; apply in_or_app; right; left; reflexivity).
    apply in_app_or in Hin. destruct Hin as [Hin|[Hin|[]]];
      [contradiction | discriminate].
Qed.

Lemma tag_length k : isTag k -> (0 < length k)%nat.
Proof. intros (b & -> & _). cbn [length]. lia. Qed.

(** *** Replacing a placeholder in a template *)

Lemma render_cons it tpl : render (it :: tpl) = shown it ++ render tpl.
Proof. reflexivity. Qed.

Lemma restore_cons it tpl : restore (it :: tpl) = original it ++ restore tpl.
Proof. reflexivity. Qed.

Lemma replaceLoop_template k v :
  isTag k ->
  forall tpl fuel bef,
    Forall itemOK tpl ->
    (forall v', In (Hole k v') tpl -> v' = v) ->
    (holes tpl < fuel)%nat ->
    replaceLoop fuel (lits k) v bef (render tpl) = render (map (fill k) tpl).
Proof.
  intros Hk. induction tpl as [|it tpl IH]; intros fuel bef Hok Hval Hfuel.
  - destruct fuel as [|fuel]; [reflexivity|].
    cbn [render flat_map replaceLoop map].
    rewrite execFrom_nil; [reflexivity|].
    intros ->. apply tag_length in Hk. cbn in Hk. lia.
  - inversion Hok as [|? ? Hit Hok']; subst.
    assert (Hval' : forall v', In (Hole k v') tpl -> v' = v)
      by (intros v' Hin; apply Hval; right; assumption).
    rewrite render_cons. cbn [map]. rewrite render_cons.
    destruct it as [w|k' v']; cbn [shown fill holes] in *.
    + rewrite replaceLoop_skip.
      * rewrite IH; auto.
      * apply execFrom_skip. apply tag_not_in_gap; assumption.
    + destruct Hit as (Hk' & Hv1 & Hv2).
      destruct (eqs k' k) eqn:He.
      * apply eqs_eq in He. subst k'.
        assert (v' = v) by (apply Hval; left; reflexivity). subst v'.
        destruct fuel as [|fuel]; [lia|].
        cbn [replaceLoop]. rewrite execFrom_hit.
        unfold pos. cbn [before after].
        rewrite length_app, length_rev.
        pose proof (tag_length Hk) as Hlen.
        replace (length bef <? length k + length bef)%nat with true
          by (symmetry; apply Nat.ltb_lt; lia).
        rewrite Nat.sub_diag. cbn [firstn app shown].
        rewrite getSubstitution_plain by assumption.
        rewrite IH; [reflexivity | assumption | assumption | lia].
      * apply eqs_neq in He. rewrite replaceLoop_skip.
        -- cbn [shown]. rewrite IH; [reflexivity|assumption|assumption|lia].
        -- apply execFrom_skip. apply tag_not_in_tag; assumption.
Qed.

Lemma holes_length : forall tpl,
  Forall itemOK tpl -> (holes tpl <= length (render tpl))%nat.
Proof.
  induction tpl as [|it tpl IH]; intros Hok; [apply Nat.le_refl|].
  inversion Hok as [|? ? Hit Hok']; subst. specialize (IH Hok').
  rewrite render_cons, length_app.
  destruct it as [w|k v]; cbn [holes shown]; [lia|].
  destruct Hit as (Hk & _). apply tag_length in Hk. lia.
Qed.

Lemma fill_ok k : forall tpl,
  Forall itemOK tpl -> Forall itemOK (map (fill k) tpl).
Proof.
  intros tpl Hok. apply Forall_map. revert Hok. apply Forall_impl.
  intros [w|k' v]; cbn [fill itemOK]; [tauto|].
  destruct (eqs k' k); cbn [itemOK]; tauto.
Qed.

Lemma fill_holes k k' v' : forall tpl,
  In (Hole k' v') (map (fill k) tpl) -> In (Hole k' v') tpl /\ k' <> k.
Proof.
  intros tpl Hin. apply in_map_iff in Hin.
  destruct Hin as ([w|k0 v0] & Hf & Hin); cbn [fill] in Hf; [discriminate|].
  destruct (eqs k0 k) eqn:He; [discriminate|].
  inversion Hf; subst. apply eqs_neq in He. auto.
Qed.

Lemma fill_restore k : forall tpl, restore (map (fill k) tpl) = restore tpl.
Proof.
  induction tpl as [|it tpl IH]; [reflexivity|].
  cbn [map]. rewrite !restore_cons, IH.
  destruct it as [w|k' v]; cbn [fill]; [reflexivity|].
  destruct (eqs k' k); reflexivity.
Qed.

Lemma no_holes : forall tpl,
  (forall k v, ~ In (Hole k v) tpl) -> render tpl = restore tpl.
Proof.
  induction tpl as [|it tpl IH]; intros Hno; [reflexivity|].
  rewrite render_cons, restore_cons, IH.
  - destruct it as [w|k v]; [reflexivity|].
    exfalso. apply (Hno k v). left. reflexivity.
  - intros k v Hin. apply (Hno k v). right. assumption.
Qed.

Lemma reversePIIMappings_cons text k v ms :
  reversePIIMappings text ((k, v) :: ms)
  = reversePIIMappings (replaceLoop (S (length text)) (lits k) v [] text) ms.
Proof. reflexivity. Qed.

(** Restoring a template: when every placeholder of it is a key of the
    mappings, with its value, the way back gives the text with the values. *)
Lemma reverse_template : forall ms tpl,
  Forall itemOK tpl ->
  Forall isTag (map fst ms) ->
  NoDup (map fst ms) ->
  (forall k v, In (Hole k v) tpl -> In (k, v) ms) ->
  reversePIIMappings (render tpl) ms = restore tpl.
Proof.
  induction ms as [|[k v] ms IH]; intros tpl Hok Htags Hnd Hin.
  - apply no_holes. intros k v H. exact (Hin k v H).
  - cbn [map fst] in Htags, Hnd.
    inversion Htags as [|? ? Hk Htags']; subst.
    inversion Hnd as [|? ? Hfresh Hnd']; subst.
    rewrite reversePIIMappings_cons, (@replaceLoop_template k v).
    + rewrite IH; [apply fill_restore | apply fill_ok; assumption
                   | assumption | assumption |].
      intros k' v' H'. apply fill_holes in H'. destruct H' as [H' Hne].
      destruct (Hin _ _ H') as [Heq|Hms]; [|assumption].
      inversion Heq; subst. contradiction.
    + assumption.
    + assumption.
    + intros v' Hv'. destruct (Hin _ _ Hv') as [Heq|Hms].
      * inversion Heq; reflexivity.
      * exfalso. apply Hfresh. apply in_map_iff.
        exists (k, v'). split; [reflexivity | assumption].
    + pose proof (holes_length Hok). lia.
Qed.

End TemplateFacts.

Module OrderFacts.
Import SortFacts DecoderFacts Anonymization Spans.



Lemma pairs_prefix {A} (R : A -> A -> Prop) : forall a b,
  ForallOrdPairs R (a ++ b) -> ForallOrdPairs R a.
Proof.
  induction a as [|y a IH]; intros b Hp; cbn [app] in *.
  - constructor.
  - inversion Hp as [|? ? Hy Hrest]; subst. constructor.
    + apply Forall_app in Hy. tauto.
    + apply (IH b). assumption.
Qed.

Lemma pairs_conj {A} (R Q : A -> A -> Prop) : forall l,
  ForallOrdPairs R l -> ForallOrdPairs Q l ->
  ForallOrdPairs (fun a b => R a b /\ Q a b) l.
Proof.
  induction l as [|x l IH]; intros Hr Hq; [constructor|].
  inversion Hr; subst. inversion Hq; subst. constructor.
  - rewrite Forall_forall in *. auto.
  - apply IH; assumption.
Qed.

Lemma pairs_Forall {A} (P : A -> Prop) : forall l,
  Forall P l -> ForallOrdPairs (fun a b => P a /\ P b) l.
Proof.
  induction l as [|x l IH]; intros Hp; [constructor|].
  inversion Hp as [|? ? Hx Hl]; subst. constructor.
  - revert Hl. apply Forall_impl. auto.
  - apply IH. assumption.
Qed.


(** *** Step 3: the first sort and the removal of overlaps *)







(** *** Step 4: the sort by descending start *)

Section Descending.
Context {A : Type} (key : A -> Z) (S : A -> A -> Prop).

Lemma insertBy_descending x : forall l,
  Forall (S x) l -> ForallOrdPairs (descending key S) l ->
  ForallOrdPairs (descending key S)
    (insertBy (fun a b => (0 <? key b - key a)%Z) x l).
Proof.
  induction l as [|y l IH]; intros Hx Hl; cbn [insertBy].
  - constructor; constructor.
  - inversion Hx as [|? ? Hxy Hxl]; subst.
    inversion Hl as [|? ? Hy Hl']; subst.
    destruct (Z.ltb_spec 0 (key y - key x)) as [Hlt|Hge].
    + constructor; [|apply IH; assumption].
      apply Forall_forall. intros z Hz.
      apply (proj1 (insertBy_In _ x z l)) in Hz. destruct Hz as [->|Hz].
      * left. split; [lia | right; assumption].
      * rewrite Forall_forall in Hy. apply Hy. assumption.
    + constructor; [|constructor; assumption].
      assert (Hkeys : Forall (fun z => (key z <= key y)%Z) l).
      { revert Hy. apply Forall_impl. intros z [[Hz _]|[Hz _]]; lia. }
      constructor.
      * destruct (Z.eq_dec (key x) (key y)) as [He|Hne].
        -- right. auto.
        -- left. split; [lia | left; assumption].
      * rewrite Forall_forall in *. intros z Hz.
        specialize (Hkeys z Hz). specialize (Hxl z Hz).
        destruct (Z.eq_dec (key x) (key z)) as [He|Hne].
        -- right. auto.
        -- left. split; [lia | left; assumption].
Qed.

Lemma sortBy_descending : forall l,
  ForallOrdPairs S l ->
  ForallOrdPairs (descending key S)
    (sortBy (fun a b => (0 <? key b - key a)%Z) l).
Proof.
  induction l as [|x l IH]; intros Hl; [constructor|].
  inversion Hl as [|? ? Hx Hl']; subst.
  change (sortBy (fun a b => (0 <? key b - key a)%Z) (x :: l))
    with (insertBy (fun a b => (0 <? key b - key a)%Z) x
            (sortBy (fun a b => (0 <? key b - key a)%Z) l)).
  apply insertBy_descending; [|apply IH; assumption].
  apply Forall_forall. intros y Hy. apply (proj1 (sortBy_In _ y l)) in Hy.
  rewrite Forall_forall in Hx. apply Hx. assumption.
Qed.

End Descending.



End OrderFacts.

Module CaptureFacts.
Import RegexFacts JSFacts ProcessorFacts ListFacts TemplateFacts.
Import Regex Processor Anonymization Spans.

(** *** The extent of the capture group *)



(** *** Trimming and searching *)





(** *** The matches of the patterns are valid *)





End CaptureFacts.

Module RoundTripFacts.
Import StringFacts MapFacts ListFacts SortFacts JSFacts PlaceholderFacts.
Import CounterFacts TemplateFacts OrderFacts CaptureFacts.
Import Regex Config Decoder Inference Anonymization Template Spans.

Lemma counter_current counters seen t :
  CountInv counters seen ->
  counterOf (initCounter counters t) t = (1 + occurrences t seen)%Z.
Proof.
  intros Hc. rewrite counterOf_init, eqs_refl. cbn [andb].
  destruct (Z.eqb_spec (counterOf counters t) 0) as [Hz|Hz].
  - destruct (Hc t) as [H1|[_ H2]]; [|lia].
    pose proof (occurrences_nonneg t seen). lia.
  - destruct (Hc t) as [H1|[H1 _]]; [assumption | contradiction].
Qed.

Lemma placeholder_fresh (keys : list jsstring) seen t :
  keys = numbered [] (rev seen) ->
  ~ In (placeholderOf t (1 + occurrences t seen)) keys.
Proof.
  intros -> Hin. apply numbered_bound in Hin.
  destruct Hin as (t' & n & Hp & Hn).
  pose proof (occurrences_nonneg t seen).
  cbn [occurrences] in Hn.
  apply placeholderOf_inj in Hp; [|lia|lia].
  destruct Hp as [<- <-]. rewrite occurrences_rev in Hn. lia.
Qed.

Lemma CountInv_bump counters seen t :
  CountInv counters seen ->
  CountInv (bumpCounter (initCounter counters t) t) (t :: seen).
Proof.
  intros Hc t'. rewrite counterOf_bump, (counter_current t Hc).
  cbn [occurrences]. destruct (eqs t' t) eqn:Ht.
  - apply eqs_eq in Ht. subst t'. rewrite eqs_refl. left. lia.
  - assert (eqs t t' = false) as ->.
    { apply eqs_neq. apply eqs_neq in Ht. congruence. }
    rewrite counterOf_init, Ht. cbn [andb]. apply Hc.
Qed.

Lemma numbered_snoc seen t :
  numbered [] (rev (t :: seen))
  = numbered [] (rev seen) ++ [placeholderOf t (1 + occurrences t seen)].
Proof.
  cbn [rev]. rewrite numbered_app. cbn [numbered].
  rewrite app_nil_r, rev_involutive. reflexivity.
Qed.

(** A placeholder of a safe type is a tag. *)
Lemma placeholder_tag t n : safeType t -> isTag (placeholderOf t n).
Proof.
  intros [H1 H2]. exists (t ++ 32%N :: decimal n). split; [|split].
  - unfold placeholderOf. cbn [app]. rewrite <- app_assoc. reflexivity.
  - intros Hin. apply in_app_or in Hin. destruct Hin as [Hin|[Hin|Hin]];
      [contradiction | discriminate |].
    pose proof (decimal_digits n) as Hd. rewrite Forall_forall in Hd.
    apply Hd in Hin. discriminate.
  - intros Hin. apply in_app_or in Hin. destruct Hin as [Hin|[Hin|Hin]];
      [contradiction | discriminate |].
    pose proof (decimal_digits n) as Hd. rewrite Forall_forall in Hd.
    apply Hd in Hin. discriminate.
Qed.

Lemma In_firstn {A} (x : A) n l : In x (firstn n l) -> In x l.
Proof.
  intros Hin. rewrite <- (firstn_skipn n l). apply in_or_app. left. exact Hin.
Qed.

Lemma In_skipn {A} (x : A) n l : In x (skipn n l) -> In x l.
Proof.
  intros Hin. rewrite <- (firstn_skipn n l). apply in_or_app. right. exact Hin.
Qed.

Lemma In_slice x (s : jsstring) a b : In x (slice s a b) -> In x s.
Proof. unfold slice. intros Hin. apply In_firstn, In_skipn in Hin. exact Hin. Qed.

(** The three pieces of the text from [s] on: the match, the stretch up
    to [cur], and the rest. *)
Lemma pieces {A} (text : list A) s e cur :
  (s <= e)%nat -> (e <= cur)%nat -> (cur <= length text)%nat ->
  firstn (e - s) (skipn s text) ++ skipn e (firstn cur text)
    ++ skipn cur text
  = skipn s text.
Proof.
  intros Hse Hec Hcur.
  assert (Hrest : skipn e (firstn cur text) ++ skipn cur text = skipn e text).
  { rewrite <- (firstn_skipn cur text) at 3. rewrite skipn_app.
    rewrite length_firstn.
    replace (e - Nat.min cur (length text))%nat with 0%nat by lia.
    reflexivity. }
  rewrite Hrest.
  replace (skipn e text) with (skipn (e - s) (skipn s text))
    by (rewrite skipn_skipn; f_equal; lia).
  apply firstn_skipn.
Qed.

Lemma mapSet_In (mp : list (jsstring * jsstring)) k v k' v' :
  ~ In k (map fst mp) ->
  In (k', v') (mp ++ [(k, v)]) ->
  In (k', v') (setMapping mp k v).
Proof.
  intros Hfresh Hin. unfold setMapping. rewrite mapSet_fresh by assumption.
  exact Hin.
Qed.

(** Step 4 turns the text into a template: the anonymized text shows the
    placeholders, their values give the text back, and the mappings hold
    every placeholder with its value. *)
Lemma assignLoop_template text :
  ~ In 60%N text -> ~ In 36%N text ->
  forall rest counters mappings anonymized seen cur tpl,
    CountInv counters seen ->
    map fst mappings = numbered [] (rev seen) ->
    Forall isTag (map fst mappings) ->
    (cur <= length text)%nat ->
    anonymized = firstn cur text ++ render tpl ->
    restore tpl = skipn cur text ->
    Forall itemOK tpl ->
    (forall k v, In (Hole k v) tpl -> In (k, v) mappings) ->
    Forall (validMatch text) rest ->
    Forall (fun mt => (end_ mt <= Z.of_nat cur)%Z) rest ->
    ForallOrdPairs below rest ->
    let r := assignLoop rest counters mappings anonymized in
    exists tpl',
      Anonymization.anonymized r = render tpl'
      /\ restore tpl' = text
      /\ Forall itemOK tpl'
      /\ (forall k v, In (Hole k v) tpl' -> In (k, v) (Anonymization.mappings r))
      /\ Forall isTag (map fst (Anonymization.mappings r))
      /\ NoDup (map fst (Anonymization.mappings r)).
Proof.
  intros Hlt Hdollar.
  induction rest as [|mt rest IH];
    intros counters mappings anonymized seen cur tpl
           Hc Hkeys Htags Hcur Hanon Hrestore Hok Hholes Hvalid Hends Hbelow;
    cbn [assignLoop].
  - cbn [Anonymization.anonymized Anonymization.mappings].
    exists (Gap (firstn cur text) :: tpl). split; [exact Hanon|].
    split; [rewrite restore_cons, Hrestore; apply firstn_skipn|].
    split; [constructor; [intros Hin; apply In_firstn in Hin; auto|assumption]|].
    split; [intros k v [Hkv|Hkv]; [discriminate | auto]|].
    split; [assumption|]. rewrite Hkeys. apply numbered_NoDup.
  - inversion Hvalid as [|? ? Hmt Hvalid']; subst.
    inversion Hends as [|? ? Hend Hends']; subst.
    inversion Hbelow as [|? ? Hmtbelow Hbelow']; subst.
    destruct Hmt as (Hse & Hlen & Hslice & Hsafe).
    set (t := type mt) in *.
    rewrite (counter_current t Hc).
    set (k := placeholderOf t (1 + occurrences t seen)).
    pose proof (@placeholder_fresh (map fst mappings) seen t Hkeys) as Hfresh.
    fold k in Hfresh.
    set (s := Z.to_nat (start mt)). set (e := Z.to_nat (end_ mt)).
    assert (Hs : start mt = Z.of_nat s) by (unfold s; lia).
    assert (He : end_ mt = Z.of_nat e) by (unfold e; lia).
    assert (Hse' : (s <= e)%nat) by lia.
    assert (Hec : (e <= cur)%nat) by lia.
    assert (Hval : value mt = firstn (e - s) (skipn s text)).
    { rewrite <- Hslice, Hs, He. apply slice_nat; lia. }
    assert (Hlena : length (firstn cur text) = cur)
      by (rewrite length_firstn; lia).
    apply (IH _ _ _ (t :: seen) s
              (Hole k (value mt) :: Gap (skipn e (firstn cur text)) :: tpl)).
    + apply CountInv_bump. assumption.
    + unfold setMapping. rewrite mapSet_fresh by assumption.
      rewrite map_app, Hkeys, numbered_snoc. reflexivity.
    + unfold setMapping. rewrite mapSet_fresh by assumption.
      rewrite map_app. apply Forall_app. split; [assumption|].
      constructor; [|constructor]. apply placeholder_tag. assumption.
    + lia.
    + rewrite Hs, He.
      change 0%Z with (Z.of_nat 0).
      rewrite slice_nat, sliceFrom_nat
        by (rewrite ?length_app, ?Hlena; lia).
      cbn [skipn]. rewrite Nat.sub_0_r.
      rewrite firstn_app, Hlena.
      replace (s - cur)%nat with 0%nat by lia. cbn [firstn].
      rewrite app_nil_r, firstn_firstn.
      replace (Nat.min s cur) with s by lia.
      rewrite skipn_app, Hlena.
      replace (e - cur)%nat with 0%nat by lia. cbn [skipn].
      rewrite !render_cons. cbn [shown]. reflexivity.
    + rewrite !restore_cons. cbn [original]. rewrite Hrestore, Hval.
      apply pieces; assumption.
    + constructor; [|constructor; [|assumption]].
      * cbn [itemOK]. split; [apply placeholder_tag; assumption|].
        rewrite <- Hslice.
        split; intros Hin; apply In_slice in Hin; auto.
      * cbn [itemOK]. intros Hin. apply In_skipn, In_firstn in Hin. auto.
    + intros k' v' [Hkv|[Hkv|Hkv]]; [|discriminate|].
      * inversion Hkv; subst k' v'. apply mapSet_In; [assumption|].
        apply in_or_app. right. left. reflexivity.
      * apply mapSet_In; [assumption|]. apply in_or_app. left. auto.
    + assumption.
    + revert Hmtbelow. apply Forall_impl. unfold below. intros b Hb. lia.
    + assumption.
Qed.

Lemma safeTypeb_spec t : safeTypeb t = true -> safeType t.
Proof.
  unfold safeTypeb, safeType. intros Hb.
  rewrite forallb_forall in Hb.
  split; intros Hin; apply Hb in Hin; discriminate.
Qed.


Lemma without_spec c s : without c s = true -> ~ In c s.
Proof.
  unfold without. intros Hb Hin.
  assert (existsb (N.eqb c) s = true)
    by (apply existsb_exists; exists c; split; [assumption|apply N.eqb_refl]).
  destruct (existsb (N.eqb c) s); discriminate.
Qed.

Section WithRuntime.
Context `{FloatOps} `{Unicode}.




End WithRuntime.

Import Concrete.


End RoundTripFacts.

Module ShortTextFacts.
Import StringFacts ListFacts RoundTripFacts ValidityFacts.
Import Config Decoder Inference Anonymization ValiditySpec.

Lemma piiTypes_safe k : safeType (typeOfLabel (nthZ PII_LABELS k)).
Proof.
  assert (Hall : forallb (fun l => safeTypeb (typeOfLabel (Some l)))
                         PII_LABELS = true) by reflexivity.
  destruct (nthZ PII_LABELS k) as [l|] eqn:Hk.
  - apply safeTypeb_spec. rewrite forallb_forall in Hall. apply Hall.
    unfold nthZ in Hk. destruct (k <? 0)%Z; [discriminate|].
    eapply nth_error_In. exact Hk.
  - apply safeTypeb_spec. reflexivity.
Qed.

Section WithRuntime.
Context `{FloatOps} `{Unicode}.

Lemma spanOK_entityOK text e : spanOK text PII_LABELS e -> entityOK text e.
Proof.
  intros (Hse & Hlen & Htext & k & Hk). unfold entityOK.
  split; [lia|]. split; [assumption|]. split; [symmetry; assumption|].
  rewrite Hk. apply piiTypes_safe.
Qed.


End WithRuntime.
End ShortTextFacts.

Module GreedyFacts.
Import ListFacts SortFacts DecoderFacts Decoder.

Section WithRuntime.
Context `{FloatOps}.

Lemma acceptLoop_grows : forall sorted accepted a,
  In a accepted -> In a (acceptLoop sorted accepted).
Proof.
  induction sorted as [|c rest IH]; intros accepted a Ha; cbn [acceptLoop].
  - exact Ha.
  - destruct (existsb (overlaps c) accepted); apply IH; [exact Ha|].
    apply in_or_app. left. exact Ha.
Qed.

Lemma acceptLoop_from : forall sorted accepted a,
  In a (acceptLoop sorted accepted) -> In a accepted \/ In a sorted.
Proof.
  induction sorted as [|c rest IH]; intros accepted a Ha; cbn [acceptLoop] in Ha.
  - left. exact Ha.
  - destruct (existsb (overlaps c) accepted).
    + destruct (IH _ _ Ha) as [Hin|Hin]; [left|right; right]; assumption.
    + destruct (IH _ _ Ha) as [Hin|Hin]; [|right; right; assumption].
      apply in_app_or in Hin. destruct Hin as [Hin|[<-|[]]];
        [left; assumption | right; left; reflexivity].
Qed.

(** Every candidate the loop goes through is accepted, or overlaps an
    entity that was accepted before it. *)
Lemma acceptLoop_covers : forall sorted accepted pre c post,
  sorted = pre ++ c :: post ->
  In c (acceptLoop sorted accepted)
  \/ exists a, (In a accepted \/ In a pre)
               /\ In a (acceptLoop sorted accepted)
               /\ overlaps c a = true.
Proof.
  induction sorted as [|c0 rest IH]; intros accepted pre c post Hs.
  - destruct pre; discriminate.
  - destruct pre as [|p pre]; cbn [app] in Hs; inversion Hs; subst;
      cbn [acceptLoop].
    + destruct (existsb (overlaps c) accepted) eqn:Hex.
      * right. apply existsb_exists in Hex. destruct Hex as (a & Ha & Ho).
        exists a. split; [left; assumption|].
        split; [apply acceptLoop_grows; assumption | assumption].
      * left. apply acceptLoop_grows. apply in_or_app. right. left.
        reflexivity.
    + destruct (existsb (overlaps p) accepted).
      * destruct (IH accepted pre c post eq_refl) as [Hin|(a & Ha & Hin & Ho)];
          [left; assumption|].
        right. exists a. split; [|split; assumption].
        destruct Ha; [left|right; right]; assumption.
      * destruct (IH (accepted ++ [p]) pre c post eq_refl)
          as [Hin|(a & Ha & Hin & Ho)]; [left; assumption|].
        right. exists a. split; [|split; assumption].
        destruct Ha as [Ha|Ha]; [|right; right; assumption].
        apply in_app_or in Ha. destruct Ha as [Ha|[<-|[]]];
          [left; assumption | right; left; reflexivity].
Qed.

(** X1. The overlap resolution keeps a maximal set of candidates: the
    entities kept are candidates, pairwise disjoint and sorted by start
    offset, and every candidate is kept or overlaps a kept entity that comes
    before it in the order of the scores. *)
Theorem greedySearch_keeps_a_maximal_set (candidates : list GLiNEREntity) :
  let sorted :=
    sortBy (fun a b => fgt (fsub (score b) (score a)) (fofQ 0)) candidates in
  let kept := greedySearch candidates in
  NoOverlap kept
  /\ SortedByStart kept
  /\ (forall e, In e kept -> In e candidates)
  /\ (forall pre c post, sorted = pre ++ c :: post ->
        In c kept
        \/ exists a, In a pre /\ In a kept /\ overlaps c a = true).
Proof.
  cbv zeta.
  destruct (@greedySearch_spec _ (fun e => In e candidates) candidates)
    as (Hno & Hsorted & Hfrom); [apply Forall_forall; auto|].
  split; [exact Hno|]. split; [exact Hsorted|].
  split; [rewrite Forall_forall in Hfrom; exact Hfrom|].
  intros pre c post Hs. unfold greedySearch.
  destruct (@acceptLoop_covers _ [] pre c post Hs)
    as [Hin|(a & [[]|Ha] & Hin & Ho)].
  - left. apply (proj2 (sortBy_In _ c _)). exact Hin.
  - right. exists a. split; [exact Ha|]. split; [|exact Ho].
    apply (proj2 (sortBy_In _ a _)). exact Hin.
Qed.

End WithRuntime.
End GreedyFacts.

Module AlignmentFacts.
Import ListFacts ValidityFacts.
Import Config Processor Decoder Inference.

Section WithRuntime.
Context `{FloatOps} `{Unicode}.

(** X2. When the text is within the word ceiling, so that one inference is
    run, every entity [detectPII] returns is a non-empty span inside the
    text, its [text] is the slice it covers, its label is read from the
    label array, and it runs from the start of a word of [splitWords] to the
    end of the same or of a later word. A text without words yields no
    entity. *)
Theorem detectPII_entities_are_word_spans
  env st st' text labels threshold ents :
  ensureReady env st = Ok st' ->
  (Z.of_nat (length (splitWs text)) <= maxWords st')%Z ->
  detectPII env st text labels threshold = Ok ents ->
  exists words,
    splitWords text = Ok words
    /\ Forall (alignedOK text (orElse labels PII_LABELS) words) ents
    /\ (words = [] -> ents = []).
Proof.
  intros Hready Hwords Hd. unfold detectPII in Hd. cbv zeta in Hd.
  rewrite Hready in Hd. cbn [bind] in Hd.
  destruct (_session st'); [|discriminate].
  destruct (Z.ltb_spec (maxWords st') (Z.of_nat (length (splitWs text))));
    [lia|].
  apply runInference_aligned in Hd. destruct Hd as (words & Hw & Hall).
  exists words. split; [exact Hw|]. split; [exact Hall|].
  intros ->. destruct ents as [|e ents]; [reflexivity|].
  inversion Hall as [|? ? [_ Hspan] _]; subst.
  destruct Hspan as (i & j & wi & ei & wj & sj & _ & Hi & _).
  destruct i; discriminate.
Qed.

End WithRuntime.
End AlignmentFacts.

Module ReverseFacts.
Import StringFacts RegexFacts TemplateFacts.
Import Regex Anonymization.

Lemma execFrom_absent k : forall aft bef pos,
  indexOfAux k aft pos = (-1)%Z -> execFrom (lits k) bef aft = None.
Proof.
  induction aft as [|c aft IH]; intros bef pos Hi;
    cbn [indexOfAux execFrom] in *; rewrite m_lits; cbn [after].
  - destruct (isPrefix k []); [lia | reflexivity].
  - destruct (isPrefix k (c :: aft)); [lia|].
    apply (IH _ _ Hi).
Qed.

Lemma replaceAll_absent k text v :
  indexOf text k 0 = (-1)%Z -> replaceAll (literalPattern k) text v = text.
Proof.
  unfold indexOf, jslength. intros Hi.
  replace (Z.to_nat (Z.min (Z.max 0 0) (Z.of_nat (length text)))) with 0%nat
    in Hi by lia.
  cbn [skipn] in Hi.
  unfold replaceAll, literalPattern. cbn [replaceLoop].
  rewrite (@execFrom_absent k text [] 0%nat Hi). reflexivity.
Qed.

(** X3. A text in which no placeholder of the mappings occurs is returned
    unchanged by [reversePIIMappings]. *)
Theorem reversePIIMappings_without_placeholders text mappings :
  (forall k, In k (map fst mappings) -> indexOf text k 0 = (-1)%Z) ->
  reversePIIMappings text mappings = text.
Proof.
  induction mappings as [|[k v] mappings IH]; intros Hno; [reflexivity|].
  rewrite reversePIIMappings_cons.
  assert (Hk : replaceAll (literalPattern k) text v = text).
  { apply replaceAll_absent. apply Hno. left. reflexivity. }
  unfold replaceAll, literalPattern in Hk. rewrite Hk.
  apply IH. intros k' Hk'. apply Hno. right. exact Hk'.
Qed.

End ReverseFacts.

Module TotalityFacts.
Import StringFacts ListFacts RegexFacts CounterFacts.
Import Regex Config Decoder Inference Anonymization.

Lemma Matches_keeps_cap r : forall st st',
  Matches r st st' -> cap1 st <> None -> cap1 st' <> None.
Proof.
  induction r as [|p|a IHa b IHb|a IHa b IHb|lo hi a IHa| |a IHa];
    intros st st' Hm Hc; cbn [Matches] in Hm.
  - subst. assumption.
  - destruct Hm as (c & rest & _ & _ & ->). exact Hc.
  - destruct Hm as (mid & H1 & H2). eauto.
  - destruct Hm as [Hm|Hm]; eauto.
  - destruct Hm as (n & _ & Hi). revert st Hi Hc.
    induction n as [|n IHn]; intros st Hi Hc; cbn [iter] in Hi.
    + subst. assumption.
    + destruct Hi as (mid & H1 & H2). eauto.
  - destruct Hm as [-> _]. assumption.
  - destruct Hm as (st1 & _ & ->). discriminate.
Qed.

Lemma Matches_captures r : forall st st',
  Matches r st st' -> captures r = true -> cap1 st' <> None.
Proof.
  induction r as [|p|a IHa b IHb|a IHa b IHb|lo hi a IHa| |a IHa];
    intros st st' Hm Hc; cbn [Matches captures] in *; try discriminate.
  - destruct Hm as (mid & H1 & H2).
    apply orb_true_iff in Hc. destruct Hc as [Hc|Hc].
    + apply (@Matches_keeps_cap b mid st' H2). eauto.
    + eauto.
  - apply andb_true_iff in Hc. destruct Hc as [Hc1 Hc2].
    destruct Hm as [Hm|Hm]; eauto.
  - apply andb_true_iff in Hc. destruct Hc as [Hlo Hc].
    apply Nat.ltb_lt in Hlo.
    destruct Hm as (n & Hn & Hi). destruct n as [|n]; [lia|].
    cbn [iter] in Hi. destruct Hi as (mid & H1 & H2).
    assert (Hmid : cap1 mid <> None) by eauto.
    clear H1 Hn. revert mid H2 Hmid.
    induction n as [|n IHn]; intros mid H2 Hmid; cbn [iter] in H2.
    + subst. assumption.
    + destruct H2 as (mid' & H1 & H2).
      apply (IHn mid' H2). apply (@Matches_keeps_cap a mid mid' H1 Hmid).
  - destruct Hm as (st1 & _ & ->). discriminate.
Qed.

Lemma execAll_total r text :
  consumes r = true -> exists ms, execAll r text = Ok ms.
Proof.
  intros Hc. unfold execAll. apply execLoop_total; [exact Hc | lia].
Qed.

Lemma execAll_captures r text ms :
  captures r = true -> execAll r text = Ok ms ->
  Forall (fun mt => mcap mt <> None) ms.
Proof.
  intros Hc He. unfold execAll in He. apply execLoop_sound in He.
  destruct He as [Hf _]. revert Hf. apply Forall_impl.
  intros mt (st0 & e & Hm & _ & _ & _ & _ & Hcap).
  rewrite <- Hcap. exact (@Matches_captures r st0 e Hm Hc).
Qed.

Lemma structuredLoop_total text : forall ps acc,
  forallb (fun p => consumes (snd p)) ps = true ->
  exists acc', structuredLoop text ps acc = Ok acc'.
Proof.
  induction ps as [|[ty pattern] ps IH]; intros acc Hc; cbn [structuredLoop].
  - eauto.
  - cbn [forallb snd] in Hc. apply andb_true_iff in Hc. destruct Hc as [H1 H2].
    destruct (@execAll_total pattern text H1) as (ms & ->). cbn [bind]. apply IH, H2.
Qed.

Lemma contextPush_total text ty : forall ms acc,
  Forall (fun mt => mcap mt <> None) ms ->
  exists acc', contextPush text ty ms acc = Ok acc'.
Proof.
  induction ms as [|mt ms IH]; intros acc Hm; cbn [contextPush].
  - eauto.
  - inversion Hm as [|? ? Hcap Hm']; subst. unfold capturedValue.
    destruct (mcap mt) as [[a b]|]; [|contradiction]. cbn [bind].
    apply IH, Hm'.
Qed.

Lemma contextLoop_total text : forall ps acc,
  forallb (fun p => consumes (snd p) && captures (snd p)) ps = true ->
  exists acc', contextLoop text ps acc = Ok acc'.
Proof.
  induction ps as [|[ty pattern] ps IH]; intros acc Hc; cbn [contextLoop].
  - eauto.
  - cbn [forallb snd] in Hc. apply andb_true_iff in Hc. destruct Hc as [H1 H2].
    apply andb_true_iff in H1. destruct H1 as [Hcons Hcap].
    destruct (@execAll_total pattern text Hcons) as (ms & Hms). rewrite Hms.
    cbn [bind].
    destruct (@contextPush_total text ty ms
                (fst acc, initCounter (snd acc) ty)
                (@execAll_captures pattern text ms Hcap Hms)) as (acc2 & ->).
    cbn [bind]. apply IH, H2.
Qed.

Section WithRuntime.
Context `{FloatOps} `{Unicode}.

Lemma structuredPatterns_consume :
  forallb (fun p => consumes (snd p)) STRUCTURED_PII_PATTERNS = true.
Proof. reflexivity. Qed.

Lemma contextPatterns_capture :
  forallb (fun p => consumes (snd p) && captures (snd p))
          CONTEXT_PII_PATTERNS = true.
Proof. reflexivity. Qed.

(** X4. The regex fallback always returns a result: none of its patterns
    matches the empty string, so that no search loop runs for ever, and
    every match of a context pattern carries its capture group, so that
    reading the captured value never throws. *)
Theorem anonymizeWithRegex_never_fails (text : jsstring) :
  exists r, anonymizeWithRegex text = Ok r.
Proof.
  unfold anonymizeWithRegex.
  destruct (@structuredLoop_total text STRUCTURED_PII_PATTERNS
              ([], initialCounters) structuredPatterns_consume)
    as (acc1 & ->). cbn [bind].
  destruct (@contextLoop_total text CONTEXT_PII_PATTERNS acc1
              contextPatterns_capture) as (acc2 & ->). cbn [bind].
  destruct (@execAll_total personPattern text eq_refl) as (persons & ->).
  cbn [bind]. eauto.
Qed.

Lemma structuredMatches_total text : forall ps,
  forallb (fun p => consumes (snd p)) ps = true ->
  exists l, structuredMatches text ps = Ok l.
Proof.
  induction ps as [|[ty pattern] ps IH]; intros Hc; cbn [structuredMatches].
  - eauto.
  - cbn [forallb snd] in Hc. apply andb_true_iff in Hc. destruct Hc as [H1 H2].
    destruct (@execAll_total pattern text H1) as (ms & ->). cbn [bind].
    destruct (IH H2) as (more & ->). cbn [bind]. eauto.
Qed.

Lemma contextMatches_total text : forall ps,
  forallb (fun p => consumes (snd p) && captures (snd p)) ps = true ->
  exists l, contextMatches text ps = Ok l.
Proof.
  induction ps as [|[ty pattern] ps IH]; intros Hc; cbn [contextMatches].
  - eauto.
  - cbn [forallb snd] in Hc. apply andb_true_iff in Hc. destruct Hc as [H1 H2].
    apply andb_true_iff in H1. destruct H1 as [Hcons Hcap].
    destruct (@execAll_total pattern text Hcons) as (ms & Hms). rewrite Hms.
    cbn [bind].
    destruct (@mapR_all_Ok _ _ (contextMatch text ty) ms) as (these & ->).
    { intros mt Hmt.
      pose proof (@execAll_captures pattern text ms Hcap Hms) as Hall.
      rewrite Forall_forall in Hall. specialize (Hall mt Hmt).
      unfold contextMatch, capturedValue.
      destruct (mcap mt) as [[a b]|]; [|contradiction]. cbn [bind]. eauto. }
    cbn [bind]. destruct (IH H2) as (more & ->). cbn [bind]. eauto.
Qed.

Lemma anonymizeEntities_total text ents :
  exists r, anonymizeEntities text ents = Ok r.
Proof.
  unfold anonymizeEntities.
  destruct (@structuredMatches_total text STRUCTURED_PII_PATTERNS
              structuredPatterns_consume) as (structured & ->). cbn [bind].
  destruct (@contextMatches_total text CONTEXT_PII_PATTERNS
              contextPatterns_capture) as (context & ->). cbn [bind].
  eauto.
Qed.

(** X5. When the model is reported available, [anonymizeTranscription]
    fails exactly when the detection fails, and with its error: the regex
    fallback is not tried, since the promise of the hybrid path is returned
    without being awaited. The fallback runs when the availability check
    answers no or throws. *)
Theorem anonymizeTranscription_failures env st text :
  match detectPII env st text None None with
  | Ok _ => exists r, anonymizeTranscription env (Ok true) st text = Ok r
  | Throw msg => anonymizeTranscription env (Ok true) st text = Throw msg
  | Diverges => anonymizeTranscription env (Ok true) st text = Diverges
  end
  /\ anonymizeTranscription env (Ok false) st text = anonymizeWithRegex text
  /\ (forall msg, anonymizeTranscription env (Throw msg) st text
                  = anonymizeWithRegex text).
Proof.
  split; [|split; [reflexivity | intros msg; reflexivity]].
  unfold anonymizeTranscription, anonymizeHybrid.
  destruct (detectPII env st text None None) as [ents|msg|]; cbn [bind];
    [|reflexivity|reflexivity].
  apply anonymizeEntities_total.
Qed.

End WithRuntime.
End TotalityFacts.

Module StatsFacts.
Import StringFacts MapFacts ListFacts RegexFacts TotalityFacts.
Import Regex Config Processor Anonymization.

Lemma matchLoop_execLoop r : forall fuel bef aft ms,
  execLoop fuel r bef aft = Ok ms -> matchLoop fuel r bef aft = ms.
Proof.
  induction fuel as [|fuel IH]; intros bef aft ms He;
    cbn [execLoop matchLoop] in *; [discriminate|].
  destruct (execFrom r bef aft) as [[start e]|]; [|inversion He; reflexivity].
  destruct (start <? pos e)%nat; [|discriminate].
  bind_step He. inversion He; subst. rewrite (IH _ _ _ E). reflexivity.
Qed.

(** On a pattern that consumes, [match] finds what the [exec] loop finds. *)
Lemma matchGlobal_execAll r text ms :
  execAll r text = Ok ms ->
  matchGlobal r text
  = match ms with
    | [] => None
    | _ => Some (map (matchText text) ms)
    end.
Proof.
  unfold execAll, matchGlobal. intros He.
  rewrite (matchLoop_execLoop _ _ _ _ He). destruct ms; reflexivity.
Qed.

Lemma countType_app ty a b :
  countType ty (a ++ b) = (countType ty a + countType ty b)%Z.
Proof.
  unfold countType. rewrite filter_app, length_app. lia.
Qed.

Lemma countType_same text ty ms :
  countType ty (map (structuredMatch text ty) ms) = Z.of_nat (length ms).
Proof.
  unfold countType. induction ms as [|mt ms IH]; [reflexivity|].
  cbn [map filter structuredMatch type]. rewrite eqs_refl. cbn [length].
  lia.
Qed.

Lemma countType_other text ty ty' ms :
  ty' <> ty -> countType ty (map (structuredMatch text ty') ms) = 0%Z.
Proof.
  intros Hne. unfold countType. induction ms as [|mt ms IH]; [reflexivity|].
  cbn [map filter structuredMatch type].
  apply eqs_neq in Hne. rewrite Hne. exact IH.
Qed.

Lemma countType_absent text ty : forall ps l,
  structuredMatches text ps = Ok l -> ~ In ty (map fst ps) ->
  countType ty l = 0%Z.
Proof.
  induction ps as [|[ty' pattern] ps IH]; intros l Hs Hn;
    cbn [structuredMatches] in Hs.
  - inversion Hs. reflexivity.
  - bind_step Hs. bind_step Hs. inversion Hs; subst.
    rewrite countType_app, countType_other, (IH _ eq_refl); [reflexivity| |].
    + intros Hin. apply Hn. right. exact Hin.
    + intros ->. apply Hn. left. reflexivity.
Qed.

Lemma stats_fold text : forall ps stats l,
  NoDup (map fst ps) ->
  structuredMatches text ps = Ok l ->
  forall ty,
    mapGet eqs
      (fold_left (fun stats entry =>
                    match matchGlobal (snd entry) text with
                    | Some matches =>
                        mapSet eqs stats (fst entry)
                               (Z.of_nat (length matches))
                    | None => stats
                    end) ps stats) ty
    = if (0 <? countType ty l)%Z then Some (countType ty l)
      else mapGet eqs stats ty.
Proof.
  induction ps as [|[ty' pattern] ps IH]; intros stats l Hnd Hs ty;
    cbn [structuredMatches] in Hs.
  - inversion Hs. reflexivity.
  - bind_step Hs. bind_step Hs. inversion Hs; subst. clear Hs.
    cbn [map fst] in Hnd. inversion Hnd as [|? ? Hfresh Hnd']; subst.
    cbn [fold_left fst snd].
    rewrite (IH _ _ Hnd' eq_refl), (@matchGlobal_execAll pattern text x E), countType_app.
    destruct (eqs ty ty') eqn:Hty.
    + apply eqs_eq in Hty. subst ty'.
      rewrite countType_same, (@countType_absent text ty ps x0 E0 Hfresh), Z.add_0_r.
      cbn [Z.ltb Z.compare].
      destruct x as [|mt ms]; [reflexivity|].
      rewrite (mapGet_mapSet eqs eqs_eq), eqs_refl, length_map.
      cbn [length]. 
      destruct (Z.ltb_spec 0 (Z.of_nat (S (length ms)))); [reflexivity | lia].
    + assert (Hne : ty' <> ty).
      { intros ->. rewrite eqs_refl in Hty. discriminate. }
      rewrite (@countType_other text ty ty' x Hne), Z.add_0_l.
      destruct (0 <? countType ty x0)%Z; [reflexivity|].
      destruct x as [|mt ms]; [reflexivity|].
      rewrite (mapGet_mapSet eqs eqs_eq), Hty. reflexivity.
Qed.

Section WithRuntime.
Context `{FloatOps} `{Unicode}.

Lemma structuredTypes_distinct : NoDup (map fst STRUCTURED_PII_PATTERNS).
Proof.
  assert (Hd : forall l : list jsstring,
             (fix distinct (l : list jsstring) : bool :=
                match l with
                | [] => true
                | x :: r => negb (existsb (eqs x) r) && distinct r
                end) l = true -> NoDup l).
  { induction l as [|x l IH]; intros Hl; [constructor|].
    apply andb_true_iff in Hl. destruct Hl as [Hx Hl]. constructor; [|auto].
    intros Hin. apply negb_true_iff in Hx.
    assert (existsb (eqs x) l = true)
      by (apply existsb_exists; exists x; split; [assumption|apply eqs_refl]).
    congruence. }
  apply Hd. reflexivity.
Qed.

(** X6. [getPIIStats] counts, type by type, the matches of the structured
    patterns, the same matches the hybrid anonymization collects in its
    second step; a type without match has no entry, so that no count is
    zero. *)
Theorem getPIIStats_counts_structured_matches (text : jsstring) :
  exists structured,
    structuredMatches text STRUCTURED_PII_PATTERNS = Ok structured
    /\ forall ty,
         mapGet eqs (getPIIStats text) ty
         = if (0 <? countType ty structured)%Z
           then Some (countType ty structured) else None.
Proof.
  destruct (@structuredMatches_total text STRUCTURED_PII_PATTERNS
              structuredPatterns_consume) as (structured & Hs).
  exists structured. split; [exact Hs|]. intros ty.
  unfold getPIIStats.
  rewrite (@stats_fold text STRUCTURED_PII_PATTERNS [] structured
             structuredTypes_distinct Hs ty).
  reflexivity.
Qed.

End WithRuntime.
End StatsFacts.

Module MergeFacts.
Import StringFacts ListFacts Tokenizer Tokenizer.BPE BPESpec BPEFacts.

Lemma mergePass_concat a b : forall symbols,
  concat (mergePass a (Some b) (a ++ b) symbols) = concat symbols.
Proof.
  induction symbols as [|x|x y rest IH1 IH2] using list_ind2.
  - reflexivity.
  - reflexivity.
  - rewrite mergePass_cons.
    destruct (eqs x a && eqOpt y (Some b)) eqn:Hc.
    + apply andb_true_iff in Hc. destruct Hc as [Hx Hy]. simpl in Hy.
      apply eqs_eq in Hx. apply eqs_eq in Hy. subst x y.
      cbn [concat]. rewrite IH1. rewrite app_assoc. reflexivity.
    + cbn [concat]. cbn [concat] in IH2. rewrite IH2. reflexivity.
Qed.

Lemma mergePass_nonempty a b merged : forall symbols,
  symbols <> [] -> mergePass a b merged symbols <> [].
Proof.
  intros [|x [|y rest]] Hne; [congruence|simpl; discriminate|].
  rewrite mergePass_cons. destruct (eqs x a && eqOpt y b); discriminate.
Qed.

Lemma bpeLoop_result tk : forall fuel symbols best out,
  Forall noSpace symbols ->
  best = findBestMergePair tk symbols ->
  bpeLoop fuel tk symbols best = Ok out ->
  concat out = concat symbols
  /\ (length out <= length symbols)%nat
  /\ Forall noSpace out
  /\ (symbols <> [] -> out <> [])
  /\ ((length out <= 1)%nat \/ findBestMergePair tk out = None).
Proof.
  induction fuel as [|fuel IH]; intros symbols best out Hns Hbest Hrun.
  - destruct best as [p|]; simpl in Hrun; [discriminate|].
    inversion Hrun; subst out. repeat split; auto.
  - destruct best as [p|]; simpl in Hrun.
    2:{ inversion Hrun; subst out. repeat split; auto. }
    pose proof Hbest as Hbest'.
    symmetry in Hbest. unfold findBestMergePair in Hbest.
    destruct (findBestFrom tk symbols None) as [[p' rank]|] eqn:Hf;
      simpl in Hbest; [|discriminate].
    inversion Hbest; subst p'.
    apply findBestFrom_adjacent in Hf.
    destruct Hf as [Hf|(a & b & Hadj & ->)]; [discriminate|].
    destruct (adjacent_In _ _ _ Hadj) as [Hina Hinb].
    pose proof Hns as Hall.
    rewrite Forall_forall in Hns.
    pose proof (Hns _ Hina) as Hna. pose proof (Hns _ Hinb) as Hnb.
    rewrite splitSpace_pair in Hrun by assumption. simpl in Hrun.
    pose proof (@mergePass_shrinks a b (a ++ b) symbols Hadj) as Hshr.
    pose proof (mergePass_concat a b symbols) as Hcat.
    pose proof (@mergePass_noSpace a b symbols Hna Hnb Hall) as Hns'.
    destruct (length (mergePass a (Some b) (a ++ b) symbols) <=? 1)%nat
      eqn:Hone.
    + inversion Hrun; subst out. apply Nat.leb_le in Hone.
      repeat split; auto; [lia|].
      intros Hs. apply mergePass_nonempty. assumption.
    + apply IH in Hrun; [|assumption|reflexivity].
      destruct Hrun as (Hc & Hl & Hn & Hne & Hfix).
      repeat split; auto; [congruence|lia|].
      intros Hs. apply Hne. apply mergePass_nonempty. assumption.
Qed.

(** X7. Byte-pair merging only regroups the text of a word: for symbols
    that contain no space, [applyBPE] returns, and the symbols it returns
    spell the same string in the same order, are not more numerous, and
    hold no adjacent pair of the merge table any more (or there is at most
    one symbol left). *)
Theorem applyBPE_regroups_the_symbols tk symbols :
  Forall noSpace symbols ->
  exists out,
    applyBPE tk symbols = Ok out
    /\ concat out = concat symbols
    /\ (length out <= length symbols)%nat
    /\ (symbols <> [] -> out <> [])
    /\ ((length out <= 1)%nat \/ findBestMergePair tk out = None).
Proof.
  intros Hns. destruct (applyBPE_total tk Hns) as (out & Hout).
  exists out. split; [assumption|].
  unfold applyBPE in Hout.
  destruct (length symbols <=? 1)%nat eqn:Hone.
  - inversion Hout; subst out. apply Nat.leb_le in Hone.
    repeat split; auto.
  - apply bpeLoop_result in Hout; [|assumption|reflexivity].
    destruct Hout as (Hc & Hl & _ & Hne & Hfix).
    repeat split; auto.
Qed.

End MergeFacts.

Module SubwordFacts.
Import JSFacts StringFacts ListFacts Tokenizer.

Lemma utf8OfCodePoint_nonempty cp : utf8OfCodePoint cp <> [].
Proof.
  unfold utf8OfCodePoint.
  destruct (cp <? 128)%N; [discriminate|].
  destruct (cp <? 2048)%N; [discriminate|].
  destruct (cp <? 65536)%N; discriminate.
Qed.

Lemma utf8_nonempty s : s <> [] -> utf8 s <> [].
Proof.
  destruct s as [|c rest]; [congruence|]. intros _ Hu.
  cbn [utf8] in Hu.
  assert (Hne : forall cp l, utf8OfCodePoint cp ++ l <> []).
  { intros cp l Hl. apply app_eq_nil in Hl.
    exact (@utf8OfCodePoint_nonempty cp (proj1 Hl)). }
  destruct (isHighSurrogate c).
  - destruct rest as [|d rest'].
    + exact (@utf8OfCodePoint_nonempty _ Hu).
    + destruct (isLowSurrogate d); exact (Hne _ _ Hu).
  - destruct (isLowSurrogate c); exact (Hne _ _ Hu).
Qed.

Lemma slice_nonempty (text : jsstring) a b :
  (0 <= a < b)%Z -> (b <= jslength text)%Z -> slice text a b <> [].
Proof.
  intros Hab Hb. unfold jslength in Hb.
  replace a with (Z.of_nat (Z.to_nat a)) by lia.
  replace b with (Z.of_nat (Z.to_nat b)) by lia.
  rewrite slice_nat by lia.
  intros Hs. apply (f_equal (@length N)) in Hs.
  rewrite length_firstn, length_skipn in Hs. simpl in Hs. lia.
Qed.

Section WithRuntime.
Context `{FloatOps} `{Unicode}.

Import Unigram UnigramSpec UnigramFacts.

Lemma byteFold_length (tk : Unigram.t) : forall bytes tokens,
  length (fold_left
            (fun acc b => Some (orElse (mapGet N.eqb (byteTokens tk) b)
                                       (unkTokenId tk)) :: acc)
            bytes tokens)
  = (length bytes + length tokens)%nat.
Proof.
  induction bytes as [|b bytes IH]; intros tokens; simpl.
  - reflexivity.
  - rewrite IH. simpl. lia.
Qed.

Lemma backtrack_grows tk text n best :
  TableOK tk n best -> jslength text = Z.of_nat n ->
  forall fuel pos tokens out,
    (0 <= pos <= Z.of_nat n)%Z ->
    backtrack fuel tk text best pos tokens = Ok out ->
    (length tokens <= length out)%nat
    /\ ((0 < pos)%Z -> (length tokens < length out)%nat).
Proof.
  intros Hb Hn. induction fuel as [|fuel IH]; intros pos tokens out Hp Hrun;
    simpl in Hrun.
  - destruct (Z.ltb_spec 0 pos); [discriminate|].
    inversion Hrun; subst. split; lia.
  - destruct (Z.ltb_spec 0 pos) as [Hpos|Hpos].
    2:{ inversion Hrun; subst. split; lia. }
    destruct (tget_ok (i := pos) Hb) as (e & He & He0 & He1); [lia|].
    rewrite He in Hrun. simpl in Hrun.
    destruct (He1 ltac:(lia)) as (Hprev & _).
    assert (Hbytes : utf8 (slice text (prev e) pos) <> []).
    { apply utf8_nonempty. apply slice_nonempty; lia. }
    apply IH in Hrun; [|lia].
    destruct Hrun as [Hle _].
    assert (Hfold :
      (length tokens
       < length (fold_left
                   (fun acc b =>
                      Some (orElse (mapGet N.eqb (byteTokens tk) b)
                                   (unkTokenId tk)) :: acc)
                   (utf8 (slice text (prev e) pos)) tokens))%nat).
    { rewrite byteFold_length.
      destruct (utf8 (slice text (prev e) pos)); [congruence|simpl; lia]. }
    assert (Hstep : (length tokens < length out)%nat).
    { destruct (eid e) as [z|]; [|simpl in Hle; lia].
      destruct z as [|p|p]; try (simpl in Hle; lia).
      destruct p as [p|p|]; try (simpl in Hle; lia).
      destruct p; try (simpl in Hle; lia). }
    split; [lia | intros _; exact Hstep].
Qed.

Lemma viterbi_nonempty tk text out :
  wellFormed tk -> text <> [] -> viterbi tk text = Ok out -> out <> [].
Proof.
  intros Hwf Hne Hv. unfold viterbi in Hv. cbv zeta in Hv.
  assert (Hlen : (0 < length text)%nat).
  { destruct text; [congruence|simpl; lia]. }
  destruct (Z.eqb_spec (jslength text) 0) as [Hz|_];
    [unfold jslength in Hz; lia|].
  assert (Hn : jslength text = Z.of_nat (length text)) by reflexivity.
  change (jslength text) with (Z.of_nat (length text)) in Hv.
  destruct (@viterbiLoop_ok _ tk text (length text) Hwf Hn (length text)
              0%Z _ ltac:(lia) ltac:(lia)
              (initialTable_ok tk (length text)))
    as (best & Hbest & Hb).
  rewrite Hbest in Hv. simpl in Hv.
  apply (@backtrack_grows tk text _ _ Hb Hn) in Hv; [|lia].
  destruct Hv as [_ Hv]. intros ->. simpl in Hv. lia.
Qed.

Lemma Unigram_encodeWord_nonempty tk word out :
  wellFormed tk -> Unigram.encodeWord tk word = Ok out -> out <> [].
Proof.
  intros Hwf. unfold Unigram.encodeWord.
  destruct (mapGet eqs (addedTokens tk) word).
  - intros Ho. inversion Ho. discriminate.
  - apply viterbi_nonempty; [assumption | discriminate].
Qed.

End WithRuntime.

Import BPE BPESpec BPEFacts.

Lemma bpeLoop_nonempty tk : forall fuel symbols best out,
  symbols <> [] -> bpeLoop fuel tk symbols best = Ok out -> out <> [].
Proof.
  induction fuel as [|fuel IH]; intros symbols best out Hne Hrun;
    destruct best as [p|]; simpl in Hrun; try discriminate;
    try (inversion Hrun; subst; assumption).
  destruct (length _ <=? 1)%nat.
  - inversion Hrun; subst. apply MergeFacts.mergePass_nonempty. assumption.
  - apply IH in Hrun; [assumption|]. apply MergeFacts.mergePass_nonempty. assumption.
Qed.

Lemma applyBPE_nonempty tk symbols out :
  symbols <> [] -> applyBPE tk symbols = Ok out -> out <> [].
Proof.
  intros Hne. unfold applyBPE.
  destruct (length symbols <=? 1)%nat.
  - intros Ho. inversion Ho; subst. assumption.
  - apply bpeLoop_nonempty. assumption.
Qed.

Lemma wordPieceLoop_grows tk word : forall fuel start tokens out,
  wordPieceLoop fuel tk word start tokens = Ok out ->
  (length tokens <= length out)%nat
  /\ ((start < jslength word)%Z -> (length tokens < length out)%nat).
Proof.
  induction fuel as [|fuel IH]; intros start tokens out Hrun; simpl in Hrun.
  - destruct (Z.ltb_spec start (jslength word)); [discriminate|].
    inversion Hrun; subst. split; lia.
  - destruct (Z.ltb_spec start (jslength word)).
    2:{ inversion Hrun; subst. split; lia. }
    destruct (longestPiece tk word start (length word) (jslength word))
      as [[i e]|]; apply IH in Hrun; destruct Hrun as [Hle _];
      rewrite length_app in Hle; simpl in Hle; split; lia.
Qed.

Lemma BPE_encodeWord_nonempty tk word ids :
  word <> [] -> BPE.encodeWord tk word = Ok ids -> ids <> [].
Proof.
  intros Hne. unfold BPE.encodeWord.
  destruct (mapGet eqs (addedTokens tk) word).
  { intros Ho. inversion Ho. discriminate. }
  destruct (isByteLevelBPE tk).
  - unfold encodeByteLevelBPE.
    destruct (map _ (utf8 _)) as [|s1 [|s2 rest]] eqn:Hsym.
    + intros Ho. inversion Ho. discriminate.
    + intros Ho. inversion Ho. discriminate.
    + intros Ho. bind_step Ho. inversion Ho; subst.
      apply applyBPE_nonempty in E; [|discriminate].
      destruct x; [congruence | discriminate].
  - unfold encodeWordPieceFallback.
    destruct (mapGet eqs (vocab tk) word).
    { intros Ho. inversion Ho. discriminate. }
    intros Ho. apply wordPieceLoop_grows in Ho. destruct Ho as [_ Ho].
    intros ->. simpl in Ho.
    assert (0 < jslength word)%Z.
    { unfold jslength. destruct word; [congruence|simpl; lia]. }
    lia.
Qed.

Section Loaded.
Context `{FloatOps} `{Unicode}.
Import TokenizerFacts.

Lemma encodeWord_nonempty tokenizerJson st word ids :
  initTokenizer tokenizerJson = Ok st -> word <> [] ->
  Tokenizer.encodeWord st word = Ok ids -> ids <> [].
Proof.
  intros Hi Hne. apply initTokenizer_state in Hi.
  destruct Hi as [(tk & -> & Hwf)|(tk & -> & Henc)]; simpl.
  - apply Unigram_encodeWord_nonempty. assumption.
  - intros He. bind_step He. inversion He; subst.
    apply BPE_encodeWord_nonempty in E; [|assumption].
    destruct x; [congruence | discriminate].
Qed.

(** X8. Once a tokenizer has been initialized, every non-empty word is
    encoded by at least one token id, whichever variant was loaded. *)
Theorem encodeWord_gives_every_word_a_token tokenizerJson st word :
  initTokenizer tokenizerJson = Ok st -> word <> [] ->
  exists id ids, Tokenizer.encodeWord st word = Ok (Some id :: map Some ids)
                 /\ Forall (knownId st) (id :: ids).
Proof.
  intros Hi Hne.
  destruct (@encodeWord_loaded _ _ tokenizerJson st word Hi) as (ids & Hids & Hk).
  pose proof (@encodeWord_nonempty tokenizerJson st word _ Hi Hne Hids) as Hnil.
  destruct ids as [|i ids]; [contradiction Hnil; reflexivity|].
  exists i, ids. split; assumption.
Qed.

End Loaded.
End SubwordFacts.

Module BatchFacts.
Import JSFacts ListFacts RegexFacts ProcessorFacts TokenizerFacts SubwordFacts.
Import Tokenizer Processor.








Section WithRuntime.
Context `{FloatOps} `{Unicode}.






Lemma splitWords_total text : exists words, splitWords text = Ok words.
Proof.
  unfold splitWords, Regex.execAll.
  destruct (@execLoop_total wordRegex wordRegex_consumes
              (S (length text)) [] text) as (ms & Hms); [lia|].
  rewrite Hms. simpl. eauto.
Qed.

Lemma special_ids_loaded tokenizerJson tok :
  initTokenizer tokenizerJson = Ok tok ->
  (forall token, exists i, getSpecialTokenId tok token = Ok i)
  /\ exists i, getClsTokenId tok = Ok i.
Proof.
  intros Hi. apply initTokenizer_state in Hi.
  destruct Hi as [(tk & -> & _)|(tk & -> & _)]; simpl; eauto.
Qed.

Lemma promptIds_total tokenizerJson tok entTokenId :
  initTokenizer tokenizerJson = Ok tok ->
  forall entities, exists ids, promptIds tok entTokenId entities = Ok ids.
Proof.
  intros Hi. induction entities as [|entity rest IH]; simpl; [eauto|].
  destruct (@mapR_all_Ok _ _ (Tokenizer.encodeWord tok) (splitWs entity))
    as (ids & ->).
  { intros w _.
    destruct (@encodeWord_loaded _ _ tokenizerJson tok w Hi) as (l & Hl & _).
    eauto. }
  destruct IH as (more & ->). simpl. eauto.
Qed.

Lemma wordTokens_total tokenizerJson tok :
  initTokenizer tokenizerJson = Ok tok ->
  forall words counter, exists wt, wordTokens tok words counter = Ok wt.
Proof.
  intros Hi. induction words as [|[[word s] e] words IH]; intros counter;
    cbn [wordTokens]; [eauto|].
  destruct (@encodeWord_loaded _ _ tokenizerJson tok word Hi) as (l & -> & _).
  destruct (IH (counter + 1)%Z) as (more & ->). simpl. eauto.
Qed.

Lemma buildTokenSequence_total
  tokenizerJson tok text entities entToken sepToken :
  initTokenizer tokenizerJson = Ok tok ->
  exists sq, buildTokenSequence tok text entities entToken sepToken = Ok sq.
Proof.
  intros Hi. unfold buildTokenSequence.
  destruct (@special_ids_loaded tokenizerJson tok Hi) as [Hsp (cls & ->)].
  destruct (Hsp entToken) as (ent & ->). destruct (Hsp sepToken) as (sep & ->).
  cbn [bind].
  destruct (@promptIds_total tokenizerJson tok ent Hi entities) as (p & ->).
  cbn [bind].
  destruct (splitWords_total text) as (words & ->). cbn [bind].
  destruct (@wordTokens_total tokenizerJson tok Hi words 1%Z) as (wt & ->).
  cbn [bind]. eauto.
Qed.

Lemma prepareBatch_total tokenizerJson tok texts entities entToken sepToken :
  initTokenizer tokenizerJson = Ok tok ->
  exists out, prepareBatch tok texts entities entToken sepToken = Ok out.
Proof.
  intros Hi. unfold prepareBatch.
  destruct (@mapR_all_Ok _ _
              (fun text => buildTokenSequence tok text entities entToken
                                              sepToken) texts)
    as (seqs & ->).
  { intros text _. eapply buildTokenSequence_total. exact Hi. }
  simpl. eauto.
Qed.

Lemma prepareSpanBatch_total
  tokenizerJson tok texts entities maxWidth entToken sepToken :
  initTokenizer tokenizerJson = Ok tok ->
  exists out,
    prepareSpanBatch tok texts entities maxWidth entToken sepToken = Ok out.
Proof.
  intros Hi. unfold prepareSpanBatch.
  destruct (@mapR_all_Ok _ _
              (fun text => buildTokenSequence tok text entities entToken
                                              sepToken) texts)
    as (seqs & ->).
  { intros text _. eapply buildTokenSequence_total. exact Hi. }
  simpl. eauto.
Qed.




End WithRuntime.
End BatchFacts.

Module CoverFacts.
Import Regex RegexFacts JSFacts ListFacts Processor ProcessorFacts.

Lemma iter_classes (P : N -> Prop) (R : mstate -> mstate -> Prop) :
  (forall st st', R st st' -> exists w, Ext st w st' /\ Forall P w) ->
  forall n st st', iter n R st st' -> exists w, Ext st w st' /\ Forall P w.
Proof.
  intros HR. induction n as [|n IH]; simpl; intros st st' Hi.
  - subst. exists []. split; [apply Ext_refl | constructor].
  - destruct Hi as (mid & Hm1 & Hm2). apply HR in Hm1. apply IH in Hm2.
    destruct Hm1 as (w1 & He1 & Hp1), Hm2 as (w2 & He2 & Hp2).
    exists (w1 ++ w2). split; [eapply Ext_trans; eassumption|].
    apply Forall_app. split; assumption.
Qed.

Lemma Matches_classes (P : N -> Prop) r : classesIn P r ->
  forall st st', Matches r st st' -> exists w, Ext st w st' /\ Forall P w.
Proof.
  induction r as [|p|a IHa b IHb|a IHa b IHb|lo hi a IHa| |a IHa];
    simpl; intros Hc st st' Hm.
  - subst. exists []. split; [apply Ext_refl | constructor].
  - destruct Hm as (c & rest & Ha & Hp & ->). exists [c].
    split; [split; simpl; [assumption | reflexivity]|].
    constructor; [apply Hc; assumption | constructor].
  - destruct Hc as [Hca Hcb]. destruct Hm as (mid & Hm1 & Hm2).
    apply (IHa Hca) in Hm1. apply (IHb Hcb) in Hm2.
    destruct Hm1 as (w1 & He1 & Hp1), Hm2 as (w2 & He2 & Hp2).
    exists (w1 ++ w2). split; [eapply Ext_trans; eassumption|].
    apply Forall_app. split; assumption.
  - destruct Hc as [Hca Hcb]. destruct Hm as [Hm|Hm]; auto.
  - destruct Hm as (n & _ & Hi). eapply iter_classes; eauto.
  - destruct Hm as [-> _]. exists []. split; [apply Ext_refl | constructor].
  - destruct Hm as (st1 & Hm1 & ->). apply (IHa Hc) in Hm1.
    destruct Hm1 as (w & (He1 & He2) & Hp). exists w.
    split; [split; assumption | assumption].
Qed.

(** The text of a match is what the matcher passed over. *)
Lemma MatchAt_text (P : N -> Prop) r T mt :
  classesIn P r -> MatchAt r T mt -> Forall P (matchText T mt).
Proof.
  intros Hc (st0 & e & Hm & _ & HT & Hs & He & _).
  destruct (@Matches_classes P r Hc st0 e Hm) as (w & Hext & Hp).
  pose proof (Ext_pos Hext) as Hpos. destruct Hext as [Haft Hbef].
  unfold matchText. rewrite <- Hs, <- He, Hpos, <- HT, Haft.
  replace (length w + pos st0 - pos st0)%nat with (length w) by lia.
  unfold pos.
  replace (length (before st0)) with (length (rev (before st0)))
    by apply length_rev.
  rewrite skipn_app, skipn_all, Nat.sub_diag. simpl.
  rewrite firstn_app, firstn_all, Nat.sub_diag. simpl.
  rewrite app_nil_r. exact Hp.
Qed.

Lemma isWordChar_visible c : isWordChar c = true -> visible c.
Proof.
  unfold isWordChar, isAlpha, isUpper, isLower, isDigit, visible, isSpace.
  intros Hw.
  repeat (apply orb_true_iff in Hw; destruct Hw as [Hw|Hw]);
    try (apply andb_true_iff in Hw; destruct Hw as [Hlo Hhi];
         apply N.leb_le in Hlo; apply N.leb_le in Hhi);
    try apply N.eqb_eq in Hw;
    repeat (apply orb_false_iff; split);
    try (apply andb_false_iff;
         first [left; apply N.leb_gt; lia | right; apply N.leb_gt; lia]);
    apply N.eqb_neq; lia.
Qed.

Lemma wordRegex_visible : classesIn visible wordRegex.
Proof.
  unfold wordRegex, plus, star. simpl. repeat split.
  - exact isWordChar_visible.
  - intros c Hc. apply orb_true_iff in Hc.
    destruct Hc as [Hc|Hc]; apply N.eqb_eq in Hc; subst c; reflexivity.
  - exact isWordChar_visible.
  - intros c Hc. unfold visible. apply negb_true_iff. exact Hc.
Qed.

(** Where the search for a match passes, the pattern does not match. *)
Lemma execFrom_first r : forall aft bef start e,
  execFrom r bef aft = Some (start, e) ->
  forall q, (length bef <= q < start)%nat ->
    exists b a, rev b ++ a = rev bef ++ aft /\ length b = q
                /\ m r (MState b a None) Some = None.
Proof.
  induction aft as [|c aft IH]; intros bef start e He q Hq; simpl in He.
  - destruct (m r _ _) eqn:Hm; [|discriminate]. inversion He; subst. lia.
  - destruct (m r _ _) eqn:Hm.
    + inversion He; subst. lia.
    + destruct (Nat.eq_dec q (length bef)) as [->|Hne].
      * exists bef, (c :: aft). auto.
      * destruct (IH _ _ _ He q) as (b & a & Hba & Hlen & Hnone);
          [simpl; lia|].
        exists b, a. split; [|auto].
        rewrite Hba. simpl. rewrite <- app_assoc. reflexivity.
Qed.

Lemma execFrom_none r : forall aft bef,
  execFrom r bef aft = None ->
  forall q, (length bef <= q <= length bef + length aft)%nat ->
    exists b a, rev b ++ a = rev bef ++ aft /\ length b = q
                /\ m r (MState b a None) Some = None.
Proof.
  induction aft as [|c aft IH]; intros bef He q Hq; simpl in He.
  - destruct (m r _ _) eqn:Hm; [discriminate|].
    exists bef, []. simpl in Hq. repeat split; [lia | assumption].
  - destruct (m r _ _) eqn:Hm; [discriminate|].
    destruct (Nat.eq_dec q (length bef)) as [->|Hne].
    + exists bef, (c :: aft). auto.
    + destruct (IH _ He q) as (b & a & Hba & Hlen & Hnone);
        [simpl in *; lia|].
      exists b, a. split; [|auto].
      rewrite Hba. simpl. rewrite <- app_assoc. reflexivity.
Qed.

(** The word pattern matches at every visible code unit. *)
Lemma wordRegex_fails b a :
  m wordRegex (MState b a None) Some = None ->
  forall c, nth_error (rev b ++ a) (length b) = Some c -> isSpace c = true.
Proof.
  intros Hm c Hc.
  rewrite nth_error_app2 in Hc by (rewrite length_rev; lia).
  rewrite length_rev, Nat.sub_diag in Hc.
  destruct a as [|x a]; [discriminate|]. simpl in Hc. inversion Hc; subst x.
  unfold wordRegex in Hm. cbn [m] in Hm.
  destruct (m (plus _) _ _); [discriminate|].
  cbn [Regex.after] in Hm.
  destruct (isSpace c); [reflexivity|]. simpl in Hm. discriminate.
Qed.

Lemma execLoop_covers : forall fuel bef aft ms,
  execLoop fuel wordRegex bef aft = Ok ms ->
  forall q c, (length bef <= q)%nat ->
    nth_error (rev bef ++ aft) q = Some c -> isSpace c = false ->
    exists mt, In mt ms /\ (mstart mt <= q < mend mt)%nat.
Proof.
  induction fuel as [|fuel IH]; intros bef aft ms He q c Hq Hc Hvis;
    simpl in He; [discriminate|].
  assert (Hlen : (q < length bef + length aft)%nat).
  { assert (Hsome : nth_error (rev bef ++ aft) q <> None) by congruence.
    apply nth_error_Some in Hsome.
    rewrite length_app, length_rev in Hsome. exact Hsome. }
  destruct (execFrom wordRegex bef aft) as [[start e]|] eqn:Hx.
  - destruct (start <? pos e)%nat eqn:Hlt; [|discriminate].
    bind_step He. inversion He; subst ms; clear He.
    destruct (Nat.lt_ge_cases q start) as [Hbefore|Hfrom].
    + destruct (@execFrom_first _ _ _ _ _ Hx q ltac:(lia))
        as (b & a & Hba & Hb & Hnone).
      rewrite <- Hba, <- Hb in Hc.
      rewrite (@wordRegex_fails b a Hnone c Hc) in Hvis. discriminate.
    + destruct (Nat.lt_ge_cases q (pos e)) as [Hin|Hafter].
      * eexists. split; [left; reflexivity|]. simpl. lia.
      * apply execFrom_sound in Hx.
        destruct Hx as (st0 & Hm & _ & HT & _ & _).
        destruct (@Matches_Ext _ _ _ Hm) as (w & Hw).
        pose proof (Ext_text Hw) as Ht.
        rewrite <- HT, <- Ht in Hc.
        destruct (IH _ _ _ E q c Hafter Hc Hvis) as (mt & Hmt & Hr).
        exists mt. split; [right; assumption | assumption].
  - destruct (@execFrom_none _ _ _ Hx q ltac:(lia))
      as (b & a & Hba & Hb & Hnone).
    rewrite <- Hba, <- Hb in Hc.
    rewrite (@wordRegex_fails b a Hnone c Hc) in Hvis. discriminate.
Qed.

Lemma Chain_nonempty : forall ms lo mt,
  Chain lo ms -> In mt ms -> (mstart mt < mend mt)%nat.
Proof.
  induction ms as [|x ms IH]; intros lo mt Hch Hmt; [destruct Hmt|].
  simpl in Hch. destruct Hch as (_ & Hlt & Hch).
  destruct Hmt as [Hx|Hmt]; [subst x; assumption|].
  exact (IH _ _ Hch Hmt).
Qed.

(** X10. [splitWords] loses nothing but white space: it returns for every
    text, no word holds a white-space code unit, and every code unit of
    the text that is not white space lies inside one of the words. *)
Theorem splitWords_covers_the_text (text : jsstring) :
  exists words,
    splitWords text = Ok words
    /\ (forall w s e, In (w, s, e) words -> w <> [] /\ Forall visible w)
    /\ (forall p c, nth_error text p = Some c -> visible c ->
          exists w s e, In (w, s, e) words /\ (s <= Z.of_nat p < e)%Z).
Proof.
  unfold splitWords, execAll.
  destruct (@execLoop_total wordRegex wordRegex_consumes
              (S (length text)) [] text) as (ms & Hms); [lia|].
  rewrite Hms. simpl. eexists. split; [reflexivity|].
  pose proof (@execLoop_sound _ _ _ _ _ Hms) as [Hf Hch].
  simpl in Hf. split.
  - intros w s e Hin. apply in_map_iff in Hin.
    destruct Hin as (mt & Heq & Hmt). inversion Heq; subst; clear Heq.
    rewrite Forall_forall in Hf. specialize (Hf _ Hmt).
    split; [|exact (@MatchAt_text visible wordRegex text mt
                       wordRegex_visible Hf)].
    pose proof (MatchAt_bounds Hf) as [Hle Hlen].
    pose proof (@Chain_nonempty ms _ mt Hch Hmt) as Hlt.
    unfold matchText. intros Hnil.
    apply (f_equal (@length N)) in Hnil.
    rewrite length_firstn, length_skipn in Hnil. simpl in Hnil. lia.
  - intros p c Hp Hvis.
    destruct (@execLoop_covers _ [] text ms Hms p c ltac:(simpl; lia) Hp Hvis)
      as (mt & Hmt & Hr).
    exists (matchText text mt), (Z.of_nat (mstart mt)), (Z.of_nat (mend mt)).
    split; [|lia]. apply in_map_iff. exists mt. split; [reflexivity | assumption].
Qed.

End CoverFacts.

Module ThresholdFacts.
Import ListFacts SortFacts DecoderFacts InferenceFacts ValidityFacts.
Import Config Processor Decoder Inference.

Section WithRuntime.
Context `{FloatOps} `{Unicode}.

Lemma spanCandidate_above o threshold b s l :
  spanCandidate o threshold b s = Ok l -> Forall (above threshold) l.
Proof.
  unfold spanCandidate. intros Hs. bind_step Hs.
  destruct (isZero (nthZ x s)); [inversion Hs; constructor|].
  bind_step Hs. bind_step Hs. destruct x1 as [startWord endWord].
  destruct (bestEntityFrom _ _ _ _ _) as [bestScore bestEntity].
  destruct (fgt bestScore threshold) eqn:Hgt; simpl in Hs;
    [|inversion Hs; constructor].
  destruct (0 <=? bestEntity)%Z; [|inversion Hs; constructor].
  bind_step Hs. bind_step Hs.
  destruct (nthZ x1 startWord); [|inversion Hs; constructor].
  destruct (nthZ x2 endWord); [|inversion Hs; constructor].
  bind_step Hs. inversion Hs; subst l.
  constructor; [exact Hgt | constructor].
Qed.

Lemma decodeSpanExample_above o b ents :
  decodeSpanExample o b = Ok ents ->
  Forall (above (appliedThreshold (4 # 10) (sd_threshold o))) ents.
Proof.
  unfold decodeSpanExample. intros Hd. bind_step Hd.
  inversion Hd; subst ents. apply greedySearch_spec.
  apply Forall_forall. intros e He.
  destruct (in_concat_mapR _ _ _ E He) as (s & r & _ & Hr & Hin).
  apply spanCandidate_above in Hr. rewrite Forall_forall in Hr.
  apply Hr. assumption.
Qed.

Lemma runSpanInference_above st session text labels threshold ents :
  runSpanInference st session text labels threshold = Ok ents ->
  Forall (above threshold) ents.
Proof.
  unfold runSpanInference. intros Hr.
  repeat bind_step Hr.
  apply nthR_In in Hr.
  match goal with
  | E : decodeSpanLevel _ = Ok _ |- _ =>
      unfold decodeSpanLevel in E;
      destruct (mapR_In _ _ _ E Hr) as (b & _ & Hb)
  end.
  apply decodeSpanExample_above in Hb. exact Hb.
Qed.

Lemma mergeEntities_above threshold offset : forall entities seen all seen' all',
  mergeEntities offset entities seen all = (seen', all') ->
  Forall (above threshold) entities -> Forall (above threshold) all ->
  Forall (above threshold) all'.
Proof.
  induction entities as [|e entities IH]; intros seen all seen' all' Hm He Ha;
    simpl in Hm.
  - inversion Hm; subst. assumption.
  - inversion He as [|? ? He1 He2]; subst.
    destruct (memStr _ seen).
    + eapply IH; eassumption.
    + eapply IH; [eassumption | assumption |].
      apply Forall_app. split; [assumption|].
      constructor; [exact He1 | constructor].
Qed.

Lemma chunkLoop_above st text words labels threshold chunkSize :
  _isSpanMode st = true ->
  forall fuel i seen all out,
    chunkLoop fuel st text words labels threshold chunkSize i seen all = Ok out ->
    Forall (above threshold) all -> Forall (above threshold) out.
Proof.
  intros Hspan. induction fuel as [|fuel IH]; intros i seen all out Hc Ha;
    simpl in Hc.
  - destruct (i <? _)%Z; [discriminate|]. inversion Hc; subst. assumption.
  - destruct (i <? _)%Z; [|inversion Hc; subst; assumption].
    bind_step Hc.
    destruct (mergeEntities _ x seen all) as [seen' all'] eqn:Hm.
    apply IH in Hc; [assumption|].
    eapply mergeEntities_above; [exact Hm | | assumption].
    unfold runInference in E. bind_step E. rewrite Hspan in E.
    eapply runSpanInference_above. exact E.
Qed.

(** X11. In span mode every entity that [detectPII] reports has a score
    strictly above the threshold in force (the one given, else 0.4), in a
    single inference and in the chunked path alike. *)
Theorem span_mode_scores_exceed_the_threshold
  env st st' text labels threshold ents :
  ensureReady env st = Ok st' ->
  _isSpanMode st' = true ->
  detectPII env st text labels threshold = Ok ents ->
  Forall (fun e => fgt (score e)
                       (orElse threshold (fofQ DEFAULT_THRESHOLD)) = true)
         ents.
Proof.
  intros Hready Hspan Hd. unfold detectPII in Hd. rewrite Hready in Hd.
  simpl in Hd. destruct (_session st'); [|discriminate].
  destruct (maxWords st' <? _)%Z.
  - unfold detectPIIChunked in Hd. bind_step Hd. inversion Hd; subst ents.
    apply sortBy_Forall.
    eapply chunkLoop_above; [exact Hspan | exact E | constructor].
  - unfold runInference in Hd. bind_step Hd. rewrite Hspan in Hd.
    eapply runSpanInference_above. exact Hd.
Qed.

End WithRuntime.
End ThresholdFacts.

Module EndsFacts.
Import ListFacts RegexFacts ProcessorFacts TokenizerFacts BatchFacts.
Import Config Tokenizer Processor Decoder Inference.

Lemma Ok_halts {A} (x : A) : halts (Ok x).
Proof. discriminate. Qed.

Lemma Throw_halts {A} msg : halts (@Throw A msg).
Proof. discriminate. Qed.

Lemma bind_halts {A B} (c : result A) (k : A -> result B) :
  halts c -> (forall x, c = Ok x -> halts (k x)) -> halts (bind c k).
Proof.
  intros Hc Hk. destruct c as [x| |]; simpl.
  - apply Hk. reflexivity.
  - discriminate.
  - contradiction Hc. reflexivity.
Qed.

Lemma mapR_halts {A B} (f : A -> result B) : forall l,
  (forall x, In x l -> halts (f x)) -> halts (mapR f l).
Proof.
  induction l as [|a l IH]; intros Hf; simpl.
  - apply Ok_halts.
  - apply bind_halts; [apply Hf; left; reflexivity|]. intros y _.
    apply bind_halts; [apply IH; intros; apply Hf; right; assumption|].
    intros ys _. apply Ok_halts.
Qed.

Lemma nthR_halts {A} (l : list A) i : halts (nthR l i).
Proof.
  unfold nthR. destruct (i <? 0)%Z; [apply Throw_halts|].
  destruct (nth_error l (Z.to_nat i)); [apply Ok_halts | apply Throw_halts].
Qed.

Ltac halts_auto :=
  repeat first
    [ apply Ok_halts
    | apply Throw_halts
    | apply nthR_halts
    | match goal with
      | |- halts (bind _ _) => apply bind_halts; [|intros ? ?]
      | |- halts (if ?c then _ else _) => destruct c
      | |- halts (match ?c with Some _ => _ | None => _ end) => destruct c
      | |- halts (let (_, _) := ?c in _) => destruct c
      end ].

Section WithRuntime.
Context `{FloatOps} `{Unicode}.

Lemma toBigInts_halts ids : halts (toBigInts ids).
Proof.
  unfold toBigInts. apply mapR_halts. intros [z|] _; halts_auto.
Qed.

Lemma spanCandidate_halts o threshold b s : halts (spanCandidate o threshold b s).
Proof. unfold spanCandidate. halts_auto. Qed.

Lemma decodeSpanLevel_halts o : halts (decodeSpanLevel o).
Proof.
  unfold decodeSpanLevel. apply mapR_halts. intros b _.
  unfold decodeSpanExample. halts_auto.
  apply mapR_halts. intros s _. apply spanCandidate_halts.
Qed.

Lemma pairCandidate_halts o threshold b im s en :
  halts (pairCandidate o threshold b im s en).
Proof.
  unfold pairCandidate. halts_auto.
Qed.

Lemma decodeTokenLevel_halts o : halts (decodeTokenLevel o).
Proof.
  unfold decodeTokenLevel. apply mapR_halts. intros b _.
  unfold decodeTokenExample. halts_auto.
  apply mapR_halts. intros s _. halts_auto.
  apply mapR_halts. intros en _. apply pairCandidate_halts.
Qed.

Lemma runInference_halts st text labels threshold :
  loaded st ->
  (forall session feeds, _session st = Some session ->
                         halts (run session feeds)) ->
  halts (runInference st text labels threshold).
Proof.
  intros (tokenizerJson & Hi) Hrun. unfold runInference, sessionOf.
  destruct (_session st) as [session|]; [|halts_auto].
  destruct (_ortLoaded st); [|halts_auto]. cbn [bind].
  specialize (Hrun session).
  destruct (_isSpanMode st).
  - unfold runSpanInference.
    destruct (@prepareSpanBatch_total _ _ tokenizerJson (_tokenizer st) [text]
                labels (maxWidth (_config st)) (entToken (_config st))
                (sepToken (_config st)) Hi) as (batch & ->).
    cbn [bind].
    halts_auto;
      first [ apply toBigInts_halts | apply Hrun; reflexivity
            | apply decodeSpanLevel_halts ].
  - unfold runTokenInference.
    destruct (@prepareBatch_total _ _ tokenizerJson (_tokenizer st) [text]
                labels (entToken (_config st)) (sepToken (_config st)) Hi)
      as (batch & ->).
    cbn [bind].
    halts_auto;
      first [ apply toBigInts_halts | apply Hrun; reflexivity
            | apply decodeTokenLevel_halts ].
Qed.

(** The loop over the windows halts when the step is positive. *)
Lemma chunkLoop_halts st text words labels threshold chunkSize :
  (OVERLAP < chunkSize)%Z ->
  (forall chunk, halts (runInference st chunk labels threshold)) ->
  forall fuel i seen all,
    (Z.of_nat (length words) - i <= Z.of_nat fuel)%Z ->
    halts (chunkLoop fuel st text words labels threshold chunkSize i seen all).
Proof.
  intros Hstep Hrun. induction fuel as [|fuel IH]; intros i seen all Hf;
    simpl.
  - destruct (Z.ltb_spec i (Z.of_nat (length words))); [lia | apply Ok_halts].
  - destruct (Z.ltb_spec i (Z.of_nat (length words))); [|apply Ok_halts].
    apply bind_halts; [apply Hrun|]. intros ents _.
    destruct (mergeEntities _ ents seen all) as [seen' all'].
    apply IH. lia.
Qed.

Lemma initGLiNER_loaded env st st' :
  initGLiNER env st = Ok st' -> loaded st'.
Proof.
  unfold initGLiNER. intros Hi.
  destruct (loadGLiNERModelFiles env) as [files|]; [|discriminate].
  bind_step Hi. bind_step Hi. inversion Hi; subst st'.
  exists (tokenizerJson files). exact E.
Qed.

Lemma initGLiNER_halts env st :
  halts (createSession env) -> halts (initGLiNER env st).
Proof.
  intros Hc. unfold initGLiNER.
  destruct (loadGLiNERModelFiles env) as [files|]; [|apply Throw_halts].
  apply bind_halts.
  - unfold initTokenizer.
    destruct (model (tokenizerJson files)) as [[v u|v mg bf]|];
      halts_auto.
  - intros tok _. apply bind_halts; [exact Hc|]. intros session _.
    apply Ok_halts.
Qed.

Lemma ensureReady_loaded env st st' :
  _initialized st = false \/ loaded st ->
  ensureReady env st = Ok st' -> loaded st'.
Proof.
  intros Hst. unfold ensureReady.
  destruct (negb (_initialized st) || _) eqn:Hinit.
  - apply initGLiNER_loaded.
  - intros Hr. inversion Hr; subst st'.
    destruct Hst as [Hfresh|Hl]; [|exact Hl].
    rewrite Hfresh in Hinit. discriminate.
Qed.

(** X12. [detectPII] always comes to an end, with a result or an
    exception, when the executor does: the tokenizer loops, the regular
    expression of the word splitter and the loop over the windows of a long
    text all end (the step of the windows, 150 or 450 words, is positive).
    The module is either not initialized yet or holds a tokenizer built by
    [initTokenizer]. *)
Theorem detectPII_always_halts env st text labels threshold :
  _initialized st = false \/ loaded st ->
  halts (createSession env) ->
  (forall st' session feeds,
     ensureReady env st = Ok st' -> _session st' = Some session ->
     halts (run session feeds)) ->
  halts (detectPII env st text labels threshold).
Proof.
  intros Hst Hcreate Hrun. unfold detectPII. cbv zeta.
  apply bind_halts.
  { unfold ensureReady. destruct (negb (_initialized st) || _);
      [apply initGLiNER_halts; exact Hcreate | apply Ok_halts]. }
  intros st' Hready.
  pose proof (@ensureReady_loaded env st st' Hst Hready) as Hloaded.
  destruct (_session st') as [session|] eqn:Hsession; [|apply Throw_halts].
  assert (Hinf : forall chunk th,
            halts (runInference st' chunk (orElse labels PII_LABELS) th)).
  { intros chunk th. apply runInference_halts; [exact Hloaded|].
    intros s feeds Hs. apply (Hrun st' s feeds Hready Hs). }
  destruct (maxWords st' <? _)%Z; [|apply Hinf].
  unfold detectPIIChunked. apply bind_halts; [|intros; apply Ok_halts].
  apply chunkLoop_halts; [|intros; apply Hinf|lia].
  unfold maxWords, OVERLAP. destruct (_isSpanMode st'); lia.
Qed.

End WithRuntime.
End EndsFacts.

Module ModelOnlyFacts.
Import StringFacts ListFacts SortFacts DecoderFacts InferenceFacts ValidityFacts.
Import PlaceholderFacts CounterFacts TemplateFacts OrderFacts RoundTripFacts
       ShortTextFacts.
Import Config Decoder Inference Anonymization.

Section WithRuntime.
Context `{FloatOps} `{Unicode}.

Lemma separate_below a b :
  descending Decoder.start separate a b ->
  below (glinerMatch a) (glinerMatch b).
Proof.
  unfold descending, separate, disjoint, below. simpl. intros Hd.
  destruct Hd as [[Hlt [Hs|Hs]]|[Heq Hs]]; lia.
Qed.

Lemma replaceEntities_round_trip text ents :
  ~ In 60%N text -> ~ In 36%N text ->
  Forall (spanOK text PII_LABELS) ents -> NoOverlap ents ->
  let r := replaceEntities text ents in
  reversePIIMappings (anonymized r) (mappings r) = text.
Proof.
  intros Hlt Hdollar Hok Hno r. unfold replaceEntities in r.
  set (sorted := sortBy (fun a b => (0 <? Decoder.start b - Decoder.start a)%Z)
                        ents) in *.
  assert (Hsep : ForallOrdPairs separate ents).
  { unfold separate. apply pairs_conj; [exact Hno|].
    apply (@pairs_Forall _ (fun e => (Decoder.start e < Decoder.end_ e)%Z)).
    revert Hok. apply Forall_impl. intros e (Hse & _). lia. }
  assert (Hsorted : Forall (spanOK text PII_LABELS) sorted).
  { apply sortBy_Forall. exact Hok. }
  assert (Hbelow : ForallOrdPairs below (map glinerMatch sorted)).
  { pose proof (@sortBy_descending _ Decoder.start separate ents Hsep) as Hd.
    fold sorted in Hd. clearbody sorted. clear - Hd.
    induction Hd as [|e l He _ IH]; simpl; constructor; [|exact IH].
    apply Forall_map. revert He. apply Forall_impl.
    intros b. apply separate_below. }
  assert (Hvalid : Forall (validMatch text) (map glinerMatch sorted)).
  { apply Forall_map. revert Hsorted. apply Forall_impl.
    intros e He. exact (spanOK_entityOK He). }
  assert (Hends : Forall (fun mt => (end_ mt <= Z.of_nat (length text))%Z)
                         (map glinerMatch sorted)).
  { revert Hvalid. apply Forall_impl. intros mt (_ & Hlen & _). exact Hlen. }
  assert (Hcount : CountInv [] []).
  { intros t. right. split; reflexivity. }
  assert (Htext : text = firstn (length text) text ++ render [])
    by (rewrite firstn_all, app_nil_r; reflexivity).
  assert (Hnil : restore [] = skipn (length text) text)
    by (rewrite skipn_all; reflexivity).
  assert (Hnone : forall k v, In (Hole k v) [] -> In (k, v) [])
    by (intros k v []).
  pose proof (@assignLoop_template text Hlt Hdollar _ _ [] text []
                (length text) [] Hcount eq_refl (Forall_nil _)
                (Nat.le_refl _) Htext Hnil (Forall_nil _) Hnone
                Hvalid Hends Hbelow) as Ht.
  cbv zeta in Ht. fold r in Ht.
  destruct Ht as (tpl & Hr1 & Hr2 & Hr3 & Hr4 & Hr5 & Hr6).
  rewrite Hr1, (@reverse_template (mappings r) tpl Hr3 Hr5 Hr6 Hr4).
  exact Hr2.
Qed.

(** X13. The model-only path is reversible on a text within the word
    ceiling that holds no [<] and no [$]: putting the values of the
    mappings back gives the text. *)
Theorem anonymizeWithGLiNER_round_trip env st st' text r :
  ~ In 60%N text -> ~ In 36%N text ->
  ensureReady env st = Ok st' ->
  (Z.of_nat (length (splitWs text)) <= maxWords st')%Z ->
  anonymizeWithGLiNER env st text = Ok r ->
  reversePIIMappings (anonymized r) (mappings r) = text.
Proof.
  intros Hlt Hdollar Hready Hwords Ha.
  unfold anonymizeWithGLiNER in Ha. bind_step Ha.
  inversion Ha; subst r; clear Ha.
  pose proof (@detectPII_one_inference_valid _ _ env st st' text None None x
                Hready Hwords E) as Hv.
  apply replaceEntities_round_trip; try assumption.
  unfold detectPII in E. cbv zeta in E. rewrite Hready in E.
  cbn [bind] in E. destruct (_session st'); [|discriminate].
  destruct (Z.ltb_spec (maxWords st') (Z.of_nat (length (splitWs text))));
    [lia|].
  apply runInference_greedy in E. destruct E as (cands & ->).
  destruct (@greedySearch_spec _ (fun _ => True) cands) as (Hno & _).
  { apply Forall_forall. auto. }
  exact Hno.
Qed.

End WithRuntime.
End ModelOnlyFacts.

Module ByteFacts.
Import StringFacts ListFacts Tokenizer BPESpec BPEFacts.

Lemma byteSymbols_table : byteSymbolsDiffer = true.
Proof. vm_compute. reflexivity. Qed.

Lemma distinctb_inj {A} (f : A -> jsstring) : forall l x y,
  distinctb (map f l) = true -> In x l -> In y l -> f x = f y -> x = y.
Proof.
  induction l as [|a l IH]; intros x y Hd Hx Hy Heq; [destruct Hx|].
  simpl in Hd. apply andb_true_iff in Hd. destruct Hd as [Hfresh Hd].
  apply negb_true_iff in Hfresh.
  assert (Hnot : forall z, In z l -> f a <> f z).
  { intros z Hz Hfz.
    assert (Hex : existsb (eqs (f a)) (map f l) = true).
    { apply existsb_exists. exists (f z).
      split; [apply in_map; exact Hz | apply eqs_eq; exact Hfz]. }
    congruence. }
  destruct Hx as [<-|Hx], Hy as [<-|Hy].
  - reflexivity.
  - contradiction (Hnot y Hy).
  - symmetry in Heq. contradiction (Hnot x Hx).
  - exact (IH x y Hd Hx Hy Heq).
Qed.

Lemma byteSymbol_inj b1 b2 :
  (b1 < 256)%N -> (b2 < 256)%N -> byteSymbol b1 = byteSymbol b2 -> b1 = b2.
Proof.
  intros Hb1 Hb2 Heq.
  exact (@distinctb_inj _ byteSymbol (rangeN 0 255) b1 b2 byteSymbols_table
           (rangeN_In Hb1) (rangeN_In Hb2) Heq).
Qed.

Lemma byteSymbol_unit b :
  (b < 256)%N -> exists x, byteSymbol b = [x] /\ x <> 32%N.
Proof.
  intros Hb. destruct (byteEncoder_symbol Hb) as (x & Hx & Hne).
  exists x. unfold byteSymbol. rewrite Hx. auto.
Qed.

Lemma byteSymbols_inj : forall bytes1 bytes2,
  Forall (fun b => (b < 256)%N) bytes1 ->
  Forall (fun b => (b < 256)%N) bytes2 ->
  concat (map byteSymbol bytes1) = concat (map byteSymbol bytes2) ->
  bytes1 = bytes2.
Proof.
  induction bytes1 as [|b1 bytes1 IH]; intros bytes2 Hf1 Hf2 Heq.
  - destruct bytes2 as [|b2 bytes2]; [reflexivity|].
    inversion Hf2 as [|? ? Hb2 _]; subst.
    destruct (byteSymbol_unit Hb2) as (x & Hx & _).
    cbn [map concat] in Heq. rewrite Hx in Heq. discriminate Heq.
  - inversion Hf1 as [|? ? Hb1 Hf1']; subst.
    destruct (byteSymbol_unit Hb1) as (x1 & Hx1 & _).
    destruct bytes2 as [|b2 bytes2].
    + cbn [map concat] in Heq. rewrite Hx1 in Heq. discriminate Heq.
    + inversion Hf2 as [|? ? Hb2 Hf2']; subst.
      destruct (byteSymbol_unit Hb2) as (x2 & Hx2 & _).
      cbn [map concat] in Heq. rewrite Hx1, Hx2 in Heq. cbn [app] in Heq.
      inversion Heq as [[Hx Hrest]].
      f_equal.
      * apply byteSymbol_inj; try assumption. congruence.
      * apply IH; assumption.
Qed.

(** X14. The byte-level symbols lose nothing: every byte has a symbol of
    its own, made of one code unit that is not a space, so that two texts
    whose symbols spell the same string have the same UTF-8 bytes. *)
Theorem byteLevel_symbols_are_lossless :
  (forall b, (b < 256)%N -> exists x, byteSymbol b = [x] /\ x <> 32%N)
  /\ (forall b1 b2, (b1 < 256)%N -> (b2 < 256)%N ->
                    byteSymbol b1 = byteSymbol b2 -> b1 = b2)
  /\ forall word1 word2 : jsstring,
       concat (map byteSymbol (utf8 word1))
       = concat (map byteSymbol (utf8 word2)) ->
       utf8 word1 = utf8 word2.
Proof.
  split; [exact byteSymbol_unit|]. split; [exact byteSymbol_inj|].
  intros word1 word2 Heq.
  apply byteSymbols_inj; [apply utf8_bytes | apply utf8_bytes | exact Heq].
Qed.

End ByteFacts.

Module VocabularyFacts.
Import StringFacts ListFacts MapFacts Tokenizer Tokenizer.Unigram UnigramSpec.

Section WithRuntime.
Context `{FloatOps} `{Unicode}.

Lemma nth_error_snoc {A} (l : list A) x k :
  nth_error (l ++ [x]) k
  = if (k <? length l)%nat then nth_error l k
    else if (k =? length l)%nat then Some x else None.
Proof.
  destruct (Nat.ltb_spec k (length l)) as [Hlt|Hge].
  - apply nth_error_app1. exact Hlt.
  - rewrite nth_error_app2 by exact Hge.
    destruct (Nat.eqb_spec k (length l)) as [->|Hne].
    + rewrite Nat.sub_diag. reflexivity.
    + destruct (k - length l)%nat as [|d] eqn:Hd; [lia|].
      simpl. destruct d; reflexivity.
Qed.

Lemma firstWins_byteTokens entries tk bt :
  firstWins entries tk ->
  firstWins entries
    {| vocab := vocab tk; scores := scores tk;
       addedTokens := addedTokens tk; byteTokens := bt;
       unkTokenId := unkTokenId tk; clsTokenId := clsTokenId tk;
       sepTokenId := sepTokenId tk; maxPieceLength := maxPieceLength tk |}.
Proof. intros Hinv p. exact (Hinv p). Qed.

Lemma addPiece_firstWins entries tk entry :
  firstWins entries tk ->
  firstWins (entries ++ [entry])
            (addPiece tk (Z.of_nat (length entries)) entry).
Proof.
  intros Hinv. destruct entry as [piece sc]. unfold addPiece.
  match goal with
  | |- firstWins _ (match byteMatch piece with
                    | Some b => _
                    | None => ?tk1
                    end) =>
      assert (Hinv1 : firstWins (entries ++ [(piece, sc)]) tk1)
  end.
  { unfold mapHas.
    destruct (mapGet eqs (vocab tk) piece) as [i|] eqn:Hpiece.
    - (* the piece is known: nothing changes *)
      intros p. specialize (Hinv p).
      destruct (mapGet eqs (vocab tk) p) as [i'|] eqn:Hp.
      + destruct Hinv as (k & s0 & Hi & Hk & Hfirst & Hsc & Hlen).
        assert (Hklt : (k < length entries)%nat).
        { apply nth_error_Some. congruence. }
        exists k, s0. repeat split; try assumption.
        * rewrite nth_error_app1 by exact Hklt. exact Hk.
        * intros j e Hj He. rewrite nth_error_app1 in He by lia.
          exact (Hfirst j e Hj He).
      + rewrite map_app, in_app_iff. simpl. intros [Hin|[Heq|[]]].
        * exact (Hinv Hin).
        * subst p. congruence.
    - (* a new piece *)
      intros p. cbn [vocab scores maxPieceLength].
      rewrite !(mapGet_mapSet eqs eqs_eq).
      destruct (eqs p piece) eqn:Hpp.
      + apply eqs_eq in Hpp. subst p.
        exists (length entries), sc. split; [reflexivity|].
        split; [rewrite nth_error_snoc, Nat.ltb_irrefl, Nat.eqb_refl;
                reflexivity|].
        split.
        * intros j e Hj He Hfst. rewrite nth_error_app1 in He by exact Hj.
          specialize (Hinv piece). rewrite Hpiece in Hinv. apply Hinv.
          apply in_map_iff. exists e. split; [exact Hfst|].
          eapply nth_error_In. exact He.
        * split; [reflexivity|].
          destruct (Z.ltb_spec (maxPieceLength tk) (jslength piece)); lia.
      + specialize (Hinv p).
        destruct (mapGet eqs (vocab tk) p) as [i'|] eqn:Hp.
        * destruct Hinv as (k & s0 & Hi & Hk & Hfirst & Hsc & Hlen).
          assert (Hklt : (k < length entries)%nat).
          { apply nth_error_Some. congruence. }
          exists k, s0. repeat split; try assumption.
          -- rewrite nth_error_app1 by exact Hklt. exact Hk.
          -- intros j e Hj He. rewrite nth_error_app1 in He by lia.
             exact (Hfirst j e Hj He).
          -- destruct (Z.ltb_spec (maxPieceLength tk) (jslength piece)); lia.
        * rewrite map_app, in_app_iff. simpl. intros [Hin|[Heq|[]]].
          -- exact (Hinv Hin).
          -- subst p. assert (eqs piece piece = true)
               by (apply eqs_eq; reflexivity). congruence. }
  destruct (byteMatch piece); [|exact Hinv1].
  intros p. exact (Hinv1 p).
Qed.

Lemma addPieces_firstWins : forall l entries tk,
  firstWins entries tk ->
  firstWins (entries ++ l) (addPieces tk (Z.of_nat (length entries)) l).
Proof.
  induction l as [|e l IH]; intros entries tk Hinv; simpl.
  - rewrite app_nil_r. exact Hinv.
  - replace (entries ++ e :: l) with ((entries ++ [e]) ++ l)
      by (rewrite <- app_assoc; reflexivity).
    replace (Z.of_nat (length entries) + 1)%Z
      with (Z.of_nat (length (entries ++ [e])))
      by (rewrite length_app; simpl; lia).
    apply IH. apply addPiece_firstWins. exact Hinv.
Qed.

(** X15. In the tables that the Unigram constructor builds from
    [model.vocab], a piece has the index and the score of its first entry
    in the list (a later duplicate changes nothing), no piece is longer
    than [maxPieceLength], and a piece has an id only if the list holds
    it. *)
Theorem Unigram_construct_first_entry_wins
  (entries : list (jsstring * float)) unk_id added :
  firstWins entries (construct (Some entries) unk_id added).
Proof.
  assert (Hempty : firstWins []
            {| vocab := []; scores := []; addedTokens := [];
               byteTokens := []; unkTokenId := 0; clsTokenId := 0;
               sepTokenId := 0; maxPieceLength := 0 |}).
  { intros p. simpl. intros []. }
  pose proof (addPieces_firstWins entries Hempty) as Hinv.
  simpl in Hinv. intros p. specialize (Hinv p).
  unfold construct. cbn [vocab scores maxPieceLength]. exact Hinv.
Qed.

End WithRuntime.
End VocabularyFacts.

Module ReadyFacts.
Import Config Tokenizer Inference.

Section WithRuntime.
Context `{FloatOps} `{Unicode}.



End WithRuntime.
End ReadyFacts.

Module RankFacts.
Import StringFacts ListFacts Tokenizer Tokenizer.BPE BPESpec BPEFacts.

Lemma lowest_ext tk (Q Q' : jsstring -> jsstring -> Prop) best :
  (forall a b, Q a b <-> Q' a b) -> lowest tk Q best -> lowest tk Q' best.
Proof.
  intros Hq. destruct best as [[p r]|]; simpl.
  - intros (Hr & (a & b & Hp & Hab) & Hmin). split; [exact Hr|]. split.
    + exists a, b. split; [exact Hp | apply Hq; exact Hab].
    + intros a' b' r' Hab'. apply Hmin. apply Hq. exact Hab'.
  - intros Hnone a b Hab. apply Hnone. apply Hq. exact Hab.
Qed.

Lemma lowest_step tk (Q : jsstring -> jsstring -> Prop) best x y :
  lowest tk Q best ->
  lowest tk (fun a b => Q a b \/ (x = a /\ y = b))
    (match mapGet eqs (mergeRanks tk) (x ++ 32%N :: y) with
     | Some rank =>
         match best with
         | Some (_, bestRank) =>
             if (rank <? bestRank)%Z then Some (x ++ 32%N :: y, rank)
             else best
         | None => Some (x ++ 32%N :: y, rank)
         end
     | None => best
     end).
Proof.
  intros Hbest.
  destruct (mapGet eqs (mergeRanks tk) (x ++ 32%N :: y)) as [rank|] eqn:Hxy.
  - destruct best as [[p r]|].
    + destruct Hbest as (Hr & (a & b & Hp & Hab) & Hmin).
      destruct (Z.ltb_spec rank r) as [Hlt|Hge]; simpl.
      * split; [exact Hxy|]. split; [exists x, y; auto|].
        intros a' b' r' [Hq|[<- <-]] Hr'.
        -- specialize (Hmin a' b' r' Hq Hr'). lia.
        -- rewrite Hxy in Hr'. inversion Hr'. lia.
      * split; [exact Hr|]. split; [exists a, b; auto|].
        intros a' b' r' [Hq|[<- <-]] Hr'.
        -- exact (Hmin a' b' r' Hq Hr').
        -- rewrite Hxy in Hr'. inversion Hr'. lia.
    + simpl in Hbest. simpl.
      split; [exact Hxy|]. split; [exists x, y; auto|].
      intros a' b' r' [Hq|[<- <-]] Hr'.
      * rewrite (Hbest a' b' Hq) in Hr'. discriminate.
      * rewrite Hxy in Hr'. inversion Hr'. lia.
  - destruct best as [[p r]|]; simpl.
    + destruct Hbest as (Hr & (a & b & Hp & Hab) & Hmin).
      split; [exact Hr|]. split; [exists a, b; auto|].
      intros a' b' r' [Hq|[<- <-]] Hr'.
      * exact (Hmin a' b' r' Hq Hr').
      * rewrite Hxy in Hr'. discriminate.
    + simpl in Hbest. intros a b [Hq|[<- <-]]; [exact (Hbest a b Hq) | exact Hxy].
Qed.

Lemma findBestFrom_lowest tk : forall symbols (Q : jsstring -> jsstring -> Prop) best,
  lowest tk Q best ->
  lowest tk (fun a b => Q a b \/ adjacent a b symbols)
         (findBestFrom tk symbols best).
Proof.
  induction symbols as [|x|x y rest IH1 IH2] using list_ind2;
    intros Q best Hbest.
  - simpl. revert Hbest. apply lowest_ext. intros a b. simpl. tauto.
  - simpl. revert Hbest. apply lowest_ext. intros a b. simpl. tauto.
  - change (findBestFrom tk (x :: y :: rest) best)
      with (findBestFrom tk (y :: rest)
              (match mapGet eqs (mergeRanks tk) (x ++ 32%N :: y) with
               | Some rank =>
                   match best with
                   | Some (_, bestRank) =>
                       if (rank <? bestRank)%Z
                       then Some (x ++ 32%N :: y, rank) else best
                   | None => Some (x ++ 32%N :: y, rank)
                   end
               | None => best
               end)).
    pose proof (IH2 _ _ (@lowest_step tk Q best x y Hbest)) as Hrec.
    revert Hrec. apply lowest_ext. intros a b.
    change (adjacent a b (x :: y :: rest))
      with ((x = a /\ y = b) \/ adjacent a b (y :: rest)).
    tauto.
Qed.

(** X18. [findBestMergePair] returns the adjacent pair of lowest rank in
    the merge table, and [null] exactly when no adjacent pair is in the
    table. *)
Theorem findBestMergePair_lowest_rank tk symbols :
  match findBestMergePair tk symbols with
  | Some p =>
      exists a b r,
        p = a ++ 32%N :: b /\ adjacent a b symbols
        /\ mapGet eqs (mergeRanks tk) p = Some r
        /\ forall a' b' r', adjacent a' b' symbols ->
             mapGet eqs (mergeRanks tk) (a' ++ 32%N :: b') = Some r' ->
             (r <= r')%Z
  | None =>
      forall a b, adjacent a b symbols ->
                  mapGet eqs (mergeRanks tk) (a ++ 32%N :: b) = None
  end.
Proof.
  assert (Hstart : lowest tk (fun _ _ => False) None)
    by (intros a b []).
  pose proof (@findBestFrom_lowest tk symbols _ None Hstart) as Hl.
  unfold findBestMergePair.
  destruct (findBestFrom tk symbols None) as [[p r]|]; simpl in *.
  - destruct Hl as (Hr & (a & b & Hp & [[]|Hab]) & Hmin).
    exists a, b, r. repeat split; try assumption.
    intros a' b' r' Hadj. apply Hmin. right. exact Hadj.
  - intros a b Hadj. apply Hl. right. exact Hadj.
Qed.

End RankFacts.

Module DedupeFacts.
Import ListFacts SortFacts OrderFacts Anonymization.





End DedupeFacts.

Module WordPieceFacts.
Import StringFacts ListFacts Tokenizer Tokenizer.BPE BPESpec BPEFacts.

Lemma longestPiece_step tk word start todo end_ :
  longestPiece tk word start (S todo) end_
  = if (start <? end_)%Z then
      match mapGet eqs (vocab tk) (pieceAt word start end_) with
      | Some i => Some (i, end_)
      | None => longestPiece tk word start todo (end_ - 1)
      end
    else None.
Proof. reflexivity. Qed.

Lemma longestPiece_spec tk word start : forall todo end_,
  (end_ - start <= Z.of_nat todo)%Z ->
  match longestPiece tk word start todo end_ with
  | Some (i, e) =>
      (start < e <= end_)%Z
      /\ mapGet eqs (vocab tk) (pieceAt word start e) = Some i
      /\ forall e', (e < e' <= end_)%Z ->
                    mapGet eqs (vocab tk) (pieceAt word start e') = None
  | None =>
      forall e', (start < e' <= end_)%Z ->
                 mapGet eqs (vocab tk) (pieceAt word start e') = None
  end.
Proof.
  induction todo as [|todo IH]; intros end_ Hf.
  - cbn [longestPiece]. intros e' He'. lia.
  - rewrite longestPiece_step.
    destruct (Z.ltb_spec start end_) as [Hlt|Hge]; [|intros e' He'; lia].
    destruct (mapGet eqs (vocab tk) (pieceAt word start end_)) as [i|] eqn:Hv.
    + split; [lia|]. split; [exact Hv|]. intros e' He'. lia.
    + specialize (IH (end_ - 1)%Z ltac:(lia)).
      destruct (longestPiece tk word start todo (end_ - 1)) as [[i e]|].
      * destruct IH as (Hb & Hi & Hno). split; [lia|]. split; [exact Hi|].
        intros e' He'. destruct (Z.eq_dec e' end_) as [->|Hne];
          [exact Hv | apply Hno; lia].
      * intros e' He'. destruct (Z.eq_dec e' end_) as [->|Hne];
          [exact Hv | apply IH; lia].
Qed.

Lemma wordPieceLoop_segmented tk word : forall fuel start tokens out,
  (0 <= start)%Z ->
  wordPieceLoop fuel tk word start tokens = Ok out ->
  exists ids, out = tokens ++ ids /\ Segmented tk word start ids.
Proof.
  induction fuel as [|fuel IH]; intros start tokens out Hs Hrun;
    cbn [wordPieceLoop] in Hrun.
  - destruct (Z.ltb_spec start (jslength word)); [discriminate|].
    inversion Hrun; subst. exists []. rewrite app_nil_r.
    split; [reflexivity | apply seg_done; lia].
  - destruct (Z.ltb_spec start (jslength word)) as [Hlt|Hge].
    2:{ inversion Hrun; subst. exists []. rewrite app_nil_r.
        split; [reflexivity | apply seg_done; lia]. }
    pose proof (@longestPiece_spec tk word start (length word)
                  (jslength word)) as Hl.
    destruct (longestPiece tk word start (length word) (jslength word))
      as [[i e]|].
    + destruct Hl as (Hb & Hi & Hno); [unfold jslength; lia|].
      apply IH in Hrun; [|lia]. destruct Hrun as (ids & -> & Hseg).
      exists (i :: ids). rewrite <- app_assoc. split; [reflexivity|].
      eapply seg_piece; eauto.
    + specialize (Hl ltac:(unfold jslength; lia)).
      apply IH in Hrun; [|lia]. destruct Hrun as (ids & -> & Hseg).
      exists (unkTokenId tk :: ids). rewrite <- app_assoc.
      split; [reflexivity|].
      apply seg_unk; [exact Hlt | | exact Hseg].
      intros e' He'. apply Hl. lia.
Qed.

(** X20. The WordPiece fallback encodes the whole word, longest piece
    first: a word of the vocabulary gets its id; otherwise the ids are, from
    left to right, the id of the longest piece of the vocabulary at the
    current position (with the prefix [##] after the first position), or
    the unknown-token id for one code unit where no piece matches. It
    returns for every word. *)
Theorem encodeWordPieceFallback_longest_match tk word :
  exists ids,
    encodeWordPieceFallback tk word = Ok ids
    /\ match mapGet eqs (vocab tk) word with
       | Some i => ids = [i]
       | None => Segmented tk word 0 ids
       end.
Proof.
  unfold encodeWordPieceFallback.
  destruct (mapGet eqs (vocab tk) word) as [i|] eqn:Hv.
  - exists [i]. split; reflexivity.
  - destruct (@wordPieceLoop_total tk word (length word) 0%Z [])
      as (ids & Hids & _); [unfold jslength; lia | constructor |].
    exists ids. split; [exact Hids|].
    destruct (@wordPieceLoop_segmented tk word _ _ _ _ (Z.le_refl 0) Hids)
      as (ids' & Heq & Hseg).
    simpl in Heq. subst ids'. exact Hseg.
Qed.

End WordPieceFacts.

(** ** The theorems at concrete inputs *)

Module Instances.
Import DecoderFacts InferenceFacts.
Import Tokenizer Processor Config Decoder Inference Anonymization Concrete.

(** C2 on a text of three words: the entities are sorted and pairwise
    disjoint. *)
Lemma detectPII_sorted_and_disjoint_witness :
  exists ents,
    detectPII zeroEnv initialState (str "Bob went home") None None = Ok ents
    /\ SortedByStart ents /\ NoOverlap ents.
Proof.
  assert (Hd : match detectPII zeroEnv initialState (str "Bob went home")
                               None None with
               | Ok _ => true
               | _ => false
               end = true) by (vm_compute; reflexivity).
  assert (He : match ensureReady zeroEnv initialState with
               | Ok st' =>
                   (Z.of_nat (length (splitWs (str "Bob went home")))
                    <=? maxWords st')%Z
               | _ => false
               end = true) by (vm_compute; reflexivity).
  destruct (detectPII zeroEnv initialState (str "Bob went home") None None)
    as [ents| |] eqn:Hdet; try discriminate Hd.
  destruct (ensureReady zeroEnv initialState) as [st'| |] eqn:Hready;
    try discriminate He.
  apply Z.leb_le in He.
  destruct (@DetectionFacts.detectPII_sorted_and_disjoint _ _ zeroEnv
              initialState (str "Bob went home") None None ents Hdet)
    as [Hsorted Hrest].
  exists ents. split; [reflexivity|]. split; [exact Hsorted|].
  exact (proj1 (Hrest st' Hready) He).
Defined.



(** C8 before and after the initialization with a bare description. *)
Lemma uninitialized_tokenizer_throws_witness :
  encodeWord None (str "abc") = Throw notInitialized
  /\ exists st i,
       initTokenizer bareTokenizerJson = Ok st /\ getClsTokenId st = Ok i.
Proof.
  assert (Hi : match initTokenizer bareTokenizerJson with
               | Ok _ => true
               | _ => false
               end = true) by (vm_compute; reflexivity).
  destruct (initTokenizer bareTokenizerJson) as [st| |] eqn:Hinit;
    try discriminate Hi.
  destruct (@TokenizerFacts.uninitialized_tokenizer_throws _ _)
    as (Hthrow & _ & _ & _ & _ & _ & Hafter).
  split; [apply Hthrow|].
  destruct (Hafter bareTokenizerJson st (str "abc") (str "[CLS]") Hinit)
    as (_ & _ & (i & Hcls) & _).
  exists st, i. split; [reflexivity | exact Hcls].
Defined.

(** C9 on one text of three words, with spans of at most two words. *)
Lemma prepareSpanBatch_candidate_spans_witness :
  exists batch idxs masks,
    prepareSpanBatch
      (match initTokenizer smallUnigramJson with Ok st => st | _ => None end)
      [str "a b a"] [str "person"] 2 (str "<<ENT>>") (str "<<SEP>>")
    = Ok batch
    /\ spanIdx batch = Some idxs /\ spanMask batch = Some masks.
Proof.
  assert (Hb : match prepareSpanBatch
                       (match initTokenizer smallUnigramJson with
                        | Ok st => st
                        | _ => None
                        end)
                       [str "a b a"] [str "person"] 2
                       (str "<<ENT>>") (str "<<SEP>>") with
               | Ok _ => true
               | _ => false
               end = true) by (vm_compute; reflexivity).
  destruct (prepareSpanBatch _ [str "a b a"] [str "person"] 2
                             (str "<<ENT>>") (str "<<SEP>>"))
    as [batch| |] eqn:Hbatch; try discriminate Hb.
  destruct (@SpanFacts.prepareSpanBatch_candidate_spans _ _ _ _ _ 2 _ _ batch
              ltac:(lia) Hbatch) as (idxs & masks & H1 & H2 & _).
  exists batch, idxs, masks. split; [reflexivity|]. split; assumption.
Defined.

(** X2 on a text of three words. *)
Lemma detectPII_entities_are_word_spans_witness :
  exists ents words,
    detectPII zeroEnv initialState (str "Bob went home") None None = Ok ents
    /\ splitWords (str "Bob went home") = Ok words
    /\ Forall (alignedOK (str "Bob went home") PII_LABELS words) ents.
Proof.
  assert (Hd : match detectPII zeroEnv initialState (str "Bob went home")
                               None None with
               | Ok _ => true
               | _ => false
               end = true) by (vm_compute; reflexivity).
  assert (He : match ensureReady zeroEnv initialState with
               | Ok st' =>
                   (Z.of_nat (length (splitWs (str "Bob went home")))
                    <=? maxWords st')%Z
               | _ => false
               end = true) by (vm_compute; reflexivity).
  destruct (detectPII zeroEnv initialState (str "Bob went home") None None)
    as [ents| |] eqn:Hdet; try discriminate Hd.
  destruct (ensureReady zeroEnv initialState) as [st'| |] eqn:Hready;
    try discriminate He.
  apply Z.leb_le in He.
  destruct (@AlignmentFacts.detectPII_entities_are_word_spans _ _ zeroEnv
              initialState st' (str "Bob went home") None None ents
              Hready He Hdet) as (words & Hw & Hall & _).
  exists ents, words. split; [reflexivity|]. split; [exact Hw | exact Hall].
Defined.

(** X3 on a text that holds no placeholder. *)
Lemma reversePIIMappings_without_placeholders_witness :
  reversePIIMappings (str "hello Bob") [(str "<person 1>", str "Ann")]
  = str "hello Bob".
Proof.
  apply ReverseFacts.reversePIIMappings_without_placeholders.
  intros k [<-|[]]. reflexivity.
Defined.

(** X7 with the merge of [a] and [b]: [a b c] becomes [ab c]. *)
Lemma applyBPE_regroups_the_symbols_witness :
  exists out,
    BPE.applyBPE (BPE.construct None (Some [MergeString (str "a b")]) false
                                None None)
                 [str "a"; str "b"; str "c"] = Ok out
    /\ concat out = str "abc".
Proof.
  destruct (@MergeFacts.applyBPE_regroups_the_symbols
              (BPE.construct None (Some [MergeString (str "a b")]) false
                             None None)
              [str "a"; str "b"; str "c"]) as (out & Hout & Hcat & _).
  - repeat constructor; intros Hin; simpl in Hin;
      repeat (destruct Hin as [Hin|Hin]; [discriminate Hin|]); exact Hin.
  - exists out. split; [exact Hout | exact Hcat].
Defined.

(** X8 on the Unigram tokenizer with three pieces. *)
Lemma encodeWord_gives_every_word_a_token_witness :
  exists st id ids,
    initTokenizer smallUnigramJson = Ok st
    /\ encodeWord st (str "abc") = Ok (Some id :: map Some ids).
Proof.
  assert (Hi : match initTokenizer smallUnigramJson with
               | Ok _ => true
               | _ => false
               end = true) by (vm_compute; reflexivity).
  destruct (initTokenizer smallUnigramJson) as [st| |] eqn:Hinit;
    try discriminate Hi.
  destruct (@SubwordFacts.encodeWord_gives_every_word_a_token _ _
              smallUnigramJson st (str "abc") Hinit ltac:(discriminate))
    as (id & ids & Hids & _).
  exists st, id, ids. split; [reflexivity | exact Hids].
Defined.


(** X11 on a text of three words, in span mode. *)
Lemma span_mode_scores_exceed_the_threshold_witness :
  exists ents,
    detectPII zeroEnv initialState (str "Bob went home") None None = Ok ents
    /\ Forall (fun e => fgt (score e) (fofQ DEFAULT_THRESHOLD) = true) ents.
Proof.
  assert (Hd : match detectPII zeroEnv initialState (str "Bob went home")
                               None None with
               | Ok _ => true
               | _ => false
               end = true) by (vm_compute; reflexivity).
  assert (He : match ensureReady zeroEnv initialState with
               | Ok st' => _isSpanMode st'
               | _ => false
               end = true) by (vm_compute; reflexivity).
  destruct (detectPII zeroEnv initialState (str "Bob went home") None None)
    as [ents| |] eqn:Hdet; try discriminate Hd.
  destruct (ensureReady zeroEnv initialState) as [st'| |] eqn:Hready;
    try discriminate He.
  exists ents. split; [reflexivity|].
  exact (@ThresholdFacts.span_mode_scores_exceed_the_threshold _ _ zeroEnv
           initialState st' (str "Bob went home") None None ents
           Hready He Hdet).
Defined.

(** X12 on the first call, with the executor that answers zeros. *)
Lemma detectPII_always_halts_witness :
  halts (detectPII zeroEnv initialState (str "Bob went home") None None).
Proof.
  apply EndsFacts.detectPII_always_halts.
  - left. reflexivity.
  - discriminate.
  - intros st' session feeds Hready Hsession.
    unfold ensureReady, initGLiNER in Hready.
    cbn [negb _initialized initialState orb loadGLiNERModelFiles zeroEnv
         tokenizerJson createSession] in Hready.
    destruct (initTokenizer bareTokenizerJson) as [tok| |];
      cbn [bind] in Hready; try discriminate Hready.
    inversion Hready; subst st'. cbn [_session] in Hsession.
    inversion Hsession; subst session. discriminate.
Defined.

(** X13 on a text of three words. *)
Lemma anonymizeWithGLiNER_round_trip_witness :
  exists r,
    anonymizeWithGLiNER zeroEnv initialState (str "Bob went home") = Ok r
    /\ reversePIIMappings (anonymized r) (mappings r) = str "Bob went home".
Proof.
  assert (Hr : match anonymizeWithGLiNER zeroEnv initialState
                                         (str "Bob went home") with
               | Ok _ => true
               | _ => false
               end = true) by (vm_compute; reflexivity).
  assert (He : match ensureReady zeroEnv initialState with
               | Ok st' =>
                   (Z.of_nat (length (splitWs (str "Bob went home")))
                    <=? maxWords st')%Z
               | _ => false
               end = true) by (vm_compute; reflexivity).
  destruct (anonymizeWithGLiNER zeroEnv initialState (str "Bob went home"))
    as [r| |] eqn:Ha; try discriminate Hr.
  destruct (ensureReady zeroEnv initialState) as [st'| |] eqn:Hready;
    try discriminate He.
  apply Z.leb_le in He.
  exists r. split; [reflexivity|].
  apply (@ModelOnlyFacts.anonymizeWithGLiNER_round_trip _ _ zeroEnv
           initialState st' (str "Bob went home") r).
  - apply RoundTripFacts.without_spec. reflexivity.
  - apply RoundTripFacts.without_spec. reflexivity.
  - exact Hready.
  - exact He.
  - exact Ha.
Defined.




End Instances.
